(** * advertools.extract: extraction summaries over text collections

    A shallow embedding of [advertools/extract.py].  A Python [str] is a
    list of code points; the interpreter's pattern engine ([re]), the
    [Counter] and [sorted] built-ins and [urllib.parse.urlparse] are
    embedded as far as the extractors use them, after CPython 3.7; the
    Unicode character database is a parameter outside the ASCII range,
    and so are the patterns and the table of [advertools/regex.py] and
    [advertools/emoji.py].  A call returns a value or raises: [result]. *)

From Stdlib Require Import List NArith ZArith QArith Bool Arith Lia.
From Stdlib Require Import String Ascii Sorted Permutation SpecFloat.
From stdpp Require Import gmap.
Import ListNotations.

Close Scope Q_scope.
Local Open Scope nat_scope.

(** ** Strings *)

(** A code point. *)
Definition cp := N.

(** A Python [str]: its sequence of code points. *)
Definition str := list cp.

(** An ASCII literal as a [str]. *)
Fixpoint s2l (s : string) : str :=
  match s with
  | EmptyString => []
  | String a s' => N_of_ascii a :: s2l s'
  end.

Definition is_ascii (c : cp) : bool := (c <? 128)%N.

Definition ascii_lower (c : cp) : cp :=
  if ((65 <=? c) && (c <=? 90))%N then (c + 32)%N else c.

Definition ascii_isspace (c : cp) : bool :=
  (((9 <=? c) && (c <=? 13)) || ((28 <=? c) && (c <=? 32)))%N.

Definition ascii_isalnum (c : cp) : bool :=
  (((48 <=? c) && (c <=? 57)) || ((65 <=? c) && (c <=? 90))
   || ((97 <=? c) && (c <=? 122)))%N.

(** [s.startswith(p)] *)
Fixpoint startswith (p s : str) : bool :=
  match p, s with
  | [], _ => true
  | a :: p', b :: s' => (a =? b)%N && startswith p' s'
  | _ :: _, [] => false
  end.

(** [s.find(c)] as an option: the index of the first [c]. *)
Fixpoint find_char (c : cp) (s : str) : option nat :=
  match s with
  | [] => None
  | x :: s' => if (x =? c)%N then Some 0
               else option_map S (find_char c s')
  end.

(** [s.split(sep)] for a one-character separator. *)
Fixpoint split_on (sep : cp) (s : str) : list str :=
  match s with
  | [] => [[]]
  | c :: s' =>
      if (c =? sep)%N then [] :: split_on sep s'
      else match split_on sep s' with
           | [] => [[c]]
           | w :: ws => (c :: w) :: ws
           end
  end.

(** The last character of a string of identifier characters. *)
Fixpoint last_char (s : string) : option ascii :=
  match s with
  | EmptyString => None
  | String c EmptyString => Some c
  | String _ s' => last_char s'
  end.

(** The Unicode character database beyond ASCII.  Every field is consulted
    only for code points from 128 on, except [ucd_name] and the case
    folding of a pair with one member beyond ASCII. *)
Record UCD := {
  (** full lower-case mapping of one code point *)
  ucd_tolower : cp -> str;
  (** the final-sigma test, on the text before (nearest first) and after *)
  ucd_final_sigma : str -> str -> bool;
  ucd_isalnum : cp -> bool;
  ucd_isspace : cp -> bool;
  (** do two code points match when case is ignored *)
  ucd_ieq : cp -> cp -> bool;
  (** [unicodedata.name], absent for an unnamed code point *)
  ucd_name : cp -> option str;
  (** general category Sc, currency symbol *)
  ucd_is_Sc : cp -> bool
}.

(** ** Values and errors *)

(** What [findall] yields for one match: the matched text or the one group
    of the pattern, or the tuple of its groups when there are several. *)
Inductive mval :=
| MStr (s : str)
| MTup (t : list str).

#[global] Instance mval_eq_dec : EqDecision mval.
Proof. solve_decision. Defined.

#[global] Instance mval_countable : Countable mval.
Proof.
  refine (inj_countable'
            (fun v => match v with MStr s => inl s | MTup t => inr t end)
            (fun x => match x with inl s => MStr s | inr t => MTup t end) _).
  intros []; reflexivity.
Defined.

Inductive pyerr :=
| ZeroDivisionError
| KeyError (k : str)
| ValueError
| TypeError
| OverflowError.

Inductive result (A : Type) :=
| Ok (a : A)
| Raise (e : pyerr).
Arguments Ok {A} a.
Arguments Raise {A} e.

Definition bind {A B} (m : result A) (f : A -> result B) : result B :=
  match m with
  | Ok a => f a
  | Raise e => Raise e
  end.

Notation "'let*' x ':=' m 'in' k" := (bind m (fun x => k))
  (at level 10, x name, m at level 100, k at level 200).

(** A field of the value returned, when one is returned. *)
Definition field_of {A B} (f : A -> B) (r : result A) : option B :=
  match r with
  | Ok a => Some (f a)
  | Raise _ => None
  end.

(** A comprehension whose body may raise: left to right, first error wins. *)
Fixpoint mapM {A B} (f : A -> result B) (l : list A) : result (list B) :=
  match l with
  | [] => Ok []
  | x :: l' => let* y := f x in let* ys := mapM f l' in Ok (y :: ys)
  end.

(** ** Patterns *)

Inductive cclass :=
| CAny                      (* .   any code point but a line feed *)
| CSpace                    (* \s *)
| CNonSpace                 (* \S *)
| CWord                     (* \w *)
| CNonWord                  (* \W *)
| CIn (p : cp -> bool).     (* [...] given by its membership test *)

(** The fragment of the pattern language the extractors build. *)
Inductive regex :=
| Eps
| Lit (c : cp)
| Cls (k : cclass)
| Seq (r1 r2 : regex)
| Alt (r1 r2 : regex)
| Rep (k : cclass) (lo : nat) (hi : option nat)   (* greedy k{lo,hi} *)
| Grp (n : nat) (r : regex)                       (* n-th capturing group *)
| Bref (n : nat)                                  (* \n *)
| Bnd.                                            (* \b *)

(** The literal text [s] as a pattern. *)
Fixpoint lit (s : str) : regex :=
  match s with
  | [] => Eps
  | c :: s' => Seq (Lit c) (lit s')
  end.

(** [n * r]: the pattern source repeated [n] times. *)
Fixpoint seq_n (n : nat) (r : regex) : regex :=
  match n with
  | O => Eps
  | S n' => Seq r (seq_n n' r)
  end.

(** [pattern.groups] *)
Fixpoint ngroups (r : regex) : nat :=
  match r with
  | Seq r1 r2 | Alt r1 r2 => Nat.max (ngroups r1) (ngroups r2)
  | Grp n r' => Nat.max n (ngroups r')
  | _ => 0
  end.

(** The state of the backtracking matcher: the text already passed
    (nearest first), the text ahead, and the groups bound so far. *)
Record mstate := MState {
  m_before : str;
  m_rest : str;
  m_groups : list (nat * str)
}.

Definition kont := mstate -> option mstate.

Fixpoint group_lookup (n : nat) (g : list (nat * str)) : option str :=
  match g with
  | [] => None
  | (m, s) :: g' => if m =? n then Some s else group_lookup n g'
  end.

(** The text passed between two states of one match. *)
Definition span (st0 st1 : mstate) : str :=
  rev (firstn (length (m_before st1) - length (m_before st0)) (m_before st1)).

(** Greedy repetition of a one-character test: the longest run first, then
    one character less at a time. *)
Fixpoint rep_greedy (test : cp -> bool) (lo : nat) (hi : option nat)
    (before rest : str) (g : list (nat * str)) (k : kont) : option mstate :=
  let stop := match lo with
              | O => k (MState before rest g)
              | S _ => None
              end in
  match hi, rest with
  | Some O, _ => stop
  | _, c :: rest' =>
      if test c then
        match rep_greedy test (pred lo) (option_map pred hi)
                (c :: before) rest' g k with
        | Some r => Some r
        | None => stop
        end
      else stop
  | _, [] => stop
  end.

Section Engine.

Context (ucd : UCD).

(** [s.lower()] *)
Fixpoint lower_from (before s : str) : str :=
  match s with
  | [] => []
  | c :: s' =>
      (if is_ascii c then [ascii_lower c]
       else if (c =? 931)%N
            then [if ucd_final_sigma ucd before s' then 962%N else 963%N]
            else ucd_tolower ucd c)
      ++ lower_from (c :: before) s'
  end.

Definition lower (s : str) : str := lower_from [] s.

Definition isspace (c : cp) : bool :=
  if is_ascii c then ascii_isspace c else ucd_isspace ucd c.

Definition isword (c : cp) : bool :=
  if is_ascii c then ascii_isalnum c || (c =? 95)%N else ucd_isalnum ucd c.

Definition class_test (k : cclass) (c : cp) : bool :=
  match k with
  | CAny => negb (c =? 10)%N
  | CSpace => isspace c
  | CNonSpace => negb (isspace c)
  | CWord => isword c
  | CNonWord => negb (isword c)
  | CIn p => p c
  end.

(** Equality of a pattern character and a text character; [ic] is the
    IGNORECASE flag. *)
Definition char_eq (ic : bool) (a b : cp) : bool :=
  if ic then
    if is_ascii a && is_ascii b then (ascii_lower a =? ascii_lower b)%N
    else ucd_ieq ucd a b
  else (a =? b)%N.

(** Match the text of a group again at the head of [rest]. *)
Fixpoint eat (ic : bool) (s before rest : str) : option (str * str) :=
  match s, rest with
  | [], _ => Some (before, rest)
  | a :: s', b :: rest' =>
      if char_eq ic a b then eat ic s' (b :: before) rest' else None
  | _ :: _, [] => None
  end.

(** [\b]: a word character on exactly one side. *)
Definition at_boundary (st : mstate) : bool :=
  xorb (match m_before st with c :: _ => isword c | [] => false end)
       (match m_rest st with c :: _ => isword c | [] => false end).

(** The matcher: [rmatch ic r st k] matches [r] from [st] and hands every
    way of doing so to [k], in the engine's order of preference, until
    [k] accepts one. *)
Fixpoint rmatch (ic : bool) (r : regex) (st : mstate) (k : kont)
    : option mstate :=
  match r with
  | Eps => k st
  | Lit c =>
      match m_rest st with
      | x :: rest' =>
          if char_eq ic c x
          then k (MState (x :: m_before st) rest' (m_groups st))
          else None
      | [] => None
      end
  | Cls cl =>
      match m_rest st with
      | x :: rest' =>
          if class_test cl x
          then k (MState (x :: m_before st) rest' (m_groups st))
          else None
      | [] => None
      end
  | Seq r1 r2 => rmatch ic r1 st (fun st1 => rmatch ic r2 st1 k)
  | Alt r1 r2 =>
      match rmatch ic r1 st k with
      | Some res => Some res
      | None => rmatch ic r2 st k
      end
  | Rep cl lo hi =>
      rep_greedy (class_test cl) lo hi (m_before st) (m_rest st)
        (m_groups st) k
  | Grp n r' =>
      rmatch ic r' st
        (fun st1 => k (MState (m_before st1) (m_rest st1)
                         ((n, span st st1) :: m_groups st1)))
  | Bref n =>
      match group_lookup n (m_groups st) with
      | None => None
      | Some s =>
          match eat ic s (m_before st) (m_rest st) with
          | Some (b, rest') => k (MState b rest' (m_groups st))
          | None => None
          end
      end
  | Bnd => if at_boundary st then k st else None
  end.

(** What [findall] reports for a match: the whole text without groups,
    the group with one, the tuple of groups with more; a group that took
    no part gives the empty string. *)
Definition group_text (g : list (nat * str)) (n : nat) : str :=
  match group_lookup n g with
  | Some s => s
  | None => []
  end.

Definition item (r : regex) (whole : str) (g : list (nat * str)) : mval :=
  match ngroups r with
  | 0 => MStr whole
  | 1 => MStr (group_text g 1)
  | n => MTup (map (group_text g) (seq 1 n))
  end.

(** One anchored attempt at the current position.  With [must_advance]
    an empty match is refused (the previous match was empty and ended
    here). *)
Definition attempt (ic : bool) (r : regex) (before rest : str)
    (must_advance : bool) : option (nat * mval) :=
  match rmatch ic r (MState before rest [])
          (fun st => if must_advance
                        && (length (m_before st) =? length before)
                     then None else Some st) with
  | None => None
  | Some st =>
      let n := length (m_before st) - length before in
      Some (n, item r (rev (firstn n (m_before st))) (m_groups st))
  end.

(** The scan of [findall]: non-overlapping matches from left to right.
    [skip] counts the characters still covered by the last match.  After
    an empty match the same position is tried once more for a match that
    is not empty, as the interpreter does from version 3.7 on. *)
Fixpoint findall_at (ic : bool) (r : regex) (before rest : str)
    (skip : nat) : list mval :=
  let next n :=
    match rest with
    | [] => []
    | c :: rest' => findall_at ic r (c :: before) rest' n
    end in
  match skip with
  | S n => next n
  | O =>
      match attempt ic r before rest false with
      | None => next 0
      | Some (S n, v) => v :: next n
      | Some (O, v) =>
          v :: match attempt ic r before rest true with
               | Some (S n, v') => v' :: next n
               | _ => next 0
               end
      end
  end.

Definition re_findall (ic : bool) (r : regex) (s : str) : list mval :=
  findall_at ic r [] s 0.

(** A compiled pattern, as far as the extractors use one: its [findall]. *)
Record Pattern := { findall : str -> list mval }.

(** [re.compile] of a pattern of the fragment; [ic] is [re.IGNORECASE]. *)
Definition re_compile (ic : bool) (r : regex) : Pattern :=
  {| findall := re_findall ic r |}.

(** ** Built-ins *)

Section Builtins.

Context {A : Type} `{EqDecision A}.

(** One step of [Counter(iterable)]: a known key is counted in place, a new
    key is entered last. *)
Fixpoint counter_add (x : A) (c : list (A * nat)) : list (A * nat) :=
  match c with
  | [] => [(x, 1)]
  | (y, n) :: c' =>
      if decide (x = y) then (y, S n) :: c' else (y, n) :: counter_add x c'
  end.

(** [Counter(l).items()], in insertion order. *)
Definition Counter (l : list A) : list (A * nat) :=
  fold_left (fun c x => counter_add x c) l [].

(** A stable sort by an integer key: insertion of each element in front
    of the elements that came after it. *)
Fixpoint insert_by (key : A -> nat) (x : A) (l : list A) : list A :=
  match l with
  | [] => [x]
  | y :: l' => if key x <=? key y then x :: l else y :: insert_by key x l'
  end.

Definition stable_sort (key : A -> nat) (l : list A) : list A :=
  fold_right (insert_by key) [] l.

(** [sorted(l, key=key, reverse=reverse)]: with [reverse] the list is
    reversed, sorted and reversed again, as the interpreter does. *)
Definition py_sorted (key : A -> nat) (reverse : bool) (l : list A) : list A :=
  if reverse then rev (stable_sort key (rev l)) else stable_sort key l.

End Builtins.

(** A length as the operand of a division of doubles: the integer itself,
    as mantissa with exponent zero. *)
Definition int_operand (n : nat) : spec_float :=
  match Z.of_nat n with
  | Zpos p => S754_finite false p 0
  | _ => S754_zero false
  end.

(** The division of binary64: 53 bits of mantissa, exponents below 1024,
    rounding to nearest with ties to even. *)
Definition float_div : spec_float -> spec_float -> spec_float :=
  SFdiv 53 1024.

(** [a / b] on two lengths: a double, the quotient of the two integers
    rounded once. *)
Definition true_div (a b : nat) : result spec_float :=
  match b with
  | O => Raise ZeroDivisionError
  | S _ => Ok (float_div (int_operand a) (int_operand b))
  end.

(** ** The generic engine *)

(** A text argument: one string or a list of strings. *)
Inductive str_or_list :=
| OneStr (s : str)
| StrList (l : list str).

(** [if isinstance(x, str): x = [x]] *)
Definition as_list (x : str_or_list) : list str :=
  match x with
  | OneStr s => [s]
  | StrList l => l
  end.

Record Overview := {
  num_posts : nat;
  num_F : nat;
  F_per_post : spec_float;
  unique_F : nat
}.

(** The keys of the summary dictionary, in the order of the literal. *)
Definition summary_keys (key_name : string) : list string :=
  [String.append key_name "s";
   String.append (String.append key_name "s") "_flat";
   String.append key_name "_counts";
   String.append key_name "_freq";
   String.append (String.append "top_" key_name) "s";
   "overview"%string].

(** The summary dictionary for the feature named [key_name]; the fields
    stand for the values under the keys of [summary_keys], which are
    different from one another whatever the name. *)
Record Summary := {
  key_name : string;
  F_s : list (list mval);
  F_s_flat : list mval;
  F_counts : list nat;
  F_freq : list (nat * nat);
  top_F_s : list (mval * nat);
  overview : Overview
}.

(** [extract(text_list, regex, key_name, extracted=None)].  The pattern
    is taken compiled: a pattern given as source text is compiled on
    entry and used in the same way.  The values of the dictionary literal
    are built in order, and the division is the one that can raise. *)
Definition extract (text_list : str_or_list) (regex : Pattern)
    (key_name : string) (extracted : option (list (list mval)))
    : result Summary :=
  let text_list := as_list text_list in
  let extracted :=
    match extracted with
    | Some (x :: xs) => x :: xs
    | _ => map (fun text => findall regex (lower text)) text_list
    end in
  let flat := concat extracted in
  let* per_post := true_div (length flat) (length text_list) in
  Ok {| key_name := key_name;
        F_s := extracted;
        F_s_flat := flat;
        F_counts := map (@length mval) extracted;
        F_freq := py_sorted fst false
                    (Counter (map (@length mval) extracted));
        top_F_s := py_sorted snd true (Counter flat);
        overview :=
          {| num_posts := length text_list;
             num_F := length flat;
             F_per_post := per_post;
             unique_F := size (list_to_set flat : gset mval) |} |}.

(** ** Currency symbols *)

(** Modelled from the spec: the "Unicode currency symbol class" that
    [CURRENCY_RAW] matches; the dollar sign is its one character in
    ASCII. *)
Definition is_currency (c : cp) : bool :=
  if is_ascii c then (c =? 36)%N else ucd_is_Sc ucd c.

(** Modelled from the spec: [CURRENCY_RAW] of [advertools/regex.py], which
    is not part of the sources at hand, is the pattern source that
    "matches single characters in the Unicode currency symbol class". *)
Definition CURRENCY_RAW : regex := Cls (CIn is_currency).

(** Modelled from the spec: [CURRENCY], the compiled [CURRENCY_RAW]. *)
Definition CURRENCY : Pattern := re_compile false CURRENCY_RAW.

(** [name(c).lower()] for the one-character string [c] of a match. *)
Definition char_name (v : mval) : result str :=
  match v with
  | MStr [c] =>
      match ucd_name ucd c with
      | Some n => Ok (lower n)
      | None => Raise ValueError
      end
  | _ => Raise TypeError
  end.

Record CurrencySummary := {
  currency_base : Summary;
  currency_symbol_names : list (list str);
  surrounding_text : list (list mval)
}.

(** [r'.{0,' + str(left_chars) + '}' + CURRENCY_RAW +
     r'.{0,' + str(right_chars) + '}'], for non-negative bounds. *)
Definition surrounding_text_regex (left_chars right_chars : nat) : regex :=
  Seq (Rep CAny 0 (Some left_chars))
      (Seq CURRENCY_RAW (Rep CAny 0 (Some right_chars))).

(** The bound from which on [re.compile] refuses a repetition count
    ([MAXREPEAT] of the pattern engine, on a 64-bit interpreter). *)
Definition MAXREPEAT : N := 4294967295%N.

Definition repeat_too_large (n : nat) : bool :=
  (MAXREPEAT <=? N.of_nat n)%N.

(** [re.compile] of the context-window pattern: a repetition count that
    is too large raises the overflow error. *)
Definition compile_surrounding_text_regex (left_chars right_chars : nat)
    : result Pattern :=
  if repeat_too_large left_chars || repeat_too_large right_chars
  then Raise OverflowError
  else Ok (re_compile false (surrounding_text_regex left_chars right_chars)).

Definition extract_currency (text_list : list str)
    (left_chars right_chars : nat) : result CurrencySummary :=
  let* summary :=
    extract (StrList text_list) CURRENCY "currency_symbol" None in
  let* names := mapM (fun x => mapM char_name x) (F_s summary) in
  let* regex := compile_surrounding_text_regex left_chars right_chars in
  Ok {| currency_base := summary;
        currency_symbol_names := names;
        surrounding_text := map (fun text => findall regex text) text_list |}.

(** ** Emoji *)

(** Modelled from the spec: an entry of the "static lookup table mapping
    each emoji grapheme to {name, group, subgroup}" of
    [advertools/emoji.py], which is not part of the sources at hand. *)
Record EmojiEntry := {
  entry_name : str;
  entry_group : str;
  entry_sub_group : str
}.

(** Modelled from the spec: [EMOJI], the pattern that "matches emoji
    graphemes", through its [findall], and [EMOJI_ENTRIES], the table. *)
Context (EMOJI_findall : str -> list str).
Context (EMOJI_ENTRIES : gmap str EmojiEntry).

(** [EMOJI_ENTRIES[em]] *)
Definition emoji_entry (em : str) : result EmojiEntry :=
  match EMOJI_ENTRIES !! em with
  | Some e => Ok e
  | None => Raise (KeyError em)
  end.

Record EmojiSummary := {
  emoji : list (list str);
  emoji_text : list (list str);
  emoji_flat : list str;
  emoji_flat_text : list str;
  emoji_counts : list nat;
  emoji_freq : list (nat * nat);
  top_emoji : list (str * nat);
  top_emoji_text : list (str * nat);
  top_emoji_groups : list (str * nat);
  top_emoji_sub_groups : list (str * nat);
  emoji_overview : Overview
}.

Definition extract_emoji (text_list : list str) : result EmojiSummary :=
  let emoji := map (fun text => EMOJI_findall (lower text)) text_list in
  let emoji_flat := concat emoji in
  let* emoji_flat_text :=
    mapM (fun em => let* e := emoji_entry em in Ok (entry_name e))
      emoji_flat in
  let* emoji_groups :=
    mapM (fun em => let* e := emoji_entry em in Ok (entry_group e))
      emoji_flat in
  let* emoji_sub_groups :=
    mapM (fun em => let* e := emoji_entry em in Ok (entry_sub_group e))
      emoji_flat in
  let* emoji_text :=
    mapM (mapM (fun em => let* e := emoji_entry em in Ok (entry_name e)))
      emoji in
  let* per_post := true_div (length emoji_flat) (length text_list) in
  Ok {| emoji := emoji;
        emoji_text := emoji_text;
        emoji_flat := emoji_flat;
        emoji_flat_text := emoji_flat_text;
        emoji_counts := map (@length str) emoji;
        emoji_freq := py_sorted fst false
                        (Counter (map (@length str) emoji));
        top_emoji := py_sorted snd true (Counter emoji_flat);
        top_emoji_text := py_sorted snd true (Counter emoji_flat_text);
        top_emoji_groups := py_sorted snd true (Counter emoji_groups);
        top_emoji_sub_groups :=
          py_sorted snd true (Counter emoji_sub_groups);
        emoji_overview :=
          {| num_posts := length text_list;
             num_F := length emoji_flat;
             F_per_post := per_post;
             unique_F := size (list_to_set emoji_flat : gset str) |} |}.

(** ** Intense words *)

(** The pattern formatted from [min_reps]: three groups in a row, a
    greedy run of [\S], one [\S], and [min_reps - 1] copies of [\2]
    followed by a greedy run of [\S]. *)
Definition intense_regex (min_reps : Z) : regex :=
  Seq (Grp 1 (Rep CNonSpace 0 None))
      (Seq (Grp 2 (Cls CNonSpace))
           (Grp 3 (Seq (seq_n (Z.to_nat (min_reps - 1)) (Bref 2))
                       (Rep CNonSpace 0 None)))).

(** [''.join(x)] *)
Definition join (x : mval) : mval :=
  match x with
  | MTup t => MStr (concat t)
  | MStr s => MStr s
  end.

Definition extract_intense_words (text_list : list str) (min_reps : Z)
    : result Summary :=
  let regex := re_compile false (intense_regex min_reps) in
  let extracted :=
    map (fun text => map join (findall regex text)) text_list in
  extract (StrList text_list) regex "intense_word" (Some extracted).

(** ** URLs *)

(** Modelled from the spec: [URL] of [advertools/regex.py], the pattern
    that "matches URL-shaped tokens", through its [findall]. *)
Context (URL_findall : str -> list str).

Definition URL : Pattern := {| findall s := map MStr (URL_findall s) |}.

Definition is_scheme_char (c : cp) : bool :=
  ascii_isalnum c || (c =? 43)%N || (c =? 45)%N || (c =? 46)%N.

(** The text up to the first of [/], [?] and [#]. *)
Fixpoint upto_delim (s : str) : str :=
  match s with
  | [] => []
  | c :: s' =>
      if ((c =? 47) || (c =? 63) || (c =? 35))%N then []
      else c :: upto_delim s'
  end.

Definition contains (c : cp) (s : str) : bool := existsb (N.eqb c) s.

(** [urlparse(url).netloc], after [urlsplit] of CPython 3.7: a scheme is
    split off at the first colon when all before it are scheme characters,
    and a network location follows a double slash.  (The check of
    [urlsplit] that keeps a port number from being read as a path makes
    no difference to the network location: digits do not begin with a
    double slash.) *)
Definition netloc (url : str) : result str :=
  let rest :=
    match find_char 58%N url with
    | Some (S i) =>
        if forallb is_scheme_char (firstn (S i) url)
        then skipn (S (S i)) url else url
    | _ => url
    end in
  if startswith (s2l "//") rest then
    let loc := upto_delim (skipn 2 rest) in
    if (contains 91%N loc && negb (contains 93%N loc))
       || (contains 93%N loc && negb (contains 91%N loc))
    then Raise ValueError
    else Ok loc
  else Ok [].

(** The rewriting done in place on every matched token. *)
Definition add_scheme (url : str) : str :=
  if startswith (s2l "www") (lower url) || startswith (s2l "ftp") (lower url)
  then s2l "http://" ++ url
  else url.

Record UrlSummary := {
  url_base : Summary;
  top_domains : list (str * nat);
  top_tlds : list (str * nat)
}.

Definition extract_urls (text_list : list str) : result UrlSummary :=
  let extracted := map (fun x => map add_scheme (URL_findall x)) text_list in
  let* domains := mapM (mapM netloc) extracted in
  let domains_flat := concat domains in
  let top_domains := py_sorted snd true (Counter domains_flat) in
  let tlds := map (map (fun d => List.last (split_on 46%N d) [])) domains in
  let tlds_flat := concat tlds in
  let top_tlds := py_sorted snd true (Counter tlds_flat) in
  let* summary :=
    extract (StrList text_list) URL "url"
      (Some (map (map MStr) extracted)) in
  Ok {| url_base := summary;
        top_domains := top_domains;
        top_tlds := top_tlds |}.

(** ** Words *)

(** ['|'.join(regex)] *)
Fixpoint alt_join (l : list regex) : regex :=
  match l with
  | [] => Eps
  | [r] => r
  | r :: l' => Alt r (alt_join l')
  end.

(** The words to extract are plain words: the pattern source [x] stands
    for the literal text [x]. *)
Definition extract_words (text_list : list str)
    (words_to_extract : str_or_list) (entire_words_only : bool)
    : result Summary :=
  let words_to_extract := as_list words_to_extract in
  let text_list := map lower text_list in
  let words_to_extract := map lower words_to_extract in
  let word_regex :=
    if entire_words_only then
      let regex := map (fun x => Seq Bnd (Seq (lit x) Bnd))
                     words_to_extract in
      re_compile true (alt_join regex)
    else
      let regex := map (fun x => Seq (Rep CNonSpace 0 None)
                                   (Seq (lit x) (Rep CNonSpace 0 None)))
                     words_to_extract in
      re_compile true (alt_join regex) in
  extract (StrList text_list) word_regex "word" None.

(** ** Hashtags and mentions *)

(** Modelled from the spec: [HASHTAG] and [MENTION] of
    [advertools/regex.py], the compiled patterns of the two features. *)
Context (HASHTAG MENTION : Pattern).

Definition extract_hashtags (text_list : str_or_list) : result Summary :=
  extract text_list HASHTAG "hashtag" None.

Definition extract_mentions (text_list : str_or_list) : result Summary :=
  extract text_list MENTION "mention" None.

(** ** Exclamations and questions *)

(** Modelled from the spec: the compiled patterns of
    [advertools/regex.py] for the marks and for the clause that ends in a
    mark. *)
Context (EXCLAMATION_MARK EXCLAMATION QUESTION_MARK QUESTION : Pattern).

Record ExclamationSummary := {
  exclamation_base : Summary;
  exclamation_mark_names : list (list str);
  exclamation_text : list (list mval)
}.

Definition extract_exclamations (text_list : list str)
    : result ExclamationSummary :=
  let* summary :=
    extract (StrList text_list) EXCLAMATION_MARK "exclamation_mark" None in
  let* names := mapM (fun x => mapM char_name x) (F_s summary) in
  Ok {| exclamation_base := summary;
        exclamation_mark_names := names;
        exclamation_text :=
          map (fun text => findall EXCLAMATION text) text_list |}.

Record QuestionSummary := {
  question_base : Summary;
  question_mark_names : list (list str);
  question_text : list (list mval)
}.

Definition extract_questions (text_list : list str)
    : result QuestionSummary :=
  let* summary :=
    extract (StrList text_list) QUESTION_MARK "question_mark" None in
  let* names := mapM (fun x => mapM char_name x) (F_s summary) in
  Ok {| question_base := summary;
        question_mark_names := names;
        question_text := map (fun text => findall QUESTION text) text_list |}.

End Engine.

(** ** Vocabulary of the properties *)

Section Vocabulary.

Context {A : Type} `{EqDecision A}.

(** The number of occurrences of [v] in [l]. *)
Fixpoint occ (v : A) (l : list A) : nat :=
  match l with
  | [] => 0
  | x :: l' => (if decide (v = x) then 1 else 0) + occ v l'
  end.

(** The position of the first occurrence of [v] in [l]; the length of
    [l] when there is none. *)
Fixpoint first_index (v : A) (l : list A) : nat :=
  match l with
  | [] => 0
  | x :: l' => if decide (v = x) then 0 else S (first_index v l')
  end.

(** Descending frequency, and among equal frequencies the earlier first
    occurrence in [flat]. *)
Definition ranks_before (flat : list A) (a b : A * nat) : Prop :=
  snd b < snd a \/
  (snd a = snd b /\ first_index (fst a) flat < first_index (fst b) flat).

(** Ascending by key and, among equal keys, in the order [T] the input
    was in. *)
Definition key_then (key : A -> nat) (T : A -> A -> Prop) (a b : A) : Prop :=
  key a < key b \/ (key a = key b /\ T a b).

End Vocabulary.

(** The per-record matches the engine summarises: the precomputed ones
    when the list given is not empty, else those of the pattern on the
    lower-cased records. *)
Definition matches_used (ucd : UCD) (text_list : str_or_list)
    (regex : Pattern) (extracted : option (list (list mval)))
    : list (list mval) :=
  match extracted with
  | Some (x :: xs) => x :: xs
  | _ => map (fun text => findall regex (lower ucd text)) (as_list text_list)
  end.

(** [s] begins with [n] copies of [c]. *)
Fixpoint starts_with_copies (c : cp) (n : nat) (s : str) : bool :=
  match n with
  | O => true
  | S n' =>
      match s with
      | x :: s' => (x =? c)%N && starts_with_copies c n' s'
      | [] => false
      end
  end.

(** Somewhere in [s] a character stands [n] times in a row ([1 <= n]). *)
Fixpoint has_run (n : nat) (s : str) : bool :=
  match s with
  | [] => false
  | c :: s' => starts_with_copies c (n - 1) s' || has_run n s'
  end.

(** The tokens of a text, as [text.split()] gives them: the maximal runs
    of non-space characters, in order. *)
Fixpoint tokens (ucd : UCD) (s : str) : list str :=
  match s with
  | [] => []
  | c :: s' =>
      if isspace ucd c then tokens ucd s'
      else
        match s' with
        | [] => [[c]]
        | c' :: _ =>
            if isspace ucd c' then [c] :: tokens ucd s'
            else match tokens ucd s' with
                 | t :: ts => (c :: t) :: ts
                 | [] => [[c]]
                 end
        end
  end.

(** The text ahead is at a token boundary: at its end or at a space. *)
Definition at_gap (ucd : UCD) (s : str) : Prop :=
  match s with
  | [] => True
  | c :: _ => isspace ucd c = true
  end.

(** A run of non-space characters. *)
Definition nonspace_run (ucd : UCD) (s : str) : Prop :=
  Forall (fun c => class_test ucd CNonSpace c = true) s.

(** The summary [extract] builds once the division went through. *)
Definition summary_of (ucd : UCD) (text_list : str_or_list) (regex : Pattern)
    (key : string) (extracted : option (list (list mval)))
    (per_post : spec_float)
    : Summary :=
  let m := matches_used ucd text_list regex extracted in
  {| key_name := key;
     F_s := m;
     F_s_flat := concat m;
     F_counts := map (@length mval) m;
     F_freq := py_sorted fst false (Counter (map (@length mval) m));
     top_F_s := py_sorted snd true (Counter (concat m));
     overview :=
       {| num_posts := length (as_list text_list);
          num_F := length (concat m);
          F_per_post := per_post;
          unique_F := size (list_to_set (concat m) : gset mval) |} |}.

Ltac summary_simpl :=
  unfold summary_of; cbv zeta;
  cbn [key_name F_s F_s_flat F_counts F_freq top_F_s overview
       num_posts num_F F_per_post unique_F].

(** A database for closed examples: beyond ASCII it knows the currency
    symbols of Latin-1 (U+00A2 to U+00A5) and of the block U+20A0 to
    U+20BF, all caseless, and nothing else. *)
Definition sample_ucd : UCD :=
  {| ucd_tolower c := [c];
     ucd_final_sigma _ _ := false;
     ucd_isalnum _ := false;
     ucd_isspace _ := false;
     ucd_ieq a b := (a =? b)%N;
     ucd_name c := Some (s2l "SIGN");
     ucd_is_Sc c := (((162 <=? c) && (c <=? 165))
                     || ((8352 <=? c) && (c <=? 8383)))%N |}.

(** The posts of the docstrings of [extract_currency], [extract_words]
    and [extract_urls]. *)
Definition currency_posts : list str :=
  [s2l "today " ++ [8383%N] ++ s2l "1 is around $4k";
   s2l "and " ++ [8383%N] ++ s2l " in " ++ [163%N] ++ s2l " & "
     ++ [8364%N] ++ s2l "?";
   s2l "no idea"].

Definition word_posts : list str :=
  [s2l "there is rain, it is raining"; s2l "there is snow and rain";
   s2l "there is no rain, it is snowing"; s2l "there is nothing"].

Definition url_posts : list str :=
  [s2l "one link http://example.com"; s2l "two: http://a.com www.b.com";
   s2l "no links here";
   s2l "long url http://example.com/one/two/?1=one&2=two"].

(** A pattern for closed examples of URL extraction: a run of non-space
    characters after [http://] or [www.]. *)
Definition sample_URL_findall (s : str) : list str :=
  flat_map (fun v => match v with MStr u => [u] | MTup _ => [] end)
    (re_findall sample_ucd false
       (Alt (Seq (lit (s2l "http://")) (Rep CNonSpace 1 None))
            (Seq (lit (s2l "www.")) (Rep CNonSpace 1 None))) s).

(** Records, a pattern ([#] and a run of word characters) and matches
    for closed examples. *)
Definition sample_posts : list str :=
  [s2l "i like #blue"; s2l "i like #green and #blue"; s2l "i like all"].

Definition sample_tag : Pattern :=
  re_compile sample_ucd false (Seq (Lit 35%N) (Rep CWord 1 None)).

Definition sample_matches : list (list mval) :=
  [[MStr (s2l "#blue")]; [MStr (s2l "#green"); MStr (s2l "#blue")]; []].

(** A grapheme pattern and a table for closed examples: every code point
    from U+1F600 on is matched, and the table has the first alone. *)
Definition sample_EMOJI_findall (s : str) : list str :=
  map (fun c => [c]) (List.filter (fun c => (128512 <=? c)%N) s).

Definition sample_EMOJI_ENTRIES : gmap str EmojiEntry :=
  {[ [128512%N] := {| entry_name := s2l "grinning face";
                      entry_group := s2l "Smileys & Emotion";
                      entry_sub_group := s2l "face-smiling" |} ]}.

(** [r] is the ranking of the values of [flat]: each distinct value once,
    with its number of occurrences in [flat], by descending number and,
    among equal numbers, by first occurrence in [flat]. *)
Definition ranking_of {A : Type} `{EqDecision A} (flat : list A)
    (r : list (A * nat)) : Prop :=
  StronglySorted (ranks_before flat) r /\
  (forall v f, In (v, f) r <-> f = occ v flat /\ In v flat) /\
  List.NoDup (map fst r).


(** ** Vocabulary of the further properties *)

(** The field [proj] of the entry of a grapheme: [EMOJI_ENTRIES[em].proj]. *)
Definition entry_field (EMOJI_ENTRIES : gmap str EmojiEntry)
    (proj : EmojiEntry -> str) (em : str) : result str :=
  let* e := emoji_entry EMOJI_ENTRIES em in Ok (proj e).

(** The graphemes matched in a list of records, in order. *)
Definition emoji_matched (ucd : UCD) (EMOJI_findall : str -> list str)
    (text_list : list str) : list str :=
  concat (map (fun text => EMOJI_findall (lower ucd text)) text_list).

(** The pattern [EMOJI] as [extract] takes one: through its [findall]. *)
Definition EMOJI_pattern (EMOJI_findall : str -> list str) : Pattern :=
  {| findall s := map MStr (EMOJI_findall s) |}.

(** Every grapheme of a list has an entry in the table. *)
Definition all_known (EMOJI_ENTRIES : gmap str EmojiEntry) (l : list str)
    : Prop :=
  Forall (fun em => EMOJI_ENTRIES !! em <> None) l.

(** The top-level domain of a host: [d.split('.')[-1]]. *)
Definition tld (d : str) : str := List.last (split_on 46%N d) [].

(** A reported value is a string with a run of [n]. *)
Definition mval_has_run (n : nat) (v : mval) : bool :=
  match v with
  | MStr s => has_run n s
  | MTup _ => false
  end.

(** The characters that stand for something else than themselves in a
    pattern source. *)
Definition regex_special (c : cp) : bool :=
  existsb (N.eqb c) (s2l ".^$*+?{}[]\|()").

(** A plain word: its text is its own pattern source. *)
Definition plain_word (w : str) : Prop :=
  Forall (fun c => regex_special c = false) w.

(** [w] stands in [s] as a contiguous piece. *)
Definition is_piece (w s : str) : Prop := exists l r, s = l ++ w ++ r.

(** [p] is the word [x] letter by letter, case ignored. *)
Definition same_letters (ucd : UCD) (x p : str) : Prop :=
  Forall2 (fun a b => char_eq ucd true a b = true) x p.

(** [w] is what the pattern built for the word [x] can match: the word,
    and without the restriction to whole words the non-space characters
    around it. *)
Definition word_match (ucd : UCD) (entire_words_only : bool) (x w : str)
    : Prop :=
  exists pre p post,
    w = pre ++ p ++ post /\ same_letters ucd x p /\
    nonspace_run ucd pre /\ nonspace_run ucd post /\
    (entire_words_only = true -> pre = [] /\ post = []).

(** A text of ASCII characters. *)
Definition ascii_text (s : str) : Prop := Forall (fun c => is_ascii c = true) s.

(** The currency symbols of a text, in order. *)
Definition currency_chars (ucd : UCD) (s : str) : list cp :=
  List.filter (is_currency ucd) s.

(** Somewhere in the lower-cased records stands a currency symbol without
    a name. *)
Definition unnamed_symbol (ucd : UCD) (text_list : list str) : Prop :=
  exists text c,
    In text text_list /\ In c (currency_chars ucd (lower ucd text)) /\
    ucd_name ucd c = None.

(** No context window begins at the head of [rest]: no currency symbol
    stands within [left_chars] characters of the line from there. *)
Definition no_window_at (ucd : UCD) (left_chars : nat) (rest : str) : Prop :=
  forall l c rest',
    rest = l ++ c :: rest' -> length l <= left_chars -> ~ In 10%N l ->
    is_currency ucd c = false.

(** [l ++ c :: r] is the context window at the head of [l ++ c :: r ++
    post]: at most [left_chars] characters of the line up to the last
    currency symbol [c] within reach, and then as many characters of the
    line as there are, up to [right_chars]. *)
Definition window_at (ucd : UCD) (left_chars right_chars : nat)
    (l : str) (c : cp) (r post : str) : Prop :=
  is_currency ucd c = true /\
  length l <= left_chars /\ length r <= right_chars /\
  ~ In 10%N l /\ ~ In 10%N r /\
  (forall l2 c2 rest2,
     l ++ c :: r ++ post = l2 ++ c2 :: rest2 ->
     length l < length l2 <= left_chars -> ~ In 10%N l2 ->
     is_currency ucd c2 = false) /\
  (length r = right_chars \/ post = [] \/ exists post', post = 10%N :: post').

(** [ws] are the context windows of [text], from left to right: each
    begins at the first place after the window before it where a window
    can begin, so that it is shorter on the left than [left_chars] only
    at the start of the text, after the window before it or after a line
    feed; and after the last window no currency symbol is left. *)
Fixpoint windows_of (ucd : UCD) (left_chars right_chars : nat)
    (ws : list str) (text : str) : Prop :=
  match ws with
  | [] => currency_chars ucd text = []
  | w :: ws' =>
      exists gap l c r post,
        text = gap ++ l ++ c :: r ++ post /\
        w = l ++ c :: r /\
        (forall pre x rest,
           gap = pre ++ x :: rest ->
           no_window_at ucd left_chars (x :: rest ++ l ++ c :: r ++ post)) /\
        (gap = [] \/ (exists gap', gap = gap' ++ [10%N]) \/
         length l = left_chars) /\
        window_at ucd left_chars right_chars l c r post /\
        windows_of ucd left_chars right_chars ws' post
  end.

(** Records and patterns for closed examples of the emoji and of the
    marks: the exclamation mark, and a run of other characters closed by
    one. *)
Definition emoji_posts : list str :=
  [s2l "hi " ++ [128512%N]; s2l "none"; [128512%N; 128512%N]].

Definition mark_posts : list str := [s2l "Wow! that is great"; s2l "no marks"].

Definition sample_mark : Pattern := re_compile sample_ucd false (Lit 33%N).

Definition sample_clause : Pattern :=
  re_compile sample_ucd false
    (Seq (Rep (CIn (fun c => negb (c =? 33)%N)) 1 None) (Lit 33%N)).

(** ** Checks against the docstrings *)

Example findall_empty_matches :
  re_findall sample_ucd false (Rep (CIn (N.eqb 97)) 0 None) (s2l "baac")
  = [MStr []; MStr (s2l "aa"); MStr []; MStr []].
Proof. reflexivity. Qed.

Example Counter_first_seen :
  Counter [2; 1; 2; 3; 1] = [(2, 2); (1, 2); (3, 1)].
Proof. reflexivity. Qed.

Example py_sorted_reverse_stable :
  py_sorted snd true [(10, 1); (11, 2); (12, 1); (13, 2)]
  = [(11, 2); (13, 2); (10, 1); (12, 1)].
Proof. reflexivity. Qed.

Example tokens_split :
  tokens sample_ucd (s2l " soooo  soo ") = [s2l "soooo"; s2l "soo"].
Proof. reflexivity. Qed.

(** [extract_hashtags], with [sample_tag] standing for [HASHTAG]. *)
Example hashtags_docstring :
  field_of (fun s => (F_s s, F_s_flat s, F_counts s, F_freq s, top_F_s s,
                      num_posts (overview s), num_F (overview s),
                      unique_F (overview s)))
    (extract sample_ucd (StrList sample_posts) sample_tag "hashtag" None)
  = Some (sample_matches,
          [MStr (s2l "#blue"); MStr (s2l "#green"); MStr (s2l "#blue")],
          [1; 2; 0],
          [(0, 1); (1, 1); (2, 1)],
          [(MStr (s2l "#blue"), 2); (MStr (s2l "#green"), 1)],
          3, 3, 2).
Proof. vm_compute. reflexivity. Qed.

Example currency_docstring :
  field_of (fun s => (F_s (currency_base s), F_counts (currency_base s),
                      F_freq (currency_base s), top_F_s (currency_base s)))
    (extract_currency sample_ucd currency_posts 20 20)
  = Some ([[MStr [8383%N]; MStr (s2l "$")];
           [MStr [8383%N]; MStr [163%N]; MStr [8364%N]]; []],
          [2; 3; 0],
          [(0, 1); (2, 1); (3, 1)],
          [(MStr [8383%N], 2); (MStr (s2l "$"), 1); (MStr [163%N], 1);
           (MStr [8364%N], 1)]).
Proof. vm_compute. reflexivity. Qed.

(** The overview of the docstring: 1.6666666666666667 is the double
    7505999378950827 by 2 to the 52. *)
Example currency_docstring_overview :
  field_of (fun s => overview (currency_base s))
    (extract_currency sample_ucd currency_posts 20 20)
  = Some {| num_posts := 3;
            num_F := 5;
            F_per_post := S754_finite false 7505999378950827 (-52);
            unique_F := 4 |}.
Proof. vm_compute. reflexivity. Qed.

Example currency_docstring_window_20 :
  field_of surrounding_text (extract_currency sample_ucd currency_posts 20 20)
  = Some [[MStr (s2l "today " ++ [8383%N] ++ s2l "1 is around $4k")];
          [MStr (s2l "and " ++ [8383%N] ++ s2l " in " ++ [163%N]
                 ++ s2l " & " ++ [8364%N] ++ s2l "?")];
          []].
Proof. vm_compute. reflexivity. Qed.

Example currency_docstring_window_5 :
  field_of surrounding_text (extract_currency sample_ucd currency_posts 5 5)
  = Some [[MStr (s2l "oday " ++ [8383%N] ++ s2l "1 is ");
           MStr (s2l "ound $4k")];
          [MStr (s2l "and " ++ [8383%N] ++ s2l " in " ++ [163%N]);
           MStr (s2l " & " ++ [8364%N] ++ s2l "?")];
          []].
Proof. vm_compute. reflexivity. Qed.

Example currency_docstring_window_0_3 :
  field_of surrounding_text (extract_currency sample_ucd currency_posts 0 3)
  = Some [[MStr ([8383%N] ++ s2l "1 i"); MStr (s2l "$4k")];
          [MStr ([8383%N] ++ s2l " in"); MStr ([163%N] ++ s2l " & ");
           MStr ([8364%N] ++ s2l "?")];
          []].
Proof. vm_compute. reflexivity. Qed.

Example words_docstring_entire :
  field_of (fun s => (F_s s, F_s_flat s, F_counts s, F_freq s, top_F_s s))
    (extract_words sample_ucd word_posts
       (StrList [s2l "rain"; s2l "snow"]) true)
  = Some ([[MStr (s2l "rain")]; [MStr (s2l "snow"); MStr (s2l "rain")];
           [MStr (s2l "rain")]; []],
          [MStr (s2l "rain"); MStr (s2l "snow"); MStr (s2l "rain");
           MStr (s2l "rain")],
          [1; 2; 1; 0],
          [(0, 1); (1, 2); (2, 1)],
          [(MStr (s2l "rain"), 3); (MStr (s2l "snow"), 1)]).
Proof. vm_compute. reflexivity. Qed.

(** [extract_urls], with [sample_URL_findall] standing for [URL]. *)
Example urls_docstring :
  field_of (fun s => (F_s (url_base s), F_counts (url_base s),
                      top_domains s, top_tlds s))
    (extract_urls sample_ucd sample_URL_findall url_posts)
  = Some ([[MStr (s2l "http://example.com")];
           [MStr (s2l "http://a.com"); MStr (s2l "http://www.b.com")];
           [];
           [MStr (s2l "http://example.com/one/two/?1=one&2=two")]],
          [1; 2; 0; 1],
          [(s2l "example.com", 2); (s2l "a.com", 1); (s2l "www.b.com", 1)],
          [(s2l "com", 4)]).
Proof. vm_compute. reflexivity. Qed.

(** ** Facts about the built-ins *)

Section StronglySortedFacts.

Context {A : Type}.

Lemma StronglySorted_weaken (R R' : A -> A -> Prop) (l : list A) :
  (forall a b, In a l -> In b l -> R a b -> R' a b) ->
  StronglySorted R l -> StronglySorted R' l.
Proof.
  intros Himp Hs. induction Hs as [|a l Hs IH Hall]; constructor.
  - apply IH. intros x y Hx Hy Hxy.
    apply Himp; [now right | now right | exact Hxy].
  - rewrite List.Forall_forall in *. intros y Hy.
    apply Himp; [now left | now right | now apply Hall].
Qed.

Lemma StronglySorted_snoc (R : A -> A -> Prop) (l : list A) (y : A) :
  StronglySorted R l -> Forall (fun a => R a y) l ->
  StronglySorted R (l ++ [y]).
Proof.
  intros Hs. induction Hs as [|a l Hs IH Hall]; intros Hy; simpl.
  - constructor; constructor.
  - inversion Hy; subst. constructor; [now apply IH|].
    apply Forall_app. split; [assumption | now constructor].
Qed.

Lemma StronglySorted_rev (R : A -> A -> Prop) (l : list A) :
  StronglySorted R l -> StronglySorted (fun a b => R b a) (rev l).
Proof.
  intros Hs. induction Hs as [|a l Hs IH Hall]; simpl.
  - constructor.
  - apply StronglySorted_snoc; [assumption|].
    rewrite List.Forall_forall in *. intros x Hx. apply Hall.
    now apply in_rev.
Qed.

Lemma StronglySorted_map {B : Type} (f : B -> A) (R : A -> A -> Prop)
    (l : list B) :
  StronglySorted R (map f l) <->
  StronglySorted (fun a b => R (f a) (f b)) l.
Proof.
  induction l as [|x l IH]; simpl.
  - split; constructor.
  - split; intros Hs; inversion Hs; subst; constructor;
      try (now apply IH); rewrite List.Forall_forall in *.
    + intros y Hy. match goal with H : forall _, In _ (map f l) -> _ |- _ =>
        apply H end. now apply in_map.
    + intros y Hy. apply in_map_iff in Hy as (z & <- & Hz).
      match goal with H : forall _, In _ l -> _ |- _ => now apply H end.
Qed.

Lemma StronglySorted_nth (R : A -> A -> Prop) (l : list A) :
  StronglySorted R l ->
  forall i j a b, nth_error l i = Some a -> nth_error l j = Some b ->
    i < j -> R a b.
Proof.
  intros Hs. induction Hs as [|x l Hs IH Hall]; intros i j a b Hi Hj Hlt.
  - destruct i; discriminate.
  - destruct j as [|j]; [lia|]. simpl in Hj. destruct i as [|i].
    + simpl in Hi. injection Hi as ->.
      rewrite List.Forall_forall in Hall. apply Hall.
      eapply nth_error_In; eassumption.
    + simpl in Hi. eapply IH; eauto. lia.
Qed.

End StronglySortedFacts.

Section BuiltinFacts.

Context {A : Type} `{EqDecision A}.

Lemma occ_app (v : A) (l1 l2 : list A) :
  occ v (l1 ++ l2) = occ v l1 + occ v l2.
Proof. induction l1 as [|x l1 IH]; simpl; [reflexivity | lia]. Qed.

Lemma occ_In (v : A) (l : list A) : In v l <-> 0 < occ v l.
Proof.
  induction l as [|x l IH]; simpl.
  - split; [tauto | lia].
  - destruct (decide (v = x)) as [->|Hne].
    + split; [lia | now left].
    + rewrite <- IH. split; [intros [Heq|Hin]; [congruence | assumption]
                             | now right].
Qed.

Lemma first_index_lt (v : A) (l : list A) :
  In v l <-> first_index v l < length l.
Proof.
  induction l as [|x l IH]; simpl.
  - split; [tauto | lia].
  - destruct (decide (v = x)) as [->|Hne].
    + split; [lia | now left].
    + split.
      * intros [Heq|Hin]; [congruence|]. apply IH in Hin. lia.
      * intros Hlt. right. apply IH. lia.
Qed.

Lemma first_index_app_in (v : A) (l1 l2 : list A) :
  In v l1 -> first_index v (l1 ++ l2) = first_index v l1.
Proof.
  induction l1 as [|x l1 IH]; simpl; [tauto|].
  intros Hin. destruct (decide (v = x)) as [->|Hne]; [reflexivity|].
  destruct Hin as [Heq|Hin]; [congruence|]. now rewrite IH.
Qed.

Lemma first_index_app_notin (v : A) (l1 l2 : list A) :
  ~ In v l1 -> first_index v (l1 ++ l2) = length l1 + first_index v l2.
Proof.
  induction l1 as [|x l1 IH]; simpl; [reflexivity|].
  intros Hnin. destruct (decide (v = x)) as [->|Hne].
  - exfalso. apply Hnin. now left.
  - rewrite IH; [reflexivity|]. intros Hin. apply Hnin. now right.
Qed.

(** *** The counter *)

Lemma Counter_snoc (l : list A) (x : A) :
  Counter (l ++ [x]) = counter_add x (Counter l).
Proof. unfold Counter. now rewrite fold_left_app. Qed.

Lemma counter_add_sum (x : A) (c : list (A * nat)) :
  list_sum (map snd (counter_add x c)) = S (list_sum (map snd c)).
Proof.
  induction c as [|[y n] c IH]; simpl; [reflexivity|].
  destruct (decide (x = y)); simpl; [reflexivity|]. rewrite IH. lia.
Qed.

Lemma Counter_sum (l : list A) :
  list_sum (map snd (Counter l)) = length l.
Proof.
  induction l as [|x l IH] using rev_ind; [reflexivity|].
  rewrite Counter_snoc, counter_add_sum, IH, length_app. simpl. lia.
Qed.

Lemma counter_add_new (x : A) (c : list (A * nat)) :
  ~ In x (map fst c) -> counter_add x c = c ++ [(x, 1)].
Proof.
  induction c as [|[y n] c IH]; simpl; [reflexivity|].
  intros Hnin. destruct (decide (x = y)) as [->|Hne].
  - exfalso. apply Hnin. now left.
  - rewrite IH; [reflexivity|]. intros Hin. apply Hnin. now right.
Qed.

Lemma counter_add_keys (x : A) (c : list (A * nat)) :
  In x (map fst c) -> map fst (counter_add x c) = map fst c.
Proof.
  induction c as [|[y n] c IH]; simpl; [tauto|].
  intros Hin. destruct (decide (x = y)) as [->|Hne]; simpl; [reflexivity|].
  destruct Hin as [Heq|Hin]; [congruence|]. now rewrite IH.
Qed.

Lemma counter_add_In (x : A) (c : list (A * nat)) (v : A) (n : nat) :
  List.NoDup (map fst c) -> In (v, n) (counter_add x c) ->
  (v <> x /\ In (v, n) c) \/
  (v = x /\ ((exists m, n = S m /\ In (x, m) c)
             \/ (n = 1 /\ ~ In x (map fst c)))).
Proof.
  induction c as [|[y m] c IH]; simpl; intros Hnd Hin.
  - destruct Hin as [Heq|[]]. injection Heq as <- <-.
    right. split; [reflexivity|]. right. tauto.
  - inversion Hnd as [|? ? Hy Hnd']; subst.
    destruct (decide (x = y)) as [->|Hne].
    + destruct Hin as [Heq|Hin].
      * injection Heq as <- <-. right. split; [reflexivity|].
        left. exists m. split; [reflexivity | now left].
      * left. split; [|now right]. intros ->. apply Hy.
        change y with (fst (y, n)). now apply in_map.
    + destruct Hin as [Heq|Hin].
      * injection Heq as <- <-. left. split; [congruence | now left].
      * destruct (IH Hnd' Hin) as [[Hvx Hc]|[-> Hc]].
        -- left. split; [assumption | now right].
        -- right. split; [reflexivity|].
           destruct Hc as [(k & -> & Hk)|[-> Hk]].
           ++ left. exists k. split; [reflexivity | now right].
           ++ right. split; [reflexivity|]. intros [Heq|Hin']; [congruence|].
              now apply Hk.
Qed.

(** The items of a counter: one per distinct element, in the order of the
    first occurrences, each with its number of occurrences. *)
Lemma Counter_spec (l : list A) :
  List.NoDup (map fst (Counter l)) /\
  (forall v, In v (map fst (Counter l)) <-> In v l) /\
  (forall v n, In (v, n) (Counter l) -> n = occ v l) /\
  StronglySorted (fun a b => first_index a l < first_index b l)
    (map fst (Counter l)).
Proof.
  induction l as [|x l IH] using rev_ind.
  - cbn. repeat split; try constructor; try tauto.
  - destruct IH as (Hnd & Hkeys & Hval & Hord). rewrite Counter_snoc.
    assert (Hmono : StronglySorted
              (fun a b => first_index a (l ++ [x]) < first_index b (l ++ [x]))
              (map fst (Counter l))).
    { eapply StronglySorted_weaken; [|exact Hord].
      intros a b Ha Hb Hab. apply Hkeys in Ha, Hb.
      now rewrite !first_index_app_in. }
    destruct (in_dec (fun a b => decide (a = b)) x (map fst (Counter l)))
      as [Hin|Hnin].
    + rewrite (counter_add_keys _ _ Hin). repeat split; try assumption.
      * intros Hv. apply in_or_app. left. now apply Hkeys.
      * intros Hv. apply in_app_or in Hv as [Hv|[<-|[]]];
          [now apply Hkeys | assumption].
      * intros v n Hvn. rewrite occ_app. simpl.
        apply counter_add_In in Hvn as [[Hvx Hc]|[-> Hc]]; [| |assumption].
        -- apply Hval in Hc. destruct (decide (v = x)); [congruence | lia].
        -- destruct (decide (x = x)); [|congruence].
           destruct Hc as [(m & -> & Hm)|[_ Hk]]; [|contradiction].
           apply Hval in Hm. lia.
    + assert (Hxl : ~ In x l) by (intros Hx; now apply Hnin, Hkeys).
      rewrite (counter_add_new _ _ Hnin), map_app. simpl.
      repeat split.
      * apply List.NoDup_app; [assumption | repeat constructor; simpl; tauto |].
        intros y Hy [<-|[]]. contradiction.
      * intros Hv. apply in_app_or in Hv as [Hv|[<-|[]]].
        -- apply in_or_app. left. now apply Hkeys.
        -- apply in_or_app. right. now left.
      * intros Hv. apply in_app_or in Hv as [Hv|[<-|[]]].
        -- apply in_or_app. left. now apply Hkeys.
        -- apply in_or_app. right. now left.
      * intros v n Hvn. rewrite occ_app. simpl.
        apply in_app_or in Hvn as [Hvn|[Heq|[]]].
        -- assert (Hvl : In v l).
           { apply Hkeys. change v with (fst (v, n)). now apply in_map. }
           apply Hval in Hvn. destruct (decide (v = x)); [congruence | lia].
        -- injection Heq as <- <-. destruct (decide (x = x)); [|congruence].
           assert (occ x l = 0); [|lia].
           destruct (occ x l) eqn:E; [reflexivity|].
           exfalso. apply Hxl, occ_In. lia.
      * apply StronglySorted_snoc; [assumption|].
        rewrite List.Forall_forall. intros y Hy. apply Hkeys in Hy.
        rewrite first_index_app_in by assumption.
        rewrite first_index_app_notin by assumption. simpl.
        destruct (decide (x = x)); [|congruence].
        apply first_index_lt in Hy. lia.
Qed.

(** *** The sort *)

Lemma insert_by_perm (key : A -> nat) (x : A) (l : list A) :
  Permutation (insert_by key x l) (x :: l).
Proof.
  induction l as [|y l IH]; simpl; [reflexivity|].
  destruct (key x <=? key y); [reflexivity|].
  rewrite IH. apply perm_swap.
Qed.

Lemma stable_sort_perm (key : A -> nat) (l : list A) :
  Permutation (stable_sort key l) l.
Proof.
  induction l as [|x l IH]; simpl; [reflexivity|].
  rewrite insert_by_perm. now constructor.
Qed.

Lemma py_sorted_perm (key : A -> nat) (reverse : bool) (l : list A) :
  Permutation (py_sorted key reverse l) l.
Proof.
  unfold py_sorted. destruct reverse; [|apply stable_sort_perm].
  rewrite <- Permutation_rev, stable_sort_perm. symmetry.
  apply Permutation_rev.
Qed.

Lemma insert_by_sorted (key : A -> nat) (T : A -> A -> Prop) (x : A)
    (l : list A) :
  StronglySorted (key_then key T) l -> Forall (T x) l ->
  StronglySorted (key_then key T) (insert_by key x l).
Proof.
  intros Hs. induction Hs as [|y l Hs IH Hall]; intros HT; simpl.
  - constructor; constructor.
  - inversion HT as [|? ? HTy HTl]; subst.
    destruct (key x <=? key y) eqn:E.
    + apply Nat.leb_le in E. constructor; [now constructor|].
      constructor.
      * unfold key_then. destruct (Nat.eq_dec (key x) (key y)); [|lia].
        right. split; assumption.
      * rewrite List.Forall_forall in *. intros z Hz.
        specialize (Hall z Hz). specialize (HTl z Hz).
        unfold key_then in *. destruct (Nat.eq_dec (key x) (key z)); [|lia].
        right. split; assumption.
    + apply Nat.leb_gt in E. constructor; [now apply IH|].
      rewrite List.Forall_forall in *. intros z Hz.
      apply (Permutation_in _ (insert_by_perm key x l)) in Hz.
      destruct Hz as [<-|Hz]; [|now apply Hall].
      left. assumption.
Qed.

Lemma stable_sort_sorted (key : A -> nat) (T : A -> A -> Prop) (l : list A) :
  StronglySorted T l -> StronglySorted (key_then key T) (stable_sort key l).
Proof.
  intros Hs. induction Hs as [|x l Hs IH Hall]; simpl; [constructor|].
  apply insert_by_sorted; [assumption|].
  rewrite List.Forall_forall in *. intros y Hy. apply Hall.
  eapply Permutation_in; [apply stable_sort_perm | exact Hy].
Qed.

(** A descending sort keeps, among equal keys, the order of the input. *)
Lemma py_sorted_reverse_sorted (key : A -> nat) (T : A -> A -> Prop)
    (l : list A) :
  StronglySorted T l ->
  StronglySorted (fun a b => key b < key a \/ (key a = key b /\ T a b))
    (py_sorted key true l).
Proof.
  intros Hs. unfold py_sorted.
  apply StronglySorted_rev in Hs.
  apply (stable_sort_sorted key) in Hs.
  apply StronglySorted_rev in Hs.
  eapply StronglySorted_weaken; [|exact Hs].
  intros a b _ _ [Hlt|[Heq HT]]; [now left | right; now split].
Qed.

End BuiltinFacts.

Section RankingFacts.

Context {A : Type} `{EqDecision A}.

(** The ranking [sorted(Counter(flat).items(), key=lambda x: x[1],
    reverse=True)]. *)
Lemma ranking_sorted (flat : list A) :
  StronglySorted (ranks_before flat) (py_sorted snd true (Counter flat)).
Proof.
  destruct (Counter_spec flat) as (_ & _ & _ & Hord).
  apply (StronglySorted_map fst
           (fun a b => first_index a flat < first_index b flat)) in Hord.
  apply (py_sorted_reverse_sorted snd) in Hord.
  eapply StronglySorted_weaken; [|exact Hord].
  intros a b _ _ Hab. exact Hab.
Qed.

End RankingFacts.

(** ** The generic engine *)

Section EngineProperties.

Context (ucd : UCD).

Lemma string_length_append (a b : string) :
  String.length (String.append a b) = String.length a + String.length b.
Proof. induction a as [|c a IH]; simpl; [reflexivity | now rewrite IH]. Qed.

Lemma last_char_append (a b : string) :
  b <> EmptyString -> last_char (String.append a b) = last_char b.
Proof.
  intros Hb. induction a as [|c a IH]; [reflexivity|].
  change (String.append (String c a) b) with (String c (String.append a b)).
  rewrite <- IH. destruct (String.append a b) eqn:E; [|reflexivity].
  exfalso. destruct a; simpl in E; [now apply Hb | discriminate].
Qed.

(** The keys of a summary never collide, so each field of the record is
    the value under its own key. *)
Lemma summary_keys_NoDup (key : string) : List.NoDup (summary_keys key).
Proof.
  assert (Hdiff : forall a b : string,
            String.length a <> String.length b \/ last_char a <> last_char b ->
            a <> b).
  { intros a b [H|H] ->; now apply H. }
  unfold summary_keys.
  repeat (constructor;
          [simpl; intros H;
           repeat (destruct H as [H|H];
                   [revert H; apply Hdiff;
                    rewrite ?string_length_append,
                      ?last_char_append by discriminate;
                    simpl; first [left; lia | right; discriminate]|]);
           exact H|]).
  constructor.
Qed.

Lemma true_div_pos (a b : nat) :
  b <> 0 -> true_div a b = Ok (float_div (int_operand a) (int_operand b)).
Proof. destruct b; [congruence | reflexivity]. Qed.

Lemma extract_unfold text_list regex key extracted :
  extract ucd text_list regex key extracted =
  let m := matches_used ucd text_list regex extracted in
  bind (true_div (length (concat m)) (length (as_list text_list)))
    (fun q => Ok (summary_of ucd text_list regex key extracted q)).
Proof. destruct extracted as [[|x xs]|]; reflexivity. Qed.

Lemma extract_nonempty text_list regex key extracted :
  as_list text_list <> [] ->
  extract ucd text_list regex key extracted =
  Ok (summary_of ucd text_list regex key extracted
        (float_div
           (int_operand
              (length (concat (matches_used ucd text_list regex extracted))))
           (int_operand (length (as_list text_list))))).
Proof.
  intros Hne. rewrite extract_unfold. cbv zeta.
  rewrite true_div_pos; [reflexivity|].
  destruct (as_list text_list); [congruence | discriminate].
Qed.

Lemma extract_Ok_inv text_list regex key extracted s :
  extract ucd text_list regex key extracted = Ok s ->
  as_list text_list <> [] /\
  exists q, s = summary_of ucd text_list regex key extracted q.
Proof.
  rewrite extract_unfold. cbv zeta. unfold true_div.
  destruct (as_list text_list) as [|t ts] eqn:E; simpl; [discriminate|].
  intros [= <-]. split; [discriminate|]. eexists. reflexivity.
Qed.

Lemma list_sum_Permutation (l l' : list nat) :
  Permutation l l' -> list_sum l = list_sum l'.
Proof. intros Hp. induction Hp; simpl; lia. Qed.

Lemma summary_counts (m : list (list mval)) :
  list_sum (map (@length mval) m) = length (concat m).
Proof.
  induction m as [|x m IH]; simpl; [reflexivity|].
  rewrite length_app, IH. reflexivity.
Qed.

(** C1: the shape of the summary.  When the precomputed matches, if any,
    hold one list per record, [extract] returns a summary for every
    non-empty collection (one string counting as a collection of one),
    and in any summary it returns the per-record matches have one entry
    per record, the flat list is their concatenation in order, the counts
    are their lengths, one per record, and the counts add up to the length
    of the flat list. *)
Theorem extract_shape (text_list : str_or_list) (regex : Pattern)
    (key : string) (extracted : option (list (list mval))) :
  (forall e, extracted = Some e -> length e = length (as_list text_list)) ->
  (as_list text_list <> [] ->
   exists s, extract ucd text_list regex key extracted = Ok s) /\
  (forall s, extract ucd text_list regex key extracted = Ok s ->
     length (F_s s) = length (as_list text_list) /\
     F_s_flat s = concat (F_s s) /\
     length (F_counts s) = length (as_list text_list) /\
     F_counts s = map (@length mval) (F_s s) /\
     (forall i x, nth_error (F_s s) i = Some x ->
                  nth_error (F_counts s) i = Some (length x)) /\
     list_sum (F_counts s) = length (F_s_flat s)).
Proof.
  intros Hpre. split.
  - intros Hne. eexists. now apply extract_nonempty.
  - intros s Hs. apply extract_Ok_inv in Hs as (Hne & q & ->). summary_simpl.
    assert (Hlen : length (matches_used ucd text_list regex extracted)
                   = length (as_list text_list)).
    { unfold matches_used. destruct extracted as [[|x xs]|].
      - apply length_map.
      - now apply Hpre.
      - apply length_map. }
    repeat split.
    + exact Hlen.
    + now rewrite length_map.
    + intros i x Hi. now apply map_nth_error.
    + apply summary_counts.
Qed.

(** C3: on an empty record collection [extract] raises the division
    error, whatever the pattern and the precomputed matches; no summary
    is returned. *)
Theorem extract_empty_records (regex : Pattern) (key : string)
    (extracted : option (list (list mval))) :
  extract ucd (StrList []) regex key extracted = Raise ZeroDivisionError.
Proof. rewrite extract_unfold. reflexivity. Qed.

(** C10: the precomputed matches are chosen by truth value.  An empty
    list of precomputed matches gives the result of giving none: the
    pattern is applied to the lower-cased records.  Only a non-empty list
    stands in for the pattern's matches. *)
Theorem extract_extracted_truthiness (text_list : str_or_list)
    (regex : Pattern) (key : string) :
  extract ucd text_list regex key (Some []) =
  extract ucd text_list regex key None /\
  (as_list text_list <> [] ->
   exists s, extract ucd text_list regex key None = Ok s /\
     F_s s = map (fun text => findall regex (lower ucd text))
               (as_list text_list)) /\
  (as_list text_list <> [] ->
   forall x xs,
   exists s, extract ucd text_list regex key (Some (x :: xs)) = Ok s /\
     F_s s = x :: xs).
Proof.
  split; [reflexivity|]. split.
  - intros Hne. eexists. split; [now apply extract_nonempty | reflexivity].
  - intros Hne x xs. eexists.
    split; [now apply extract_nonempty | reflexivity].
Qed.


(** The entries of a ranking are the distinct values with their numbers
    of occurrences. *)
Lemma ranking_entries (flat : list mval) (v : mval) (f : nat) :
  In (v, f) (py_sorted snd true (Counter flat)) <->
  f = occ v flat /\ In v flat.
Proof.
  destruct (Counter_spec flat) as (_ & Hkeys & Hval & _).
  assert (Hperm : Permutation (py_sorted snd true (Counter flat))
                    (Counter flat)) by apply py_sorted_perm.
  split.
  - intros Hin. apply (Permutation_in _ Hperm) in Hin. split.
    + now apply Hval.
    + apply Hkeys. change v with (fst (v, f)). now apply in_map.
  - intros [-> Hin]. apply (Permutation_in _ (Permutation_sym Hperm)).
    apply Hkeys in Hin. apply in_map_iff in Hin as ([w n] & Hw & Hin).
    simpl in Hw. subst w. now rewrite <- (Hval v n Hin).
Qed.

Lemma ranking_NoDup (flat : list mval) :
  List.NoDup (map fst (py_sorted snd true (Counter flat))).
Proof.
  destruct (Counter_spec flat) as (Hnd & _).
  eapply Permutation_NoDup; [|exact Hnd].
  apply Permutation_map, Permutation_sym, py_sorted_perm.
Qed.

(** C2: the ranking.  For a non-empty record collection [extract] returns
    a summary whose ranking lists (value, frequency) pairs by descending
    frequency, the frequencies adding up to the length of the flat list;
    of two values with the same frequency the one that occurs first in the
    flat list comes first.  The pairs are the values of the flat list,
    once each, with their numbers of occurrences there. *)
Theorem extract_top_ranking (text_list : str_or_list) (regex : Pattern)
    (key : string) (extracted : option (list (list mval))) :
  as_list text_list <> [] ->
  exists s, extract ucd text_list regex key extracted = Ok s /\
    StronglySorted (fun a b => snd b <= snd a) (top_F_s s) /\
    list_sum (map snd (top_F_s s)) = length (F_s_flat s) /\
    (forall i j v w f,
       nth_error (top_F_s s) i = Some (v, f) ->
       nth_error (top_F_s s) j = Some (w, f) ->
       first_index v (F_s_flat s) < first_index w (F_s_flat s) ->
       i < j) /\
    (forall v f, In (v, f) (top_F_s s) <->
       f = occ v (F_s_flat s) /\ In v (F_s_flat s)) /\
    List.NoDup (map fst (top_F_s s)).
Proof.
  intros Hne. eexists. split; [now apply extract_nonempty|]. summary_simpl.
  set (flat := concat (matches_used ucd text_list regex extracted)).
  pose proof (ranking_sorted flat) as Hrank.
  split; [|split; [|split; [|split]]].
  - eapply StronglySorted_weaken; [|exact Hrank].
    intros a b _ _ [Hlt|[Heq _]]; lia.
  - rewrite (list_sum_Permutation _ _
               (Permutation_map snd (py_sorted_perm snd true (Counter flat)))).
    apply Counter_sum.
  - intros i j v w f Hi Hj Hfirst.
    destruct (Nat.lt_trichotomy i j) as [Hlt|[Heq|Hgt]]; [assumption| |].
    + subst j. rewrite Hi in Hj. injection Hj as ->. lia.
    + pose proof (StronglySorted_nth _ _ Hrank _ _ _ _ Hj Hi Hgt) as Hr.
      destruct Hr as [Hr|[_ Hr]]; simpl in Hr; lia.
  - intros v f. apply ranking_entries.
  - apply ranking_NoDup.
Qed.

End EngineProperties.

(** ** Emoji *)

Section EmojiProperties.

Context (ucd : UCD).
Context (EMOJI_findall : str -> list str).
Context (EMOJI_ENTRIES : gmap str EmojiEntry).

(** A comprehension raises as soon as its body does on some element. *)
Lemma mapM_raise {A B : Type} (f : A -> result B) (l : list A) :
  (exists x e, In x l /\ f x = Raise e) ->
  exists x e, In x l /\ f x = Raise e /\ mapM f l = Raise e.
Proof.
  induction l as [|a l IH]; intros (x & e & Hin & Hx); [destruct Hin|].
  simpl. destruct (f a) as [b|e'] eqn:Ea.
  - destruct Hin as [->|Hin]; [congruence|].
    destruct IH as (y & e'' & Hy & Hfy & Hm); [now exists x, e|].
    exists y, e''. split; [now right|]. split; [assumption|].
    simpl. now rewrite Hm.
  - exists a, e'. split; [now left|]. split; [assumption | reflexivity].
Qed.

(** C9: a matched grapheme without an entry in the table makes
    [extract_emoji] raise the key error of such a grapheme: nothing is
    skipped or put in its place, and no summary is returned. *)
Theorem extract_emoji_missing_entry (text_list : list str) (em : str) :
  In em (concat (map (fun text => EMOJI_findall (lower ucd text)) text_list)) ->
  EMOJI_ENTRIES !! em = None ->
  exists k,
    extract_emoji ucd EMOJI_findall EMOJI_ENTRIES text_list
    = Raise (KeyError k) /\
    In k (concat (map (fun text => EMOJI_findall (lower ucd text)) text_list))
    /\ EMOJI_ENTRIES !! k = None.
Proof.
  intros Hin Hmiss. unfold extract_emoji.
  set (flat := concat _) in *.
  destruct (mapM_raise
              (fun em => let* e := emoji_entry EMOJI_ENTRIES em in
                         Ok (entry_name e)) flat) as (k & e & Hk & Hfk & Hm).
  { exists em, (KeyError em). split; [assumption|].
    unfold emoji_entry. now rewrite Hmiss. }
  unfold emoji_entry in Hfk.
  destruct (EMOJI_ENTRIES !! k) eqn:Ek; simpl in Hfk; [discriminate|].
  injection Hfk as <-. exists k. rewrite Hm. repeat split; assumption.
Qed.

End EmojiProperties.

(** ** URLs *)

Section UrlProperties.

Context (ucd : UCD).
Context (URL_findall : str -> list str).

(** A rewritten token no longer begins with [www] or [ftp]. *)
Lemma add_scheme_normal (u : str) :
  startswith (s2l "www") (lower ucd (add_scheme ucd u)) = false /\
  startswith (s2l "ftp") (lower ucd (add_scheme ucd u)) = false.
Proof.
  unfold add_scheme.
  destruct (startswith (s2l "www") (lower ucd u)) eqn:Ew;
    [split; reflexivity|].
  destruct (startswith (s2l "ftp") (lower ucd u)) eqn:Ef;
    [split; reflexivity|].
  split; assumption.
Qed.

Lemma extract_urls_Ok_inv (text_list : list str) (s : UrlSummary) :
  extract_urls ucd URL_findall text_list = Ok s ->
  text_list <> [] /\
  F_s (url_base s)
  = map (fun x => map (fun u => MStr (add_scheme ucd u)) (URL_findall x))
      text_list /\
  F_s_flat (url_base s) = concat (F_s (url_base s)).
Proof.
  unfold extract_urls.
  destruct (mapM (mapM netloc) _) as [domains|]; simpl; [|discriminate].
  destruct (extract _ _ _ _ _) as [b|] eqn:Eb; simpl; [|discriminate].
  intros [= <-]. cbn [url_base].
  apply extract_Ok_inv in Eb as (Hne & q & ->). summary_simpl.
  simpl in Hne. split; [assumption|].
  assert (Hm : matches_used ucd (StrList text_list) (URL URL_findall)
                 (Some (map (map MStr)
                          (map (fun x => map (add_scheme ucd) (URL_findall x))
                             text_list)))
               = map (fun x => map (fun u => MStr (add_scheme ucd u))
                                 (URL_findall x)) text_list).
  { destruct text_list as [|t ts]; [congruence|].
    rewrite map_map. cbn [matches_used map]. f_equal.
    - apply map_map.
    - apply map_ext. intros x. apply map_map. }
  rewrite Hm. split; reflexivity.
Qed.

(** C5: the rewriting puts [http://] before a token that begins, case
    ignored, with [www] or [ftp] and leaves any other token as it is.  The
    URLs of a summary are the matched tokens after this rewriting, per
    record and flat; none of them begins with [www] or [ftp] any more.
    On the record [two: http://a.com www.b.com], when the pattern matches
    the two tokens, the URLs are [http://a.com] and [http://www.b.com] and
    the host of the second is [www.b.com]. *)
Theorem extract_urls_normalized :
  (forall u,
     add_scheme ucd u
     = if startswith (s2l "www") (lower ucd u)
          || startswith (s2l "ftp") (lower ucd u)
       then s2l "http://" ++ u else u) /\
  (forall text_list s,
     extract_urls ucd URL_findall text_list = Ok s ->
     F_s (url_base s)
     = map (fun x => map (fun u => MStr (add_scheme ucd u)) (URL_findall x))
         text_list /\
     F_s_flat (url_base s) = concat (F_s (url_base s)) /\
     (forall v, In v (F_s_flat (url_base s)) ->
        exists u, v = MStr u /\
          startswith (s2l "www") (lower ucd u) = false /\
          startswith (s2l "ftp") (lower ucd u) = false)) /\
  (URL_findall (s2l "two: http://a.com www.b.com")
   = [s2l "http://a.com"; s2l "www.b.com"] ->
   exists s,
     extract_urls ucd URL_findall [s2l "two: http://a.com www.b.com"] = Ok s /\
     F_s (url_base s)
     = [[MStr (s2l "http://a.com"); MStr (s2l "http://www.b.com")]] /\
     F_s_flat (url_base s)
     = [MStr (s2l "http://a.com"); MStr (s2l "http://www.b.com")] /\
     netloc (s2l "http://www.b.com") = Ok (s2l "www.b.com") /\
     top_domains s = [(s2l "a.com", 1); (s2l "www.b.com", 1)]).
Proof.
  split; [reflexivity|]. split.
  - intros text_list s Hs.
    apply extract_urls_Ok_inv in Hs as (_ & HF & Hflat).
    split; [assumption|]. split; [assumption|].
    intros v Hv. rewrite Hflat, HF in Hv.
    apply in_concat in Hv as (l & Hl & Hv).
    apply in_map_iff in Hl as (x & <- & _).
    apply in_map_iff in Hv as (u & <- & _).
    exists (add_scheme ucd u). split; [reflexivity|].
    apply add_scheme_normal.
  - intros HURL. unfold extract_urls. cbn [map]. rewrite HURL.
    eexists. split; [vm_compute; reflexivity|].
    repeat split.
Qed.

End UrlProperties.

(** ** The scan and the matcher *)

Section MatcherFacts.

Context (ucd : UCD).

Lemma findall_at_eq (ic : bool) (r : regex) (before rest : str) (skip : nat) :
  findall_at ucd ic r before rest skip =
  let next n :=
    match rest with
    | [] => []
    | c :: rest' => findall_at ucd ic r (c :: before) rest' n
    end in
  match skip with
  | S n => next n
  | O =>
      match attempt ucd ic r before rest false with
      | None => next 0
      | Some (S n, v) => v :: next n
      | Some (O, v) =>
          v :: match attempt ucd ic r before rest true with
               | Some (S n, v') => v' :: next n
               | _ => next 0
               end
      end
  end.
Proof. destruct rest; reflexivity. Qed.

(** Every reported match comes from an anchored attempt at some position
    of the text. *)
Lemma findall_at_In (ic : bool) (r : regex) (rest : str) :
  forall before skip v,
    In v (findall_at ucd ic r before rest skip) ->
    exists before' rest' ma n,
      rev before' ++ rest' = rev before ++ rest /\
      attempt ucd ic r before' rest' ma = Some (n, v).
Proof.
  induction rest as [|c rest' IH]; intros before skip v Hin;
    rewrite findall_at_eq in Hin; cbv zeta in Hin.
  - destruct skip as [|k]; [|destruct Hin].
    destruct (attempt ucd ic r before [] false) as [[[|n] v0]|] eqn:E1;
      [| |destruct Hin].
    + destruct Hin as [<-|Hin]; [now exists before, [], false, 0|].
      destruct (attempt ucd ic r before [] true) as [[[|n'] v1]|] eqn:E2;
        try destruct Hin as [<-|[]]; try destruct Hin.
      now exists before, [], true, (S n').
    + destruct Hin as [<-|[]]. now exists before, [], false, (S n).
  - assert (Hrec : forall k, In v (findall_at ucd ic r (c :: before) rest' k) ->
              exists before' rest'' ma n,
                rev before' ++ rest'' = rev before ++ c :: rest' /\
                attempt ucd ic r before' rest'' ma = Some (n, v)).
    { intros k Hk. destruct (IH _ _ _ Hk) as (b' & r' & ma & n & Heq & Ha).
      exists b', r', ma, n. split; [|assumption].
      rewrite Heq. simpl. now rewrite <- app_assoc. }
    destruct skip as [|k]; [|now apply Hrec in Hin].
    destruct (attempt ucd ic r before (c :: rest') false)
      as [[[|n] v0]|] eqn:E1.
    + destruct Hin as [<-|Hin]; [now exists before, (c :: rest'), false, 0|].
      destruct (attempt ucd ic r before (c :: rest') true)
        as [[[|n'] v1]|] eqn:E2; try (now apply Hrec in Hin).
      destruct Hin as [<-|Hin]; [|now apply Hrec in Hin].
      now exists before, (c :: rest'), true, (S n').
    + destruct Hin as [<-|Hin]; [|now apply Hrec in Hin].
      now exists before, (c :: rest'), false, (S n).
    + now apply Hrec in Hin.
Qed.

(** The characters covered by a match are passed over. *)
Lemma findall_at_skip (ic : bool) (r : regex) (run rest : str) :
  forall before,
    findall_at ucd ic r before (run ++ rest) (length run)
    = findall_at ucd ic r (rev run ++ before) rest 0.
Proof.
  induction run as [|x run IH]; intros before; [reflexivity|].
  rewrite findall_at_eq. cbn [app length]. cbv zeta. rewrite IH.
  simpl. now rewrite <- app_assoc.
Qed.

(** A greedy repetition that succeeds has passed a run of characters of
    the class, within its bounds, and its continuation accepted there. *)
Lemma rep_greedy_sound (test : cp -> bool) (g : list (nat * str)) (k : kont)
    (st : mstate) (rest : str) :
  forall lo hi before,
    rep_greedy test lo hi before rest g k = Some st ->
    exists pre suf,
      rest = pre ++ suf /\ Forall (fun c => test c = true) pre /\
      lo <= length pre /\ (forall h, hi = Some h -> length pre <= h) /\
      k (MState (rev pre ++ before) suf g) = Some st.
Proof.
  assert (Hstop : forall lo hi before rest0,
            match lo with
            | O => k (MState before rest0 g)
            | S _ => None
            end = Some st ->
            exists pre suf,
              rest0 = pre ++ suf /\ Forall (fun c => test c = true) pre /\
              lo <= length pre /\ (forall h, hi = Some h -> length pre <= h) /\
              k (MState (rev pre ++ before) suf g) = Some st).
  { intros lo hi before rest0 H. destruct lo; [|discriminate].
    exists [], rest0. repeat split; try constructor; simpl; try lia.
    assumption. }
  induction rest as [|c rest' IH]; intros lo hi before H.
  - simpl in H. destruct hi as [[|h]|]; now apply Hstop.
  - simpl in H.
    destruct hi as [[|h]|]; [now apply Hstop| |];
      (destruct (test c) eqn:Ec; [|now apply Hstop]);
      (match type of H with
       | match ?X with _ => _ end = _ => destruct X as [st'|] eqn:E
       end; [|now apply Hstop]);
      injection H as ->;
      apply IH in E as (pre & suf & -> & Hall & Hlo & Hhi & Hk);
      exists (c :: pre), suf; simpl; rewrite <- app_assoc;
      (repeat split; [now constructor | lia | | exact Hk]).
    + intros h' [= <-]. specialize (Hhi h eq_refl). lia.
    + intros h' [=].
Qed.

(** A repetition from nought on succeeds when its continuation accepts
    on the spot. *)
Lemma rep_greedy_zero (test : cp -> bool) (hi : option nat)
    (before rest : str) (g : list (nat * str)) (k : kont) (st : mstate) :
  k (MState before rest g) = Some st ->
  exists st', rep_greedy test 0 hi before rest g k = Some st'.
Proof.
  intros Hk. destruct rest as [|c rest]; simpl.
  - destruct hi as [[|h]|]; eauto.
  - destruct hi as [[|h]|]; [eauto| |];
      (destruct (test c); [|eauto]);
      match goal with
      | |- exists _, match ?X with _ => _ end = _ => destruct X; eauto
      end.
Qed.

Lemma span_after (p before : str) :
  rev (firstn (length (p ++ before) - length before) (p ++ before)) = rev p.
Proof.
  rewrite length_app.
  replace (length p + length before - length before) with (length p) by lia.
  now rewrite firstn_app, Nat.sub_diag, firstn_all, app_nil_r.
Qed.

(** An attempt of a pattern of one class. *)
Lemma attempt_cls (ic ma : bool) (cl : cclass) (before : str) (c : cp)
    (rest : str) :
  attempt ucd ic (Cls cl) before (c :: rest) ma =
  if class_test ucd cl c then Some (1, MStr [c]) else None.
Proof.
  unfold attempt. cbn [rmatch m_rest m_before m_groups].
  destruct (class_test ucd cl c); [|reflexivity].
  cbn [m_before length].
  replace (S (length before) =? length before) with false
    by (symmetry; apply Nat.eqb_neq; lia).
  rewrite andb_false_r. cbn [m_before m_groups length].
  replace (S (length before) - length before) with 1 by lia.
  reflexivity.
Qed.

(** The matches of a pattern of one class are the characters of the class,
    in order. *)
Lemma findall_at_cls (ic : bool) (cl : cclass) (s : str) :
  forall before,
    findall_at ucd ic (Cls cl) before s 0
    = map (fun c => MStr [c]) (List.filter (class_test ucd cl) s).
Proof.
  induction s as [|c s IH]; intros before; rewrite findall_at_eq; cbv zeta.
  - reflexivity.
  - rewrite attempt_cls. simpl.
    destruct (class_test ucd cl c); simpl; now rewrite IH.
Qed.

Lemma findall_cls (ic : bool) (cl : cclass) (s : str) :
  re_findall ucd ic (Cls cl) s
  = map (fun c => MStr [c]) (List.filter (class_test ucd cl) s).
Proof. apply findall_at_cls. Qed.

End MatcherFacts.

(** ** Words *)

Section WordProperties.

Context (ucd : UCD).

(** C4: on the record [there is rain, it is raining] with the word [rain],
    whole words only, [extract_words] finds [rain] alone.  Without that
    restriction each alternative takes the whole run of non-space
    characters around the word, so the matches are [rain,] with its comma
    and [raining], and not [rain] and [raining]. *)
Theorem extract_words_rain :
  (exists s,
     extract_words ucd [s2l "there is rain, it is raining"]
       (StrList [s2l "rain"]) true = Ok s /\
     F_s s = [[MStr (s2l "rain")]]) /\
  (exists s,
     extract_words ucd [s2l "there is rain, it is raining"]
       (StrList [s2l "rain"]) false = Ok s /\
     F_s s = [[MStr (s2l "rain,"); MStr (s2l "raining")]] /\
     F_s s <> [[MStr (s2l "rain"); MStr (s2l "raining")]]).
Proof.
  split; eexists; (split; [vm_compute; reflexivity|]).
  - reflexivity.
  - split; [reflexivity | discriminate].
Qed.

End WordProperties.

(** ** Currency symbols *)

Section CurrencyProperties.

Context (ucd : UCD).

Lemma mapM_Ok_all {A B : Type} (f : A -> result B) (l : list A) :
  (forall x, In x l -> exists y, f x = Ok y) -> exists r, mapM f l = Ok r.
Proof.
  induction l as [|a l IH]; intros Hall; simpl; [now eexists|].
  destruct (Hall a) as (y & ->); [now left|].
  destruct IH as (r & ->); [intros x Hx; apply Hall; now right|].
  simpl. now eexists.
Qed.

(** An attempt of the context-window pattern takes at most [left_chars]
    characters of the line, a currency symbol and at most [right_chars]
    further characters of the line. *)
Lemma attempt_window (left_chars right_chars : nat) (before rest : str)
    (ma : bool) (n : nat) (v : mval) :
  attempt ucd false (surrounding_text_regex ucd left_chars right_chars)
    before rest ma = Some (n, v) ->
  exists l c r post,
    rest = l ++ c :: r ++ post /\ v = MStr (l ++ c :: r) /\
    length l <= left_chars /\ length r <= right_chars /\
    is_currency ucd c = true /\ ~ In 10%N l /\ ~ In 10%N r.
Proof.
  assert (Hline : forall l, Forall (fun c => class_test ucd CAny c = true) l ->
                            ~ In 10%N l).
  { intros l Hl Hin. rewrite List.Forall_forall in Hl.
    apply Hl in Hin. discriminate. }
  unfold attempt, surrounding_text_regex, CURRENCY_RAW.
  cbn [rmatch m_before m_rest m_groups].
  match goal with
  | |- match ?X with _ => _ end = _ -> _ => destruct X as [st|] eqn:E
  end; [|discriminate].
  apply rep_greedy_sound in E as (l & suf & -> & Hl & _ & HL & Hk).
  cbn [m_before m_rest m_groups] in Hk.
  destruct suf as [|c suf]; [discriminate|].
  cbn [class_test] in Hk.
  destruct (is_currency ucd c) eqn:Ec; [|discriminate].
  apply rep_greedy_sound in Hk as (r & post & -> & Hr & _ & HR & Hk).
  cbn [m_before] in Hk.
  destruct (ma && _); [discriminate|]. injection Hk as <-.
  cbn [m_before m_groups]. intros [= <- <-].
  exists l, c, r, post.
  split; [reflexivity|]. split.
  { unfold item. cbn [ngroups Nat.max]. f_equal.
    replace (rev r ++ c :: rev l ++ before)
      with ((rev r ++ c :: rev l) ++ before)
      by (rewrite <- app_assoc; reflexivity).
    rewrite span_after, rev_app_distr. simpl.
    rewrite !rev_involutive, <- app_assoc. reflexivity. }
  split; [now apply HL|]. split; [now apply HR|].
  split; [exact Ec|]. split; now apply Hline.
Qed.

(** The windows found in a line are pieces of the line. *)
Lemma findall_window (left_chars right_chars : nat) (text : str) (w : mval) :
  In w (re_findall ucd false
          (surrounding_text_regex ucd left_chars right_chars) text) ->
  exists pre l c r post,
    text = pre ++ l ++ c :: r ++ post /\ w = MStr (l ++ c :: r) /\
    length l <= left_chars /\ length r <= right_chars /\
    is_currency ucd c = true /\ ~ In 10%N l /\ ~ In 10%N r.
Proof.
  intros Hin. apply findall_at_In in Hin as (b & rest & ma & n & Heq & Ha).
  apply attempt_window in Ha as (l & c & r & post & -> & -> & H).
  exists (rev b), l, c, r, post. split; [|split; [reflexivity | exact H]].
  simpl in Heq. now rewrite Heq.
Qed.

(** The names of the currency symbols of a record are all found when
    every currency symbol has a name. *)
Lemma currency_names_Ok (text_list : list str) :
  (forall c, is_currency ucd c = true -> ucd_name ucd c <> None) ->
  exists names,
    mapM (fun x => mapM (char_name ucd) x)
      (map (fun text => findall (CURRENCY ucd) (lower ucd text)) text_list)
    = Ok names.
Proof.
  intros Hnamed. apply mapM_Ok_all. intros x Hx.
  apply in_map_iff in Hx as (text & <- & _).
  apply mapM_Ok_all. intros v Hv.
  unfold CURRENCY, CURRENCY_RAW, re_compile, findall in Hv.
  rewrite findall_cls in Hv. apply in_map_iff in Hv as (c & <- & Hc).
  apply filter_In in Hc as [_ Hc]. cbn [class_test] in Hc.
  unfold char_name. specialize (Hnamed c Hc).
  destruct (ucd_name ucd c); [now eexists | congruence].
Qed.

Lemma extract_currency_Ok (text_list : list str)
    (left_chars right_chars : nat) :
  (forall c, is_currency ucd c = true -> ucd_name ucd c <> None) ->
  text_list <> [] ->
  repeat_too_large left_chars = false ->
  repeat_too_large right_chars = false ->
  exists s,
    extract_currency ucd text_list left_chars right_chars = Ok s /\
    surrounding_text s
    = map (fun text =>
             re_findall ucd false
               (surrounding_text_regex ucd left_chars right_chars) text)
        text_list.
Proof.
  intros Hnamed Hne HL HR. unfold extract_currency.
  rewrite extract_nonempty by exact Hne. cbn [bind].
  unfold summary_of at 1. cbv zeta. cbn [F_s matches_used as_list].
  destruct (currency_names_Ok text_list Hnamed) as (names & ->).
  cbn [bind]. unfold compile_surrounding_text_regex. rewrite HL, HR.
  cbn [orb bind]. eexists. split; reflexivity.
Qed.

Lemma extract_currency_Ok_inv (text_list : list str)
    (left_chars right_chars : nat) (s : CurrencySummary) :
  extract_currency ucd text_list left_chars right_chars = Ok s ->
  text_list <> [] /\
  surrounding_text s
  = map (fun text =>
           re_findall ucd false
             (surrounding_text_regex ucd left_chars right_chars) text)
      text_list.
Proof.
  unfold extract_currency.
  destruct (extract _ _ _ _ _) as [b|] eqn:Eb; simpl; [|discriminate].
  destruct (mapM _ _) as [names|]; simpl; [|discriminate].
  destruct (compile_surrounding_text_regex _ _ _) as [regex|] eqn:Er;
    simpl; [|discriminate].
  intros [= <-]. unfold compile_surrounding_text_regex in Er.
  destruct (_ || _); [discriminate|]. injection Er as <-.
  split; [|reflexivity].
  now apply extract_Ok_inv in Eb as [Hne _].
Qed.

Lemma line_chars (l : str) :
  Forall (fun c => class_test ucd CAny c = true) l <-> ~ In 10%N l.
Proof.
  induction l as [|x l IH]; simpl.
  - split; [tauto | constructor].
  - split.
    + intros H. inversion H as [|? ? Hx Hl]; subst.
      intros [Heq|Hin]; [subst x; discriminate | now apply IH in Hl].
    + intros H. constructor.
      * destruct (N.eqb_spec x 10) as [->|Hne]; [exfalso; apply H; now left|].
        reflexivity.
      * apply IH. intros Hin. apply H. now right.
Qed.

(** A bounded repetition that fails has been refused after every run
    within its bound. *)
Lemma rep_greedy_bounded_none (test : cp -> bool) (g : list (nat * str))
    (k : kont) (rest : str) :
  forall h before,
    rep_greedy test 0 (Some h) before rest g k = None ->
    forall pre suf,
      rest = pre ++ suf -> Forall (fun c => test c = true) pre ->
      length pre <= h ->
      k (MState (rev pre ++ before) suf g) = None.
Proof.
  induction rest as [|c rest IH]; intros h before H pre suf Heq Hpre Hlen.
  - destruct pre; [|discriminate]. simpl in Heq. subst suf.
    destruct h; exact H.
  - destruct h as [|h].
    + destruct pre; [|simpl in Hlen; lia]. simpl in Heq. subst suf. exact H.
    + simpl in H. destruct (test c) eqn:Ec.
      * destruct (rep_greedy test 0 (Some h) (c :: before) rest g k)
          as [st|] eqn:E; [discriminate|].
        destruct pre as [|x pre]; [simpl in Heq; subst suf; exact H|].
        simpl in Heq. injection Heq as <- Heq.
        inversion Hpre as [|? ? Hx Hpre']; subst. simpl in Hlen.
        simpl. rewrite <- app_assoc.
        apply (IH h (c :: before) E pre suf eq_refl); [assumption | lia].
      * destruct pre as [|x pre]; [simpl in Heq; subst suf; exact H|].
        simpl in Heq. injection Heq as <- Heq.
        inversion Hpre; subst. congruence.
Qed.

(** A bounded repetition that succeeds has passed the longest run within
    its bound after which its continuation accepts. *)
Lemma rep_greedy_bounded (test : cp -> bool) (g : list (nat * str))
    (k : kont) (st : mstate) (rest : str) :
  forall h before,
    rep_greedy test 0 (Some h) before rest g k = Some st ->
    exists pre suf,
      rest = pre ++ suf /\ Forall (fun c => test c = true) pre /\
      length pre <= h /\
      k (MState (rev pre ++ before) suf g) = Some st /\
      forall pre2 suf2,
        rest = pre2 ++ suf2 -> Forall (fun c => test c = true) pre2 ->
        length pre < length pre2 <= h ->
        k (MState (rev pre2 ++ before) suf2 g) = None.
Proof.
  assert (Hstop : forall h before rest0,
            k (MState before rest0 g) = Some st ->
            (forall pre2 suf2,
               rest0 = pre2 ++ suf2 -> Forall (fun c => test c = true) pre2 ->
               0 < length pre2 <= h ->
               k (MState (rev pre2 ++ before) suf2 g) = None) ->
            exists pre suf,
              rest0 = pre ++ suf /\ Forall (fun c => test c = true) pre /\
              length pre <= h /\
              k (MState (rev pre ++ before) suf g) = Some st /\
              forall pre2 suf2,
                rest0 = pre2 ++ suf2 -> Forall (fun c => test c = true) pre2 ->
                length pre < length pre2 <= h ->
                k (MState (rev pre2 ++ before) suf2 g) = None).
  { intros h before rest0 Hk Hmax. exists [], rest0.
    split; [reflexivity|]. split; [constructor|]. split; [simpl; lia|].
    split; [exact Hk | exact Hmax]. }
  induction rest as [|c rest IH]; intros h before H.
  - apply Hstop; [destruct h; exact H|].
    intros pre2 suf2 Heq _ Hlen. destruct pre2; [simpl in Hlen; lia|].
    discriminate.
  - destruct h as [|h]; [apply Hstop; [exact H | intros; lia]|].
    simpl in H. destruct (test c) eqn:Ec.
    + destruct (rep_greedy test 0 (Some h) (c :: before) rest g k)
        as [st'|] eqn:E.
      * injection H as ->.
        apply IH in E as (pre & suf & -> & Hpre & Hlen & Hk & Hmax).
        exists (c :: pre), suf. split; [reflexivity|].
        split; [now constructor|]. split; [simpl; lia|].
        split; [simpl; now rewrite <- app_assoc|].
        intros pre2 suf2 Heq Hpre2 Hlen2.
        destruct pre2 as [|x pre2]; [simpl in Hlen2; lia|].
        simpl in Heq. injection Heq as <- Heq. inversion Hpre2; subst.
        simpl. rewrite <- app_assoc. simpl in Hlen2.
        apply Hmax; [assumption | assumption | lia].
      * apply Hstop; [exact H|].
        intros pre2 suf2 Heq Hpre2 Hlen2.
        destruct pre2 as [|x pre2]; [simpl in Hlen2; lia|].
        simpl in Heq. injection Heq as <- Heq. inversion Hpre2; subst.
        simpl. rewrite <- app_assoc. simpl in Hlen2.
        apply (rep_greedy_bounded_none test g k _ h (c :: before) E
                 pre2 suf2 eq_refl); [assumption | lia].
    + apply Hstop; [exact H|].
      intros pre2 suf2 Heq Hpre2 Hlen2.
      destruct pre2 as [|x pre2]; [simpl in Hlen2; lia|].
      simpl in Heq. injection Heq as <- Heq. inversion Hpre2; subst.
      congruence.
Qed.

(** What is left of the context-window pattern once the characters before
    the symbol are passed: the symbol, and the characters after it. *)
Lemma window_tail_none (right_chars : nat) (before0 b : str) (suf : str)
    (ma : bool) :
  length before0 <= length b ->
  rmatch ucd false
    (Seq (CURRENCY_RAW ucd) (Rep CAny 0 (Some right_chars)))
    (MState b suf [])
    (fun st => if ma && (length (m_before st) =? length before0)
               then None else Some st) = None ->
  match suf with
  | [] => True
  | c :: _ => is_currency ucd c = false
  end.
Proof.
  intros Hlen H. destruct suf as [|c suf]; [exact I|].
  unfold CURRENCY_RAW in H.
  cbn [rmatch m_rest m_before m_groups class_test] in H.
  destruct (is_currency ucd c) eqn:Ec; [|reflexivity].
  exfalso.
  destruct (rep_greedy_zero (class_test ucd CAny) (Some right_chars)
              (c :: b) suf []
              (fun st => if ma && (length (m_before st) =? length before0)
                         then None else Some st)
              (MState (c :: b) suf [])) as (st' & E).
  - cbn [m_before length].
    replace (S (length b) =? length before0) with false
      by (symmetry; apply Nat.eqb_neq; lia).
    now rewrite andb_false_r.
  - rewrite E in H. discriminate.
Qed.

Lemma attempt_window_none (left_chars right_chars : nat) (before rest : str)
    (ma : bool) :
  attempt ucd false (surrounding_text_regex ucd left_chars right_chars)
    before rest ma = None ->
  no_window_at ucd left_chars rest.
Proof.
  unfold attempt, surrounding_text_regex.
  cbn [rmatch m_before m_rest m_groups].
  match goal with
  | |- match ?X with _ => _ end = _ -> _ => destruct X as [st|] eqn:E
  end; [discriminate|]. intros _.
  intros l c rest' Heq Hlen Hline.
  pose proof (rep_greedy_bounded_none _ _ _ _ _ _ E l (c :: rest') Heq
                (proj2 (line_chars l) Hline) Hlen) as Hk.
  cbv beta in Hk.
  apply (window_tail_none right_chars before (rev l ++ before) (c :: rest') ma)
    in Hk; [exact Hk|].
  rewrite length_app. lia.
Qed.

Lemma attempt_window_max (left_chars right_chars : nat) (before rest : str)
    (ma : bool) (n : nat) (v : mval) :
  attempt ucd false (surrounding_text_regex ucd left_chars right_chars)
    before rest ma = Some (n, v) ->
  exists l c r post,
    rest = l ++ c :: r ++ post /\ v = MStr (l ++ c :: r) /\
    n = length (l ++ c :: r) /\
    window_at ucd left_chars right_chars l c r post.
Proof.
  unfold attempt, surrounding_text_regex.
  cbn [rmatch m_before m_rest m_groups].
  match goal with
  | |- match ?X with _ => _ end = _ -> _ => destruct X as [st|] eqn:E
  end; [|discriminate].
  apply rep_greedy_bounded in E as (l & suf & -> & Hl & HL & Hk & Hmax).
  cbv beta in Hk.
  destruct suf as [|c suf];
    [unfold CURRENCY_RAW in Hk; discriminate|].
  pose proof Hk as Hk'. unfold CURRENCY_RAW in Hk'.
  cbn [rmatch m_rest m_before m_groups class_test] in Hk'.
  destruct (is_currency ucd c) eqn:Ec; [|discriminate].
  apply rep_greedy_bounded in Hk' as (r & post & -> & Hr & HR & HK & Hrmax).
  cbn [m_before] in HK.
  assert (Hadv : forall r2,
            (length (rev r2 ++ c :: rev l ++ before) =? length before)
            = false).
  { intros r2. apply Nat.eqb_neq. rewrite length_app. simpl.
    rewrite length_app. lia. }
  rewrite Hadv, andb_false_r in HK. injection HK as <-.
  cbn [m_before m_groups]. intros [= <- <-].
  assert (Hspan : rev r ++ c :: rev l ++ before
                  = rev (l ++ c :: r) ++ before).
  { rewrite rev_app_distr. simpl. now rewrite <- !app_assoc. }
  rewrite Hspan.
  exists l, c, r, post.
  split; [reflexivity|]. split.
  { unfold item. cbn [ngroups Nat.max]. f_equal.
    now rewrite span_after, rev_involutive. }
  split; [rewrite length_app, length_rev; lia|].
  split; [exact Ec|]. split; [exact HL|]. split; [exact HR|].
  split; [now apply line_chars|]. split; [now apply line_chars|].
  split.
  - intros l2 c2 rest2 Heq Hlen Hline.
    pose proof (Hmax l2 (c2 :: rest2) Heq (proj2 (line_chars l2) Hline) Hlen)
      as Hnone.
    cbv beta in Hnone.
    apply (window_tail_none right_chars before (rev l2 ++ before)
             (c2 :: rest2) ma) in Hnone; [exact Hnone|].
    rewrite length_app. lia.
  - destruct (Nat.eq_dec (length r) right_chars) as [Heq|Hne];
      [now left | right].
    destruct post as [|x post]; [now left | right].
    destruct (N.eqb_spec x 10) as [->|Hx]; [now exists post|].
    exfalso.
    assert (Hr2 : Forall (fun c0 => class_test ucd CAny c0 = true) (r ++ [x])).
    { apply Forall_app. split; [exact Hr|]. constructor; [|constructor].
      simpl. now apply negb_true_iff, N.eqb_neq. }
    pose proof (Hrmax (r ++ [x]) post) as Hn.
    rewrite <- app_assoc in Hn. specialize (Hn eq_refl Hr2).
    rewrite length_app in Hn. simpl in Hn.
    specialize (Hn ltac:(lia)).
    cbn [m_before] in Hn. rewrite Hadv, andb_false_r in Hn. discriminate.
Qed.

(** A place where no window begins can be left to the gap before the
    next window. *)
Lemma windows_of_skip (left_chars right_chars : nat) (x : cp) (t : str)
    (ws : list str) :
  no_window_at ucd left_chars (x :: t) ->
  windows_of ucd left_chars right_chars ws t ->
  windows_of ucd left_chars right_chars ws (x :: t).
Proof.
  intros Hno Hws. destruct ws as [|w ws].
  - simpl in *. unfold currency_chars in *. simpl.
    rewrite (Hno [] x t eq_refl); [exact Hws | simpl; lia | tauto].
  - cbn [windows_of] in *.
    destruct Hws as (gap & l & c & r & post & -> & -> & Hgap & Hstart
                     & Hw & Hrest).
    exists (x :: gap), l, c, r, post.
    split; [reflexivity|]. split; [reflexivity|]. split.
    { intros pre y rest Heq. destruct pre as [|p pre].
      - simpl in Heq. injection Heq as <- <-. exact Hno.
      - simpl in Heq. injection Heq as <- Heq. now apply (Hgap pre). }
    split; [|split; assumption].
    right. destruct Hstart as [->|[(gap' & ->)|Hlen]].
    + destruct (N.eqb_spec x 10) as [->|Hx]; [left; now exists []|].
      right. destruct Hw as (Hc & HL & _ & Hline & _).
      destruct (Nat.eq_dec (length l) left_chars) as [Heq|Hne];
        [exact Heq|].
      exfalso.
      assert (Hcur : is_currency ucd c = false).
      { apply (Hno (x :: l) c (r ++ post) eq_refl); [simpl; lia|].
        intros [Hin|Hin]; [now apply Hx | now apply Hline]. }
      congruence.
    + left. now exists (x :: gap').
    + now right.
Qed.

(** The scan of the context-window pattern gives the context windows. *)
Lemma findall_windows (left_chars right_chars : nat) (text : str) :
  forall before,
    exists ws,
      findall_at ucd false (surrounding_text_regex ucd left_chars right_chars)
        before text 0 = map MStr ws /\
      windows_of ucd left_chars right_chars ws text.
Proof.
  remember (length text) as n eqn:Hn. revert text Hn.
  induction n as [n IH] using lt_wf_ind. intros text -> before.
  rewrite findall_at_eq. cbv zeta.
  destruct (attempt ucd false _ before text false) as [[m v]|] eqn:E.
  - apply attempt_window_max in E
      as (l & c & r & post & -> & -> & -> & Hw).
    destruct (IH (length post)) with (text := post)
                                     (before := rev (l ++ c :: r) ++ before)
      as (ws & Hws & Htile);
      [rewrite !length_app; simpl; rewrite length_app; lia | reflexivity|].
    exists ((l ++ c :: r) :: ws). split.
    + assert (Hnext : match (l ++ c :: r ++ post) with
                      | [] => []
                      | c0 :: rest' =>
                          findall_at ucd false
                            (surrounding_text_regex ucd left_chars right_chars)
                            (c0 :: before) rest'
                            (length (l ++ c :: r) - 1)
                      end = map MStr ws).
      { rewrite <- Hws.
        replace (l ++ c :: r ++ post) with ((l ++ c :: r) ++ post)
          by (rewrite <- app_assoc; reflexivity).
        destruct (l ++ c :: r) as [|y run] eqn:Erun;
          [destruct l; discriminate|].
        cbn [app length].
        replace (S (length run) - 1) with (length run) by lia.
        rewrite findall_at_skip. simpl. now rewrite <- app_assoc. }
      destruct (length (l ++ c :: r)) as [|k] eqn:Ek;
        [rewrite length_app in Ek; simpl in Ek; lia|].
      replace (S k - 1) with k in Hnext by lia.
      cbn [map]. f_equal. exact Hnext.
    + cbn [windows_of]. exists [], l, c, r, post.
      split; [reflexivity|]. split; [reflexivity|].
      split; [intros pre x rest Heq; destruct pre; discriminate|].
      split; [now left|]. split; assumption.
  - apply attempt_window_none in E.
    destruct text as [|x t].
    + exists []. split; reflexivity.
    + destruct (IH (length t)) with (text := t) (before := x :: before)
        as (ws & Hws & Htile); [simpl; lia | reflexivity|].
      exists ws. split; [exact Hws|].
      now apply windows_of_skip.
Qed.

Lemma surrounding_text_windows (left_chars right_chars : nat)
    (text_list : list str) :
  exists windows,
    map (fun text =>
           re_findall ucd false
             (surrounding_text_regex ucd left_chars right_chars) text)
      text_list
    = map (map MStr) windows /\
    Forall2 (windows_of ucd left_chars right_chars) windows text_list.
Proof.
  induction text_list as [|text text_list (windows & Hm & Hw)].
  - exists []. split; [reflexivity | constructor].
  - destruct (findall_windows left_chars right_chars text []) as (ws & E & H).
    exists (ws :: windows). split; [|now constructor].
    cbn [map]. unfold re_findall at 1. now rewrite E, Hm.
Qed.

(** C8: the context windows.  In every summary [extract_currency]
    returns, [surrounding_text] holds, for each record, the context
    windows of the record as it is written, not lower-cased, from left to
    right.  A window is made of at most [left_chars] characters of the
    line, a currency symbol and at most [right_chars] characters of the
    line; it begins at the first place after the window before it from
    which a currency symbol is within reach and runs to the last symbol
    within reach, so that it is shorter on the left only at the start of
    the record, after the window before it or after a line feed, and it
    is shorter on the right only at the end of the record or before a
    line feed: nothing is padded.  When every currency symbol has a
    name, a summary is returned for every non-empty list of records and
    bounds below 4294967295; on the record [today B1 is around $4k], with
    the bitcoin sign for [B], the windows are [B1 i] and [$4k] for the
    bounds 0 and 3, and [oday B1 i] and [ound $4k] for 5 and 3. *)
Theorem extract_currency_surrounding_text :
  (forall text_list left_chars right_chars s,
     extract_currency ucd text_list left_chars right_chars = Ok s ->
     exists windows,
       surrounding_text s = map (map MStr) windows /\
       Forall2 (windows_of ucd left_chars right_chars) windows text_list) /\
  ((forall c, is_currency ucd c = true -> ucd_name ucd c <> None) ->
   (forall text_list left_chars right_chars,
      text_list <> [] ->
      (N.of_nat left_chars < 4294967295)%N ->
      (N.of_nat right_chars < 4294967295)%N ->
      exists s, extract_currency ucd text_list left_chars right_chars = Ok s)
   /\
   (ucd_is_Sc ucd 8383%N = true ->
    (exists s,
       extract_currency ucd
         [s2l "today " ++ [8383%N] ++ s2l "1 is around $4k"] 0 3 = Ok s /\
       surrounding_text s
       = [[MStr ([8383%N] ++ s2l "1 i"); MStr (s2l "$4k")]]) /\
    (exists s,
       extract_currency ucd
         [s2l "today " ++ [8383%N] ++ s2l "1 is around $4k"] 5 3 = Ok s /\
       surrounding_text s
       = [[MStr (s2l "oday " ++ [8383%N] ++ s2l "1 i");
           MStr (s2l "ound $4k")]]))).
Proof.
  split.
  - intros text_list left_chars right_chars s Hs.
    apply extract_currency_Ok_inv in Hs as [_ ->].
    apply surrounding_text_windows.
  - intros Hnamed. split.
    + intros text_list left_chars right_chars Hne HL HR.
      destruct (extract_currency_Ok text_list left_chars right_chars
                  Hnamed Hne) as (s & Hs & _);
        [now apply N.leb_gt | now apply N.leb_gt|].
      now exists s.
    + intros Hbtc. split.
      * destruct (extract_currency_Ok
                    [s2l "today " ++ [8383%N] ++ s2l "1 is around $4k"] 0 3
                    Hnamed) as (s & Hs & Hsur);
          [discriminate | reflexivity | reflexivity |].
        exists s. split; [assumption|]. rewrite Hsur.
        clear - Hbtc. destruct ucd. cbn in Hbtc.
        vm_compute. rewrite Hbtc. reflexivity.
      * destruct (extract_currency_Ok
                    [s2l "today " ++ [8383%N] ++ s2l "1 is around $4k"] 5 3
                    Hnamed) as (s & Hs & Hsur);
          [discriminate | reflexivity | reflexivity |].
        exists s. split; [assumption|]. rewrite Hsur.
        clear - Hbtc. destruct ucd. cbn in Hbtc.
        vm_compute. rewrite Hbtc. reflexivity.
Qed.

End CurrencyProperties.

(** ** Intense words *)

Section IntenseProperties.

Context (ucd : UCD).

Lemma repeat_shift (c : cp) (m : nat) (b : str) :
  repeat c m ++ c :: b = c :: repeat c m ++ b.
Proof. induction m as [|m IH]; simpl; [reflexivity | now rewrite IH]. Qed.

(** [m] backreferences to a group holding one character pass exactly [m]
    copies of it. *)
Lemma rmatch_brefs (c : cp) (g : list (nat * str)) (k : kont) :
  group_lookup 2 g = Some [c] ->
  forall m b s,
    rmatch ucd false (seq_n m (Bref 2)) (MState b s g) k =
    if starts_with_copies c m s
    then k (MState (repeat c m ++ b) (skipn m s) g)
    else None.
Proof.
  intros Hg. induction m as [|m IH]; intros b s; [reflexivity|].
  cbn [seq_n rmatch m_groups m_before m_rest]. rewrite Hg.
  destruct s as [|x s']; [reflexivity|].
  cbn [eat char_eq starts_with_copies]. rewrite N.eqb_sym.
  destruct (x =? c)%N eqn:Ex; [|reflexivity].
  apply N.eqb_eq in Ex as ->. cbn [eat andb]. rewrite IH.
  cbn [skipn repeat]. rewrite repeat_shift. reflexivity.
Qed.

Lemma starts_with_copies_split (c : cp) (m : nat) (s : str) :
  starts_with_copies c m s = true -> s = repeat c m ++ skipn m s.
Proof.
  revert s. induction m as [|m IH]; intros s H; [reflexivity|].
  destruct s as [|x s']; [discriminate|]. simpl in H.
  apply andb_prop in H as [Hx Hs]. apply N.eqb_eq in Hx as ->.
  simpl. f_equal. now apply IH.
Qed.

Lemma starts_with_copies_repeat (c : cp) (m : nat) (r : str) :
  starts_with_copies c m (repeat c m ++ r) = true.
Proof.
  induction m as [|m IH]; [reflexivity|]. simpl.
  now rewrite N.eqb_refl, IH.
Qed.

(** Copies of a non-space character do not reach over a token boundary. *)
Lemma starts_with_copies_gap (c : cp) (m : nat) (t rest : str) :
  class_test ucd CNonSpace c = true -> at_gap ucd rest ->
  starts_with_copies c m (t ++ rest) = starts_with_copies c m t.
Proof.
  intros Hc Hgap. revert t. induction m as [|m IH]; intros t; [reflexivity|].
  destruct t as [|x t]; simpl.
  - destruct rest as [|y rest]; [reflexivity|]. simpl in Hgap.
    destruct (y =? c)%N eqn:Ey; [|reflexivity].
    apply N.eqb_eq in Ey as ->. simpl in Hc. now rewrite Hgap in Hc.
  - now rewrite IH.
Qed.

Lemma has_run_app_r (n : nat) (l s : str) :
  has_run n s = true -> has_run n (l ++ s) = true.
Proof.
  intros H. induction l as [|x l IH]; [assumption|].
  simpl. rewrite IH. apply orb_true_r.
Qed.

(** A run, said with the text: [n] equal characters in a row. *)
Lemma has_run_spec (m : nat) (s : str) :
  has_run (S m) s = true <->
  exists l c r, s = l ++ repeat c (S m) ++ r.
Proof.
  split.
  - induction s as [|x s IH]; [discriminate|]. simpl. rewrite Nat.sub_0_r.
    intros H. apply orb_prop in H as [H|H].
    + exists [], x, (skipn m s). simpl. f_equal.
      now apply starts_with_copies_split.
    + destruct (IH H) as (l & c & r & ->). now exists (x :: l), c, r.
  - intros (l & c & r & ->). apply has_run_app_r. simpl.
    rewrite Nat.sub_0_r, starts_with_copies_repeat. reflexivity.
Qed.

Lemma has_run_split (m : nat) (s : str) :
  has_run (S m) s = true ->
  exists pre c t, s = pre ++ c :: t /\ starts_with_copies c m t = true.
Proof.
  induction s as [|x s IH]; [discriminate|]. simpl. rewrite Nat.sub_0_r.
  intros H. apply orb_prop in H as [H|H].
  - now exists [], x, s.
  - destruct (IH H) as (pre & c & t & -> & Ht). now exists (x :: pre), c, t.
Qed.

Lemma has_run_at (m : nat) (pre : str) (c : cp) (t : str) :
  starts_with_copies c m t = true -> has_run (S m) (pre ++ c :: t) = true.
Proof.
  intros H. apply has_run_app_r. simpl. rewrite Nat.sub_0_r, H. reflexivity.
Qed.

(** With a continuation that accepts it, the longest run is taken. *)
Lemma rep_greedy_longest (test : cp -> bool) (g : list (nat * str))
    (k : kont) (st : mstate) (run rest : str) :
  Forall (fun c => test c = true) run ->
  forall before,
    k (MState (rev run ++ before) rest g) = Some st ->
    match rest with [] => True | c :: _ => test c = false end ->
    rep_greedy test 0 None before (run ++ rest) g k = Some st.
Proof.
  intros Hrun. induction Hrun as [|c run Hc Hrun IH]; intros before Hk Hgap.
  - simpl in *. destruct rest as [|c rest]; simpl; [assumption|].
    now rewrite Hgap.
  - simpl. rewrite Hc. rewrite IH; [reflexivity | | assumption].
    simpl in Hk. now rewrite <- app_assoc in Hk.
Qed.

(** A repetition succeeds as soon as its continuation accepts after some
    run of the class. *)
Lemma rep_greedy_complete (test : cp -> bool) (g : list (nat * str))
    (k : kont) (pre : str) :
  Forall (fun c => test c = true) pre ->
  forall before suf st,
    k (MState (rev pre ++ before) suf g) = Some st ->
    exists st', rep_greedy test 0 None before (pre ++ suf) g k = Some st'.
Proof.
  intros Hpre. induction Hpre as [|c pre Hc Hpre IH]; intros before suf st Hk.
  - simpl in *. destruct suf as [|c suf]; simpl; [eauto|].
    destruct (test c); [|eauto].
    destruct (rep_greedy test 0 None (c :: before) suf g k); eauto.
  - simpl. rewrite Hc. simpl in Hk. rewrite <- app_assoc in Hk.
    destruct (IH (c :: before) suf st Hk) as (st' & ->). eauto.
Qed.

(** A run of non-space characters passed from the start of a token is a
    prefix of the token. *)
Lemma nonspace_prefix (pre suf tok rest : str) :
  pre ++ suf = tok ++ rest ->
  nonspace_run ucd pre -> nonspace_run ucd tok -> at_gap ucd rest ->
  exists tok2, tok = pre ++ tok2 /\ suf = tok2 ++ rest.
Proof.
  intros Heq Hpre. revert tok Heq.
  induction Hpre as [|c pre Hc Hpre IH]; intros tok Heq Htok Hgap.
  - exists tok. split; [reflexivity | assumption].
  - destruct tok as [|x tok].
    + simpl in Heq. subst rest. simpl in Hgap, Hc. now rewrite Hgap in Hc.
    + simpl in Heq. injection Heq as <- Heq. inversion Htok; subst.
      destruct (IH tok Heq) as (tok2 & -> & ->); [assumption..|].
      now exists tok2.
Qed.

End IntenseProperties.

Section IntenseMatching.

Context (ucd : UCD).

Lemma rev_repeat_same (c : cp) (m : nat) : rev (repeat c m) = repeat c m.
Proof.
  induction m as [|m IH]; [reflexivity|]. simpl. rewrite IH.
  change [c] with (repeat c 1). rewrite <- repeat_app.
  now rewrite Nat.add_1_r.
Qed.

Lemma skipn_repeat_app (c : cp) (m : nat) (r : str) :
  skipn m (repeat c m ++ r) = r.
Proof. induction m as [|m IH]; [reflexivity | exact IH]. Qed.

Lemma span_states (p b r r' : str) (g g' : list (nat * str)) :
  span (MState b r g) (MState (p ++ b) r' g') = rev p.
Proof. unfold span. cbn [m_before]. apply span_after. Qed.

(** The rest of the pattern, from a split of the token after [pre]: one
    non-space character, its copies, and the rest of the token. *)
Lemma intense_tail (m : nat) (before pre tok2 rest : str) (ma : bool) :
  nonspace_run ucd tok2 -> at_gap ucd rest ->
  rmatch ucd false
    (Seq (Grp 2 (Cls CNonSpace))
         (Grp 3 (Seq (seq_n m (Bref 2)) (Rep CNonSpace 0 None))))
    (MState (rev pre ++ before) (tok2 ++ rest) [(1, pre)])
    (fun st => if ma && (length (m_before st) =? length before)
               then None else Some st)
  = match tok2 with
    | [] => None
    | c :: t =>
        if starts_with_copies c m t
        then Some (MState (rev (pre ++ c :: t) ++ before) rest
                     [(3, t); (2, [c]); (1, pre)])
        else None
    end.
Proof.
  intros Htok Hgap. destruct tok2 as [|c t].
  - cbn [rmatch m_rest app]. destruct rest as [|y rest]; [reflexivity|].
    simpl in Hgap. cbn [class_test]. now rewrite Hgap.
  - inversion Htok as [|? ? Hc Ht]; subst.
    cbn [rmatch m_rest m_before m_groups app]. rewrite Hc.
    cbn [m_rest m_before m_groups].
    change (c :: rev pre ++ before) with ([c] ++ (rev pre ++ before)).
    rewrite span_states. cbn [rev app].
    rewrite (rmatch_brefs ucd c) by reflexivity.
    rewrite (starts_with_copies_gap ucd) by assumption.
    destruct (starts_with_copies c m t) eqn:Esw; [|reflexivity].
    apply starts_with_copies_split in Esw.
    remember (skipn m t) as t4 eqn:Et4. clear Et4.
    assert (Ht4 : nonspace_run ucd t4).
    { unfold nonspace_run in *. rewrite Esw in Ht.
      now apply Forall_app in Ht as [_ Ht]. }
    subst t. rewrite <- app_assoc, skipn_repeat_app.
    cbn [rmatch m_rest m_before m_groups].
    erewrite rep_greedy_longest; [reflexivity | exact Ht4 | |].
    + cbn [m_before m_rest m_groups].
      replace (length (rev t4 ++ repeat c m ++ c :: rev pre ++ before)
               =? length before) with false
        by (symmetry; apply Nat.eqb_neq; rewrite !length_app; cbn [length];
            rewrite !length_app; lia).
      rewrite andb_false_r, (app_assoc (rev t4) (repeat c m)), span_states.
      rewrite !rev_app_distr, rev_involutive, rev_repeat_same.
      cbn [rev app]. rewrite !rev_app_distr, rev_repeat_same.
      rewrite <- !app_assoc. reflexivity.
    + destruct rest as [|y rest]; [exact I|]. simpl in Hgap.
      cbn [class_test]. now rewrite Hgap.
Qed.

End IntenseMatching.

Section IntenseAttempts.

Context (ucd : UCD).

Lemma rmatch_intense_eq (min_reps : Z) (before s : str) (k : kont) :
  rmatch ucd false (intense_regex min_reps) (MState before s []) k =
  rep_greedy (class_test ucd CNonSpace) 0 None before s []
    (fun st1 =>
       rmatch ucd false
         (Seq (Grp 2 (Cls CNonSpace))
              (Grp 3 (Seq (seq_n (Z.to_nat (min_reps - 1)) (Bref 2))
                          (Rep CNonSpace 0 None))))
         (MState (m_before st1) (m_rest st1)
            ((1, span (MState before s []) st1) :: m_groups st1)) k).
Proof. reflexivity. Qed.

Lemma ngroups_intense (min_reps : Z) : ngroups (intense_regex min_reps) = 3.
Proof.
  unfold intense_regex. cbn [ngroups].
  assert (H : forall m, ngroups (seq_n m (Bref 2)) = 0)
    by (induction m as [|m IH]; [reflexivity | exact IH]).
  now rewrite H.
Qed.

(** A match of the pattern from inside a token splits the rest of the
    token into the three groups and ends where the token ends. *)
Lemma intense_match_inv (min_reps : Z) (before tok rest : str) (ma : bool)
    (st : mstate) :
  nonspace_run ucd tok -> at_gap ucd rest ->
  rmatch ucd false (intense_regex min_reps) (MState before (tok ++ rest) [])
    (fun st => if ma && (length (m_before st) =? length before)
               then None else Some st) = Some st ->
  exists pre c t,
    tok = pre ++ c :: t /\
    starts_with_copies c (Z.to_nat (min_reps - 1)) t = true /\
    st = MState (rev tok ++ before) rest [(3, t); (2, [c]); (1, pre)].
Proof.
  intros Htok Hgap. rewrite rmatch_intense_eq. intros E.
  apply rep_greedy_sound in E as (p & suf & Heq & Hp & _ & _ & HK).
  symmetry in Heq.
  destruct (nonspace_prefix ucd _ _ _ _ Heq Hp Htok Hgap)
    as (tok2 & -> & ->).
  cbn [m_before m_rest m_groups] in HK.
  rewrite span_states, rev_involutive in HK.
  rewrite intense_tail in HK; [|now apply Forall_app in Htok | assumption].
  destruct tok2 as [|c t]; [discriminate|].
  destruct (starts_with_copies c (Z.to_nat (min_reps - 1)) t) eqn:Esw;
    [|discriminate].
  injection HK as <-. now exists p, c, t.
Qed.

Lemma intense_match_complete (min_reps : Z) (before pre : str) (c : cp)
    (t rest : str) (ma : bool) :
  nonspace_run ucd (pre ++ c :: t) -> at_gap ucd rest ->
  starts_with_copies c (Z.to_nat (min_reps - 1)) t = true ->
  exists st,
    rmatch ucd false (intense_regex min_reps)
      (MState before ((pre ++ c :: t) ++ rest) [])
      (fun st => if ma && (length (m_before st) =? length before)
                 then None else Some st) = Some st.
Proof.
  intros Htok Hgap Hsw. rewrite rmatch_intense_eq, <- app_assoc.
  apply Forall_app in Htok as [Hpre Hct].
  eapply rep_greedy_complete; [exact Hpre|].
  cbn [m_before m_rest m_groups].
  rewrite span_states, rev_involutive.
  rewrite intense_tail by assumption. rewrite Hsw. reflexivity.
Qed.

(** An attempt from inside a token without a run fails. *)
Lemma attempt_intense_none (min_reps : Z) (before tok rest : str) (ma : bool) :
  (1 <= min_reps)%Z -> nonspace_run ucd tok -> at_gap ucd rest ->
  has_run (Z.to_nat min_reps) tok = false ->
  attempt ucd false (intense_regex min_reps) before (tok ++ rest) ma = None.
Proof.
  intros Hmin Htok Hgap Hrun. unfold attempt.
  match goal with
  | |- match ?X with _ => _ end = _ => destruct X as [st|] eqn:E
  end; [|reflexivity].
  apply intense_match_inv in E as (pre & c & t & -> & Hsw & _);
    [|assumption..].
  replace (Z.to_nat min_reps) with (S (Z.to_nat (min_reps - 1))) in Hrun
    by lia.
  now rewrite (has_run_at _ pre c t Hsw) in Hrun.
Qed.

(** An attempt from inside a token with a run takes the rest of the
    token, and its three groups make up that text. *)
Lemma attempt_intense_some (min_reps : Z) (before tok rest : str) (ma : bool) :
  (1 <= min_reps)%Z -> nonspace_run ucd tok -> at_gap ucd rest ->
  has_run (Z.to_nat min_reps) tok = true ->
  exists v,
    attempt ucd false (intense_regex min_reps) before (tok ++ rest) ma
    = Some (length tok, v) /\ join v = MStr tok.
Proof.
  intros Hmin Htok Hgap Hrun.
  replace (Z.to_nat min_reps) with (S (Z.to_nat (min_reps - 1))) in Hrun
    by lia.
  apply has_run_split in Hrun as (pre & c & t & Heq & Hsw).
  destruct (intense_match_complete min_reps before pre c t rest ma)
    as (st & Hst); [now rewrite <- Heq | assumption..|].
  rewrite <- Heq in Hst. unfold attempt. rewrite Hst.
  apply intense_match_inv in Hst as (pre' & c' & t' & Heq' & _ & ->);
    [|assumption..].
  cbn [m_before m_groups]. rewrite span_after, rev_involutive.
  rewrite length_app, length_rev.
  replace (length tok + length before - length before) with (length tok)
    by lia.
  eexists. split; [reflexivity|].
  unfold item. rewrite ngroups_intense.
  cbn [seq map group_text group_lookup Nat.eqb join concat].
  now rewrite Heq', app_nil_r.
Qed.

End IntenseAttempts.

Section IntenseScan.

Context (ucd : UCD).

Lemma nonspace_isspace (c : cp) :
  class_test ucd CNonSpace c = true <-> isspace ucd c = false.
Proof.
  cbn [class_test]. destruct (isspace ucd c); simpl; split; congruence.
Qed.

Lemma tokens_run (tok rest : str) :
  nonspace_run ucd tok -> tok <> [] -> at_gap ucd rest ->
  tokens ucd (tok ++ rest) = tok :: tokens ucd rest.
Proof.
  intros Htok. induction Htok as [|c tok Hc Htok IH]; intros Hne Hgap;
    [congruence|].
  apply nonspace_isspace in Hc. cbn [app tokens]. rewrite Hc.
  destruct tok as [|c' tok].
  - destruct rest as [|y rest]; [reflexivity|].
    simpl in Hgap. cbn [app]. now rewrite Hgap.
  - inversion Htok as [|? ? Hc' _]; subst. apply nonspace_isspace in Hc'.
    cbn [app]. rewrite Hc'.
    change (c' :: tok ++ rest) with ((c' :: tok) ++ rest).
    rewrite IH; [reflexivity | discriminate | assumption].
Qed.

Lemma tokens_gap (rest : str) :
  at_gap ucd rest -> tokens ucd rest = tokens ucd (tl rest).
Proof.
  destruct rest as [|y rest]; [reflexivity|]. simpl. now intros ->.
Qed.

(** Every text begins with a run of non-space characters, maybe empty,
    that ends at a token boundary. *)
Lemma nonspace_span (s : str) :
  exists tok rest, s = tok ++ rest /\ nonspace_run ucd tok /\ at_gap ucd rest.
Proof.
  induction s as [|c s IH].
  - exists [], []. repeat split. constructor.
  - destruct (isspace ucd c) eqn:Ec.
    + exists [], (c :: s). repeat split; [constructor | exact Ec].
    + destruct IH as (tok & rest & -> & Htok & Hgap).
      exists (c :: tok), rest. repeat split; [|assumption].
      constructor; [now apply nonspace_isspace | assumption].
Qed.

(** The scan for intense words reports the tokens that hold a run, whole,
    in order. *)
Lemma findall_intense (min_reps : Z) :
  (1 <= min_reps)%Z ->
  forall s before,
    map join (findall_at ucd false (intense_regex min_reps) before s 0)
    = map MStr (List.filter (has_run (Z.to_nat min_reps)) (tokens ucd s)).
Proof.
  intros Hmin s. remember (length s) as n eqn:Hn. revert s Hn.
  induction n as [n IH] using lt_wf_ind. intros s -> before.
  destruct (nonspace_span s) as (tok & rest & -> & Htok & Hgap).
  destruct tok as [|c tok].
  - rewrite findall_at_eq. cbv zeta.
    rewrite (attempt_intense_none ucd min_reps before [] rest false Hmin
               Htok Hgap eq_refl).
    cbn [app]. rewrite (tokens_gap rest Hgap).
    destruct rest as [|y rest]; [reflexivity|].
    cbn [tl]. apply (IH (length rest)); [simpl; lia | reflexivity].
  - rewrite (tokens_run (c :: tok) rest Htok) by (discriminate || assumption).
    cbn [List.filter].
    destruct (has_run (Z.to_nat min_reps) (c :: tok)) eqn:Er.
    + destruct (attempt_intense_some ucd min_reps before (c :: tok) rest false
                  Hmin Htok Hgap Er) as (v & Ha & Hj).
      rewrite findall_at_eq. cbv zeta. rewrite Ha. cbn [length app map].
      rewrite findall_at_skip, Hj. f_equal.
      apply (IH (length rest)); [rewrite length_app; simpl; lia | reflexivity].
    + rewrite findall_at_eq. cbv zeta.
      rewrite (attempt_intense_none ucd min_reps before (c :: tok) rest false
                 Hmin Htok Hgap Er).
      cbn [app].
      rewrite (IH (length (tok ++ rest))); [|simpl; lia | reflexivity].
      inversion Htok as [|? ? _ Htok']; subst.
      destruct tok as [|x tok]; [reflexivity|].
      rewrite (tokens_run (x :: tok) rest Htok')
        by (discriminate || assumption).
      cbn [List.filter]. simpl in Er. apply orb_false_elim in Er as [_ Er].
      simpl. now rewrite Er.
Qed.



End IntenseScan.

(** ** More on counters and sorted counters *)

Section CounterMore.

Context {A : Type} `{EqDecision A}.

Lemma NoDup_keys_distinct {B : Type} (l : list (A * B)) :
  List.NoDup (map fst l) ->
  StronglySorted (fun a b => fst a <> fst b) l.
Proof.
  induction l as [|x l IH]; simpl; intros Hnd; [constructor|].
  inversion Hnd as [|? ? Hx Hnd']; subst. constructor; [now apply IH|].
  rewrite List.Forall_forall. intros y Hy Heq. apply Hx. rewrite Heq.
  now apply in_map.
Qed.

(** The items of a sorted counter, whichever way it is sorted: the
    distinct elements with their numbers of occurrences. *)
Lemma sorted_counter_entries (key : A * nat -> nat) (reverse : bool)
    (l : list A) (v : A) (n : nat) :
  In (v, n) (py_sorted key reverse (Counter l)) <-> n = occ v l /\ In v l.
Proof.
  destruct (Counter_spec l) as (_ & Hkeys & Hval & _).
  assert (Hperm : Permutation (py_sorted key reverse (Counter l)) (Counter l))
    by apply py_sorted_perm.
  split.
  - intros Hin. apply (Permutation_in _ Hperm) in Hin. split.
    + now apply Hval.
    + apply Hkeys. change v with (fst (v, n)). now apply in_map.
  - intros [-> Hin]. apply (Permutation_in _ (Permutation_sym Hperm)).
    apply Hkeys in Hin. apply in_map_iff in Hin as ([w m] & Hw & Hin).
    simpl in Hw. subst w. now rewrite <- (Hval v m Hin).
Qed.

Lemma sorted_counter_NoDup (key : A * nat -> nat) (reverse : bool)
    (l : list A) :
  List.NoDup (map fst (py_sorted key reverse (Counter l))).
Proof.
  destruct (Counter_spec l) as (Hnd & _).
  eapply Permutation_NoDup; [|exact Hnd].
  apply Permutation_map, Permutation_sym, py_sorted_perm.
Qed.

Lemma sorted_counter_sum (key : A * nat -> nat) (reverse : bool)
    (l : list A) :
  list_sum (map snd (py_sorted key reverse (Counter l))) = length l.
Proof.
  rewrite (list_sum_Permutation _ _
             (Permutation_map snd (py_sorted_perm key reverse (Counter l)))).
  apply Counter_sum.
Qed.

Lemma Counter_length_le (l : list A) : length (Counter l) <= length l.
Proof.
  destruct (Counter_spec l) as (Hnd & Hkeys & _).
  rewrite <- (length_map fst). apply NoDup_incl_length; [assumption|].
  intros v Hv. now apply Hkeys.
Qed.

(** The counter of a list, sorted by descending count, is its ranking. *)
Lemma sorted_counter_ranking (l : list A) :
  ranking_of l (py_sorted snd true (Counter l)).
Proof.
  split; [apply ranking_sorted|]. split.
  - intros v f. apply sorted_counter_entries.
  - apply sorted_counter_NoDup.
Qed.

End CounterMore.


Section CounterMap.

Context {A B : Type} `{EqDecision A} `{EqDecision B}.
Context (f : A -> B).
Context (f_inj : forall x y, f x = f y -> x = y).

Lemma counter_add_map (x : A) (c : list (A * nat)) :
  counter_add (f x) (map (fun p => (f (fst p), snd p)) c)
  = map (fun p => (f (fst p), snd p)) (counter_add x c).
Proof.
  induction c as [|[y n] c IH]; simpl; [reflexivity|].
  destruct (decide (f x = f y)) as [Heq|Hne];
    destruct (decide (x = y)) as [Heq'|Hne']; simpl.
  - reflexivity.
  - exfalso. now apply Hne', f_inj.
  - exfalso. apply Hne. now rewrite Heq'.
  - now rewrite IH.
Qed.

(** Counting the images under an injection is counting the elements. *)
Lemma Counter_map (l : list A) :
  Counter (map f l) = map (fun p => (f (fst p), snd p)) (Counter l).
Proof.
  induction l as [|x l IH] using rev_ind; [reflexivity|].
  rewrite map_app. simpl. rewrite !Counter_snoc, IH.
  apply counter_add_map.
Qed.

End CounterMap.

Section SortMap.

Context {A B : Type}.
Context (g : A -> B) (key : A -> nat) (key' : B -> nat).
Context (key_g : forall x, key' (g x) = key x).

Lemma insert_by_map (x : A) (l : list A) :
  insert_by key' (g x) (map g l) = map g (insert_by key x l).
Proof.
  induction l as [|y l IH]; simpl; [reflexivity|].
  rewrite !key_g. destruct (key x <=? key y); simpl; [reflexivity|].
  now rewrite IH.
Qed.

Lemma stable_sort_map (l : list A) :
  stable_sort key' (map g l) = map g (stable_sort key l).
Proof.
  induction l as [|x l IH]; simpl; [reflexivity|].
  rewrite IH. apply insert_by_map.
Qed.

Lemma py_sorted_map (reverse : bool) (l : list A) :
  py_sorted key' reverse (map g l) = map g (py_sorted key reverse l).
Proof.
  unfold py_sorted. destruct reverse; [|apply stable_sort_map].
  now rewrite <- map_rev, stable_sort_map, map_rev.
Qed.

End SortMap.

Section SetSize.

Context {A : Type} `{Countable A}.

(** [len(set(l))] is the number of keys of [Counter(l)]. *)
Lemma size_set_Counter (l : list A) :
  size (list_to_set l : gset A) = length (Counter l).
Proof.
  destruct (Counter_spec l) as (Hnd & Hkeys & _).
  rewrite <- (length_map fst).
  rewrite <- (size_list_to_set (C := gset A) (map fst (Counter l)))
    by now apply NoDup_ListNoDup.
  f_equal. apply set_eq. intros v.
  rewrite !elem_of_list_to_set, !list_elem_of_In. symmetry. apply Hkeys.
Qed.

End SetSize.

(** ** Comprehensions that can raise *)

Section MapMFacts.

Context {A B : Type}.

Lemma mapM_first_raise (f : A -> result B) (pre : list A) (x : A)
    (post : list A) (e : pyerr) :
  (forall y, In y pre -> exists b, f y = Ok b) -> f x = Raise e ->
  mapM f (pre ++ x :: post) = Raise e.
Proof.
  intros Hpre Hx. induction pre as [|y pre IH]; simpl.
  - now rewrite Hx.
  - destruct (Hpre y) as (b & ->); [now left|]. simpl.
    rewrite IH; [reflexivity|]. intros z Hz. apply Hpre. now right.
Qed.

Lemma mapM_Ok_Forall2 (f : A -> result B) (l : list A) (r : list B) :
  mapM f l = Ok r -> Forall2 (fun x y => f x = Ok y) l r.
Proof.
  revert r. induction l as [|x l IH]; simpl; intros r.
  - intros [= <-]. constructor.
  - destruct (f x) as [y|] eqn:Ex; simpl; [|discriminate].
    destruct (mapM f l) as [ys|]; simpl; [|discriminate].
    intros [= <-]. constructor; [assumption | now apply IH].
Qed.

Lemma mapM_app (f : A -> result B) (l1 l2 : list A) :
  mapM f (l1 ++ l2)
  = bind (mapM f l1) (fun r1 => bind (mapM f l2) (fun r2 => Ok (r1 ++ r2))).
Proof.
  induction l1 as [|x l1 IH]; simpl.
  - destruct (mapM f l2); reflexivity.
  - destruct (f x); simpl; [|reflexivity]. rewrite IH.
    destruct (mapM f l1); simpl; [|reflexivity].
    destruct (mapM f l2); reflexivity.
Qed.

(** A comprehension over the flat list gives the concatenation of the
    comprehensions over the records. *)
Lemma mapM_concat (f : A -> result B) (ll : list (list A)) (r : list B)
    (rr : list (list B)) :
  mapM f (concat ll) = Ok r -> mapM (mapM f) ll = Ok rr -> r = concat rr.
Proof.
  revert r rr. induction ll as [|l ll IH]; simpl; intros r rr.
  - intros [= <-] [= <-]. reflexivity.
  - rewrite mapM_app.
    destruct (mapM f l) as [r1|]; simpl; [|discriminate].
    destruct (mapM f (concat ll)) as [r2|]; simpl; [|discriminate].
    destruct (mapM (mapM f) ll) as [rr2|]; simpl; [|discriminate].
    intros [= <-] [= <-]. simpl. f_equal. now apply IH.
Qed.

Lemma mapM_concat_Ok (f : A -> result B) (ll : list (list A)) (r : list B) :
  mapM f (concat ll) = Ok r -> exists rr, mapM (mapM f) ll = Ok rr.
Proof.
  revert r. induction ll as [|l ll IH]; simpl; intros r; [now eexists|].
  rewrite mapM_app.
  destruct (mapM f l) as [r1|]; simpl; [|discriminate].
  destruct (mapM f (concat ll)) as [r2|] eqn:E; simpl; [|discriminate].
  intros _. destruct (IH r2 eq_refl) as (rr & ->). simpl. now eexists.
Qed.

End MapMFacts.

(** ** The frequency table and the distinct values *)

Section FreqFacts.

Lemma counter_add_weighted (x : nat) (c : list (nat * nat)) :
  list_sum (map (fun p => fst p * snd p) (counter_add x c))
  = list_sum (map (fun p => fst p * snd p) c) + x.
Proof.
  induction c as [|[y n] c IH]; simpl; [lia|].
  destruct (decide (x = y)) as [->|Hne]; simpl; [lia|]. rewrite IH. lia.
Qed.

Lemma Counter_weighted (l : list nat) :
  list_sum (map (fun p => fst p * snd p) (Counter l)) = list_sum l.
Proof.
  induction l as [|x l IH] using rev_ind; [reflexivity|].
  rewrite Counter_snoc, counter_add_weighted, IH, list_sum_app. simpl. lia.
Qed.

Context (ucd : UCD).

(** X1: the frequency table.  When precomputed matches, if any, hold one
    list per record, the frequency table of every summary [extract]
    returns lists its pairs (number of matches, number of records) in
    strictly ascending order of the number of matches; the pairs are the
    numbers of matches that some record has, each with the number of
    records that have it; the record counts add up to the number of
    records, and the products of the two entries add up to the number of
    matches. *)
Theorem extract_freq_table (text_list : str_or_list) (regex : Pattern)
    (key : string) (extracted : option (list (list mval))) (s : Summary) :
  (forall e, extracted = Some e -> length e = length (as_list text_list)) ->
  extract ucd text_list regex key extracted = Ok s ->
  StronglySorted (fun a b => fst a < fst b) (F_freq s) /\
  (forall c n, In (c, n) (F_freq s) <->
               n = occ c (F_counts s) /\ In c (F_counts s)) /\
  list_sum (map snd (F_freq s)) = length (as_list text_list) /\
  list_sum (map (fun p => fst p * snd p) (F_freq s))
  = num_F (overview s).
Proof.
  intros Hpre Hs.
  apply extract_Ok_inv in Hs as (Hne & q & ->). summary_simpl.
  assert (Hlen : length (map (@length mval)
                           (matches_used ucd text_list regex extracted))
                 = length (as_list text_list)).
  { rewrite length_map. unfold matches_used.
    destruct extracted as [[|x xs]|];
      [apply length_map | now apply Hpre | apply length_map]. }
  pose proof (summary_counts (matches_used ucd text_list regex extracted))
    as Hsum.
  set (counts := map (@length mval)
                   (matches_used ucd text_list regex extracted)) in *.
  split; [|split; [|split]].
  - pose proof (sorted_counter_NoDup fst false counts) as Hnd.
    unfold py_sorted in *.
    destruct (Counter_spec counts) as (Hnd' & _).
    apply NoDup_keys_distinct in Hnd'.
    apply (stable_sort_sorted fst) in Hnd'.
    eapply StronglySorted_weaken; [|exact Hnd'].
    intros a b _ _ [Hlt|[Heq Hneq]]; [assumption | contradiction].
  - intros c n. apply sorted_counter_entries.
  - rewrite sorted_counter_sum. exact Hlen.
  - rewrite (list_sum_Permutation _ _
               (Permutation_map (fun p => fst p * snd p)
                  (py_sorted_perm fst false (Counter counts)))).
    rewrite Counter_weighted. exact Hsum.
Qed.

(** X2: distinct values.  In every summary [extract] returns the count of
    distinct values of the overview is the length of the ranking; it is
    at most the number of matches, and the ranking is empty exactly when
    there is no match at all. *)
Theorem extract_unique_is_ranking_length (text_list : str_or_list)
    (regex : Pattern) (key : string)
    (extracted : option (list (list mval))) (s : Summary) :
  extract ucd text_list regex key extracted = Ok s ->
  unique_F (overview s) = length (top_F_s s) /\
  unique_F (overview s) <= num_F (overview s) /\
  (top_F_s s = [] <-> num_F (overview s) = 0).
Proof.
  intros Hs. apply extract_Ok_inv in Hs as (Hne & q & ->). summary_simpl.
  set (flat := concat (matches_used ucd text_list regex extracted)).
  assert (Hlen : length (py_sorted snd true (Counter flat))
                 = length (Counter flat))
    by (apply Permutation_length, py_sorted_perm).
  assert (Hsize : size (list_to_set flat : gset mval)
                  = length (Counter flat)) by apply size_set_Counter.
  split; [|split].
  - now rewrite Hsize, Hlen.
  - rewrite Hsize. apply Counter_length_le.
  - split.
    + intros Htop. rewrite Htop in Hlen. simpl in Hlen.
      pose proof (Counter_sum flat) as Hsum.
      destruct (Counter flat); [simpl in Hsum; lia | discriminate].
    + intros Hz. destruct flat; [reflexivity | discriminate].
Qed.

End FreqFacts.

(** ** Emoji: outcome, names and rankings *)

Section EmojiMore.

Context (ucd : UCD).
Context (EMOJI_findall : str -> list str).
Context (EMOJI_ENTRIES : gmap str EmojiEntry).

Lemma entry_field_Ok (proj : EmojiEntry -> str) (em : str) (y : str) :
  entry_field EMOJI_ENTRIES proj em = Ok y <->
  exists e, EMOJI_ENTRIES !! em = Some e /\ y = proj e.
Proof.
  unfold entry_field, emoji_entry.
  destruct (EMOJI_ENTRIES !! em) as [e|]; simpl.
  - split; [intros [= <-]; now exists e|].
    intros (e' & [= <-] & ->). reflexivity.
  - split; [discriminate | intros (e' & [=] & _)].
Qed.

Lemma entry_field_all (proj : EmojiEntry -> str) (l : list str) :
  all_known EMOJI_ENTRIES l ->
  exists r, mapM (entry_field EMOJI_ENTRIES proj) l = Ok r.
Proof.
  intros Hall. apply mapM_Ok_all. intros em Hem.
  unfold all_known in Hall. rewrite List.Forall_forall in Hall.
  specialize (Hall em Hem). unfold entry_field, emoji_entry.
  destruct (EMOJI_ENTRIES !! em); [now eexists | congruence].
Qed.

Lemma extract_emoji_unfold (text_list : list str) :
  extract_emoji ucd EMOJI_findall EMOJI_ENTRIES text_list =
  let emoji := map (fun text => EMOJI_findall (lower ucd text)) text_list in
  let emoji_flat := emoji_matched ucd EMOJI_findall text_list in
  bind (mapM (entry_field EMOJI_ENTRIES entry_name) emoji_flat)
    (fun emoji_flat_text =>
  bind (mapM (entry_field EMOJI_ENTRIES entry_group) emoji_flat)
    (fun emoji_groups =>
  bind (mapM (entry_field EMOJI_ENTRIES entry_sub_group) emoji_flat)
    (fun emoji_sub_groups =>
  bind (mapM (mapM (entry_field EMOJI_ENTRIES entry_name)) emoji)
    (fun emoji_text =>
  bind (true_div (length emoji_flat) (length text_list))
    (fun per_post =>
  Ok {| emoji := emoji;
        emoji_text := emoji_text;
        emoji_flat := emoji_flat;
        emoji_flat_text := emoji_flat_text;
        emoji_counts := map (@length str) emoji;
        emoji_freq := py_sorted fst false
                        (Counter (map (@length str) emoji));
        top_emoji := py_sorted snd true (Counter emoji_flat);
        top_emoji_text := py_sorted snd true (Counter emoji_flat_text);
        top_emoji_groups := py_sorted snd true (Counter emoji_groups);
        top_emoji_sub_groups :=
          py_sorted snd true (Counter emoji_sub_groups);
        emoji_overview :=
          {| num_posts := length text_list;
             num_F := length emoji_flat;
             F_per_post := per_post;
             unique_F := size (list_to_set emoji_flat : gset str) |} |}))))).
Proof. reflexivity. Qed.

(** X3: the outcome of [extract_emoji].  When the graphemes matched in
    the records, in order, are known to the table up to a first one [k]
    that is not, the key error of [k] is raised: the first grapheme
    without an entry decides.  When all of them are known, the division
    error is raised on an empty list of records and a summary is returned
    on any other. *)
Theorem extract_emoji_outcome (text_list : list str) :
  (forall pre k post,
     emoji_matched ucd EMOJI_findall text_list = pre ++ k :: post ->
     all_known EMOJI_ENTRIES pre ->
     EMOJI_ENTRIES !! k = None ->
     extract_emoji ucd EMOJI_findall EMOJI_ENTRIES text_list
     = Raise (KeyError k)) /\
  (all_known EMOJI_ENTRIES (emoji_matched ucd EMOJI_findall text_list) ->
   (text_list = [] ->
    extract_emoji ucd EMOJI_findall EMOJI_ENTRIES text_list
    = Raise ZeroDivisionError) /\
   (text_list <> [] ->
    exists s, extract_emoji ucd EMOJI_findall EMOJI_ENTRIES text_list = Ok s)).
Proof.
  rewrite extract_emoji_unfold. cbv zeta. split.
  - intros pre k post Hflat Hpre Hk. rewrite Hflat.
    rewrite (mapM_first_raise _ pre k post (KeyError k)); [reflexivity| |].
    + intros y Hy. unfold all_known in Hpre.
      rewrite List.Forall_forall in Hpre. specialize (Hpre y Hy).
      unfold entry_field, emoji_entry.
      destruct (EMOJI_ENTRIES !! y); [now eexists | congruence].
    + unfold entry_field, emoji_entry. now rewrite Hk.
  - intros Hall.
    destruct (entry_field_all entry_name _ Hall) as (ft & Hft).
    destruct (entry_field_all entry_group _ Hall) as (gs & Hgs).
    destruct (entry_field_all entry_sub_group _ Hall) as (sgs & Hsgs).
    destruct (mapM_concat_Ok _ _ _ Hft) as (txt & Htxt).
    rewrite Hft, Hgs, Hsgs. cbn [bind]. rewrite Htxt. cbn [bind].
    split.
    + intros ->. reflexivity.
    + intros Hne. rewrite true_div_pos; [cbn [bind]; now eexists|].
      destruct text_list; [congruence | discriminate].
Qed.

Lemma extract_emoji_Ok_inv (text_list : list str) (s : EmojiSummary) :
  extract_emoji ucd EMOJI_findall EMOJI_ENTRIES text_list = Ok s ->
  text_list <> [] /\
  emoji s = map (fun text => EMOJI_findall (lower ucd text)) text_list /\
  emoji_flat s = emoji_matched ucd EMOJI_findall text_list /\
  mapM (entry_field EMOJI_ENTRIES entry_name) (emoji_flat s)
  = Ok (emoji_flat_text s) /\
  mapM (mapM (entry_field EMOJI_ENTRIES entry_name)) (emoji s)
  = Ok (emoji_text s) /\
  (exists groups,
     mapM (entry_field EMOJI_ENTRIES entry_group) (emoji_flat s) = Ok groups /\
     top_emoji_groups s = py_sorted snd true (Counter groups)) /\
  (exists sub_groups,
     mapM (entry_field EMOJI_ENTRIES entry_sub_group) (emoji_flat s)
     = Ok sub_groups /\
     top_emoji_sub_groups s = py_sorted snd true (Counter sub_groups)) /\
  top_emoji_text s = py_sorted snd true (Counter (emoji_flat_text s)) /\
  top_emoji s = py_sorted snd true (Counter (emoji_flat s)) /\
  emoji_counts s = map (@length str) (emoji s) /\
  emoji_freq s = py_sorted fst false (Counter (emoji_counts s)) /\
  emoji_overview s
  = {| num_posts := length text_list;
       num_F := length (emoji_flat s);
       F_per_post := float_div (int_operand (length (emoji_flat s)))
                       (int_operand (length text_list));
       unique_F := size (list_to_set (emoji_flat s) : gset str) |}.
Proof.
  rewrite extract_emoji_unfold. cbv zeta.
  destruct (mapM (entry_field EMOJI_ENTRIES entry_name) _) as [ft|] eqn:Eft;
    cbn [bind]; [|discriminate].
  destruct (mapM (entry_field EMOJI_ENTRIES entry_group) _) as [gs|] eqn:Egs;
    cbn [bind]; [|discriminate].
  destruct (mapM (entry_field EMOJI_ENTRIES entry_sub_group) _)
    as [sgs|] eqn:Esgs; cbn [bind]; [|discriminate].
  destruct (mapM (mapM _) _) as [txt|] eqn:Etxt; cbn [bind]; [|discriminate].
  destruct text_list as [|t ts]; [discriminate|].
  rewrite true_div_pos by discriminate. cbn [bind]. intros [= <-].
  cbn [emoji emoji_flat emoji_flat_text emoji_text top_emoji_groups
       top_emoji_sub_groups top_emoji_text top_emoji emoji_counts emoji_freq
       emoji_overview].
  split; [discriminate|]. split; [reflexivity|]. split; [reflexivity|].
  split; [exact Eft|]. split; [exact Etxt|].
  split; [exists gs; split; [exact Egs | reflexivity]|].
  split; [exists sgs; split; [exact Esgs | reflexivity]|].
  repeat split.
Qed.

End EmojiMore.

Section EmojiMore2.

Context (ucd : UCD).
Context (EMOJI_findall : str -> list str).
Context (EMOJI_ENTRIES : gmap str EmojiEntry).

Lemma entry_field_Forall2 (proj : EmojiEntry -> str) (l r : list str) :
  mapM (entry_field EMOJI_ENTRIES proj) l = Ok r ->
  Forall2 (fun em y => exists e, EMOJI_ENTRIES !! em = Some e /\ y = proj e)
    l r.
Proof.
  intros Hm. apply mapM_Ok_Forall2 in Hm.
  eapply Forall2_impl; [exact Hm|].
  intros em y Hy. now apply entry_field_Ok.
Qed.

(** X4: names beside graphemes.  In every summary [extract_emoji]
    returns there is one list of graphemes per record, the flat lists of
    graphemes and of names are the concatenations of the per-record
    lists, and the names run parallel to the graphemes, record by record:
    each name is the name of the table's entry of the grapheme at the
    same place. *)
Theorem extract_emoji_text_parallel (text_list : list str)
    (s : EmojiSummary) :
  extract_emoji ucd EMOJI_findall EMOJI_ENTRIES text_list = Ok s ->
  length (emoji s) = length text_list /\
  emoji_flat s = concat (emoji s) /\
  emoji_flat_text s = concat (emoji_text s) /\
  Forall2
    (Forall2 (fun em name =>
                exists e, EMOJI_ENTRIES !! em = Some e /\ name = entry_name e))
    (emoji s) (emoji_text s).
Proof.
  intros Hs.
  apply extract_emoji_Ok_inv in Hs
    as (_ & Hem & Hflat & Hft & Htxt & _).
  split; [rewrite Hem; apply length_map|].
  split; [now rewrite Hflat, Hem|].
  split.
  - eapply mapM_concat; [|exact Htxt].
    rewrite Hflat in Hft. unfold emoji_matched in Hft.
    rewrite <- Hem in Hft. exact Hft.
  - apply mapM_Ok_Forall2 in Htxt.
    eapply Forall2_impl; [exact Htxt|].
    intros l r Hlr. now apply entry_field_Forall2.
Qed.

Lemma derived_ranking (proj : EmojiEntry -> str) (flat derived : list str) :
  mapM (entry_field EMOJI_ENTRIES proj) flat = Ok derived ->
  Forall2 (fun em y => exists e, EMOJI_ENTRIES !! em = Some e /\ y = proj e)
    flat derived /\
  ranking_of derived (py_sorted snd true (Counter derived)) /\
  list_sum (map snd (py_sorted snd true (Counter derived))) = length flat /\
  length (py_sorted snd true (Counter derived))
  <= length (py_sorted snd true (Counter flat)).
Proof.
  intros Hm. pose proof (entry_field_Forall2 _ _ _ Hm) as HF.
  split; [exact HF|]. split; [apply sorted_counter_ranking|]. split.
  - rewrite sorted_counter_sum. symmetry. eapply Forall2_length, HF.
  - rewrite !(Permutation_length (py_sorted_perm snd true _)).
    set (g := fun em => match entry_field EMOJI_ENTRIES proj em with
                        | Ok y => y
                        | Raise _ => []
                        end).
    destruct (Counter_spec derived) as (Hnd & Hkeys & _).
    destruct (Counter_spec flat) as (_ & Hkeys' & _).
    rewrite <- (length_map fst (Counter derived)).
    rewrite <- (length_map fst (Counter flat)).
    rewrite <- (length_map g (map fst (Counter flat))).
    apply NoDup_incl_length; [exact Hnd|].
    intros y Hy. apply Hkeys in Hy.
    apply mapM_Ok_Forall2 in Hm.
    assert (Hex : exists em, In em flat /\
                             entry_field EMOJI_ENTRIES proj em = Ok y).
    { clear -Hm Hy. induction Hm as [|em y' l r Hxy Hm IH]; [destruct Hy|].
      destruct Hy as [->|Hy].
      - exists em. split; [now left | assumption].
      - destruct (IH Hy) as (em' & Hin & He). exists em'.
        split; [now right | assumption]. }
    destruct Hex as (em & Hin & He). apply in_map_iff. exists em.
    split; [unfold g; now rewrite He | now apply Hkeys'].
Qed.

(** X5: the rankings of names, groups and sub-groups.  In every summary
    [extract_emoji] returns, the names, groups and sub-groups counted are
    those of the table's entries of the flat graphemes, in order, and
    each of the three rankings is the ranking of its list: every distinct
    name (group, sub-group) once, with its number of occurrences, by
    descending number, ties by first occurrence.  The numbers of each
    ranking add up to the number of graphemes, and none of the three is
    longer than the ranking of the graphemes themselves. *)
Theorem extract_emoji_derived_rankings (text_list : list str)
    (s : EmojiSummary) :
  extract_emoji ucd EMOJI_findall EMOJI_ENTRIES text_list = Ok s ->
  exists groups sub_groups,
    Forall2 (fun em y =>
               exists e, EMOJI_ENTRIES !! em = Some e /\ y = entry_name e)
      (emoji_flat s) (emoji_flat_text s) /\
    Forall2 (fun em y =>
               exists e, EMOJI_ENTRIES !! em = Some e /\ y = entry_group e)
      (emoji_flat s) groups /\
    Forall2 (fun em y =>
               exists e, EMOJI_ENTRIES !! em = Some e /\
                         y = entry_sub_group e)
      (emoji_flat s) sub_groups /\
    ranking_of (emoji_flat_text s) (top_emoji_text s) /\
    ranking_of groups (top_emoji_groups s) /\
    ranking_of sub_groups (top_emoji_sub_groups s) /\
    list_sum (map snd (top_emoji_text s)) = num_F (emoji_overview s) /\
    list_sum (map snd (top_emoji_groups s)) = num_F (emoji_overview s) /\
    list_sum (map snd (top_emoji_sub_groups s)) = num_F (emoji_overview s) /\
    length (top_emoji_text s) <= length (top_emoji s) /\
    length (top_emoji_groups s) <= length (top_emoji s) /\
    length (top_emoji_sub_groups s) <= length (top_emoji s).
Proof.
  intros Hs.
  apply extract_emoji_Ok_inv in Hs
    as (_ & _ & _ & Hft & _ & (gs & Hgs & Htg) & (sgs & Hsgs & Htsg)
        & Htt & Hte & _ & _ & Hov).
  exists gs, sgs.
  rewrite Hov, Htt, Htg, Htsg, Hte. cbn [num_F].
  destruct (derived_ranking _ _ _ Hft) as (H0 & H1 & H2 & H3).
  destruct (derived_ranking _ _ _ Hgs) as (G0 & G1 & G2 & G3).
  destruct (derived_ranking _ _ _ Hsgs) as (S0 & S1 & S2 & S3).
  split; [exact H0|]. split; [exact G0|]. split; [exact S0|].
  split; [exact H1|]. split; [exact G1|]. split; [exact S1|].
  split; [exact H2|]. split; [exact G2|]. split; [exact S2|].
  split; [exact H3|]. split; [exact G3 | exact S3].
Qed.

(** X6: [extract_emoji] and the engine.  Whenever [extract_emoji] returns
    a summary, [extract] with the pattern [EMOJI] and the key [emoji]
    returns one on the same records, with the same per-record matches,
    flat list, counts, frequency table, ranking and overview. *)
Theorem extract_emoji_agrees_with_extract (text_list : list str)
    (s : EmojiSummary) :
  extract_emoji ucd EMOJI_findall EMOJI_ENTRIES text_list = Ok s ->
  exists b,
    extract ucd (StrList text_list) (EMOJI_pattern EMOJI_findall) "emoji"
      None = Ok b /\
    F_s b = map (map MStr) (emoji s) /\
    F_s_flat b = map MStr (emoji_flat s) /\
    F_counts b = emoji_counts s /\
    F_freq b = emoji_freq s /\
    top_F_s b = map (fun p => (MStr (fst p), snd p)) (top_emoji s) /\
    overview b = emoji_overview s.
Proof.
  intros Hs.
  apply extract_emoji_Ok_inv in Hs
    as (Hne & Hem & Hflat & _ & _ & _ & _ & _ & Hte & Hc & Hf & Hov).
  eexists. split; [apply extract_nonempty; exact Hne|]. summary_simpl.
  cbn [matches_used as_list EMOJI_pattern findall].
  assert (Hm : map (fun text => map MStr (EMOJI_findall (lower ucd text)))
                 text_list = map (map MStr) (emoji s))
    by (rewrite Hem, map_map; reflexivity).
  rewrite Hm.
  assert (Hcat : concat (map (map MStr) (emoji s)) = map MStr (emoji_flat s)).
  { rewrite Hflat. unfold emoji_matched. rewrite <- Hem.
    now rewrite concat_map. }
  assert (Hlen : map (@length mval) (map (map MStr) (emoji s))
                 = emoji_counts s).
  { rewrite Hc, map_map. apply map_ext. intros l. apply length_map. }
  rewrite Hcat, Hlen.
  split; [reflexivity|]. split; [reflexivity|]. split; [reflexivity|].
  split; [now rewrite Hf|]. split.
  - rewrite Hte, (Counter_map MStr) by (intros x y [=]; assumption).
    apply py_sorted_map. reflexivity.
  - rewrite Hov, length_map, !size_set_Counter.
    rewrite (Counter_map MStr) by (intros x y [=]; assumption).
    now rewrite length_map.
Qed.

End EmojiMore2.

(** ** URLs: hosts and top-level domains *)

Section MapMFacts2.

Context {A B : Type}.

Lemma mapM_concat_nested (f : A -> result B) (ll : list (list A))
    (rr : list (list B)) :
  mapM (mapM f) ll = Ok rr -> mapM f (concat ll) = Ok (concat rr).
Proof.
  revert rr. induction ll as [|l ll IH]; simpl; intros rr.
  - intros [= <-]. reflexivity.
  - rewrite mapM_app.
    destruct (mapM f l) as [r1|]; simpl; [|discriminate].
    destruct (mapM (mapM f) ll) as [rr2|]; simpl; [|discriminate].
    intros [= <-]. rewrite (IH rr2 eq_refl). reflexivity.
Qed.

Lemma mapM_Ok_map (h : A -> B) (l : list A) :
  mapM (fun x => Ok (h x)) l = Ok (map h l).
Proof. induction l as [|x l IH]; simpl; [reflexivity | now rewrite IH]. Qed.

Context `{EqDecision A} `{EqDecision B}.

(** Images are no more numerous than what they are images of. *)
Lemma Counter_image_le (f : A -> result B) (l : list A) (r : list B) :
  mapM f l = Ok r -> length (Counter r) <= length (Counter l).
Proof.
  intros Hm.
  set (g := fun x => match f x with Ok y => Some y | Raise _ => None end).
  destruct (Counter_spec r) as (Hnd & Hkeys & _).
  destruct (Counter_spec l) as (_ & Hkeys' & _).
  rewrite <- (length_map fst (Counter r)).
  rewrite <- (length_map Some (map fst (Counter r))).
  rewrite <- (length_map fst (Counter l)).
  rewrite <- (length_map g (map fst (Counter l))).
  apply NoDup_incl_length.
  - apply Finite.Injective_map_NoDup; [|exact Hnd]. intros x y [=]. assumption.
  - intros oy Hy. apply in_map_iff in Hy as (y & <- & Hy).
    apply Hkeys in Hy. apply mapM_Ok_Forall2 in Hm.
    assert (Hex : exists x, In x l /\ f x = Ok y).
    { clear -Hm Hy. induction Hm as [|x y' l r Hxy Hm IH]; [destruct Hy|].
      destruct Hy as [->|Hy].
      - exists x. split; [now left | assumption].
      - destruct (IH Hy) as (x' & Hin & He). exists x'.
        split; [now right | assumption]. }
    destruct Hex as (x & Hin & He). apply in_map_iff. exists x.
    split; [unfold g; now rewrite He | now apply Hkeys'].
Qed.

End MapMFacts2.

Section UrlMore.

Context (ucd : UCD).
Context (URL_findall : str -> list str).

Lemma extract_urls_unfold (text_list : list str) :
  extract_urls ucd URL_findall text_list =
  let extracted :=
    map (fun x => map (add_scheme ucd) (URL_findall x)) text_list in
  bind (mapM (mapM netloc) extracted)
    (fun domains =>
  bind (extract ucd (StrList text_list) (URL URL_findall) "url"
          (Some (map (map MStr) extracted)))
    (fun summary =>
  Ok {| url_base := summary;
        top_domains := py_sorted snd true (Counter (concat domains));
        top_tlds :=
          py_sorted snd true (Counter (concat (map (map tld) domains))) |})).
Proof. reflexivity. Qed.

(** X7: the rewriting of matched tokens is idempotent: a token that has
    been given its scheme is left as it is when rewritten again. *)
Theorem add_scheme_idempotent (u : str) :
  add_scheme ucd (add_scheme ucd u) = add_scheme ucd u.
Proof.
  destruct (add_scheme_normal ucd u) as [Hw Hf].
  unfold add_scheme at 1. now rewrite Hw, Hf.
Qed.

Lemma split_on_pieces (sep : cp) (s : str) :
  split_on sep s <> [] /\ Forall (fun w => ~ In sep w) (split_on sep s).
Proof.
  induction s as [|c s [Hne Hall]]; simpl.
  - split; [discriminate|]. constructor; [tauto | constructor].
  - destruct (c =? sep)%N eqn:Ec.
    + split; [discriminate|]. constructor; [tauto | assumption].
    + apply N.eqb_neq in Ec.
      destruct (split_on sep s) as [|w ws]; [congruence|].
      split; [discriminate|]. inversion Hall; subst.
      constructor; [|assumption].
      intros [Heq|Hin]; [congruence | contradiction].
Qed.

Lemma tld_no_dot (d : str) : ~ In 46%N (tld d).
Proof.
  unfold tld. destruct (split_on_pieces 46%N d) as [Hne Hall].
  rewrite List.Forall_forall in Hall. apply Hall.
  destruct (split_on 46%N d) as [|w ws]; [congruence|].
  clear. revert w. induction ws as [|w' ws IH]; intros w; [now left|].
  right. apply IH.
Qed.

(** X8: hosts and top-level domains.  In every summary [extract_urls]
    returns, the hosts are the network locations of the URLs of the flat
    list, in order; the ranking of hosts is the ranking of that list and
    the ranking of top-level domains is the ranking of the hosts' last
    dot-separated labels: every distinct value once, with its number of
    occurrences, by descending number, ties by first occurrence.  The
    numbers of each ranking add up to the number of URLs; there are no
    more top-level domains than hosts and no more hosts than distinct
    URLs; and no top-level domain contains a dot. *)
Theorem extract_urls_rankings (text_list : list str) (s : UrlSummary) :
  extract_urls ucd URL_findall text_list = Ok s ->
  exists hosts,
    Forall2 (fun v h => exists u, v = MStr u /\ netloc u = Ok h)
      (F_s_flat (url_base s)) hosts /\
    ranking_of hosts (top_domains s) /\
    ranking_of (map tld hosts) (top_tlds s) /\
    list_sum (map snd (top_domains s)) = num_F (overview (url_base s)) /\
    list_sum (map snd (top_tlds s)) = num_F (overview (url_base s)) /\
    length (top_tlds s) <= length (top_domains s) /\
    length (top_domains s) <= length (top_F_s (url_base s)) /\
    Forall (fun p => ~ In 46%N (fst p)) (top_tlds s).
Proof.
  rewrite extract_urls_unfold. cbv zeta.
  set (extracted := map (fun x => map (add_scheme ucd) (URL_findall x))
                      text_list).
  destruct (mapM (mapM netloc) extracted) as [domains|] eqn:Ed;
    cbn [bind]; [|discriminate].
  destruct (extract _ _ _ _ _) as [b|] eqn:Eb; cbn [bind]; [|discriminate].
  intros [= <-]. cbn [url_base top_domains top_tlds].
  apply extract_Ok_inv in Eb as (Hne & q & ->). summary_simpl.
  assert (Hm : matches_used ucd (StrList text_list) (URL URL_findall)
                 (Some (map (map MStr) extracted))
               = map (map MStr) extracted).
  { simpl in Hne. subst extracted.
    destruct text_list; [congruence | reflexivity]. }
  rewrite Hm, <- concat_map.
  pose proof (mapM_concat_nested _ _ _ Ed) as Hflat.
  set (urls := concat extracted) in *. set (hosts := concat domains) in *.
  pose proof (mapM_Ok_Forall2 _ _ _ Hflat) as HF.
  assert (Hlen : length hosts = length urls)
    by (symmetry; eapply Forall2_length, HF).
  exists hosts.
  replace (concat (map (map tld) domains)) with (map tld hosts)
    by (unfold hosts; now rewrite concat_map).
  split.
  { clear -HF. induction HF as [|u h us hs Hu HF IH]; simpl; constructor;
      [now exists u | assumption]. }
  split; [apply sorted_counter_ranking|].
  split; [apply sorted_counter_ranking|].
  repeat match goal with
  | |- context [rev (stable_sort ?k (rev ?x))] =>
      change (rev (stable_sort k (rev x))) with (py_sorted k true x)
  end.
  rewrite !sorted_counter_sum, !length_map.
  split; [exact Hlen|]. split; [exact Hlen|].
  rewrite !(Permutation_length (py_sorted_perm snd true _)).
  split; [|split].
  - apply (Counter_image_le (fun h => Ok (tld h))). apply mapM_Ok_map.
  - rewrite (Counter_map MStr) by (intros x y [=]; assumption).
    rewrite length_map. eapply Counter_image_le, Hflat.
  - rewrite List.Forall_forall. intros [t n] Ht. simpl.
    apply sorted_counter_entries in Ht as [_ Ht].
    apply in_map_iff in Ht as (h & <- & _). apply tld_no_dot.
Qed.

End UrlMore.

(** ** Intense words: the threshold *)

Section IntenseMore.

Context (ucd : UCD).



Lemma has_run_zero (s : str) : s <> [] -> has_run 0 s = true.
Proof. destruct s; [congruence | reflexivity]. Qed.

Lemma has_run_mono (n n' : nat) (s : str) :
  1 <= n -> n <= n' -> has_run n' s = true -> has_run n s = true.
Proof.
  intros H1 Hle H.
  destruct n as [|m]; [lia|]. destruct n' as [|m']; [lia|].
  apply has_run_spec in H as (l & c & r & ->). apply has_run_spec.
  exists l, c, (repeat c (S m' - S m) ++ r).
  rewrite (app_assoc (repeat c (S m))), <- repeat_app.
  now replace (S m + (S m' - S m)) with (S m') by lia.
Qed.


Lemma filter_filter_weaker {A} (p q : A -> bool) (l : list A) :
  (forall x, q x = true -> p x = true) ->
  List.filter q (List.filter p l) = List.filter q l.
Proof.
  intros Hqp. induction l as [|x l IH]; simpl; [reflexivity|].
  destruct (p x) eqn:Ep; simpl.
  - now rewrite IH.
  - destruct (q x) eqn:Eq; [|exact IH].
    apply Hqp in Eq. congruence.
Qed.

Lemma filter_map_MStr (n : nat) (l : list str) :
  List.filter (mval_has_run n) (map MStr l)
  = map MStr (List.filter (has_run n) l).
Proof.
  induction l as [|x l IH]; simpl; [reflexivity|].
  destruct (has_run n x); simpl; now rewrite IH.
Qed.


Lemma extract_intense_words_matches (text_list : list str) (min_reps : Z)
    (s : Summary) :
  (1 <= min_reps)%Z ->
  extract_intense_words ucd text_list min_reps = Ok s ->
  F_s s = map (fun text =>
                 map MStr (List.filter (has_run (Z.to_nat min_reps))
                             (tokens ucd text)))
            text_list.
Proof.
  intros Hmin. unfold extract_intense_words. intros H.
  apply extract_Ok_inv in H as (Hne & q & ->). summary_simpl.
  simpl in Hne. destruct text_list as [|t ts]; [congruence|].
  cbn [map matches_used]. f_equal.
  - apply (findall_intense ucd min_reps Hmin).
  - apply map_ext. intros text. apply (findall_intense ucd min_reps Hmin).
Qed.

(** X9: a larger [min_reps] reports less.  For [1 <= m <= n], on the same
    records the intense words for [n] are, record by record, those of the
    intense words for [m] that have a run of [n]; so there are no more of
    them, and each is among those for [m]. *)
Theorem extract_intense_words_monotone (text_list : list str)
    (m n : Z) (s s' : Summary) :
  (1 <= m <= n)%Z ->
  extract_intense_words ucd text_list m = Ok s ->
  extract_intense_words ucd text_list n = Ok s' ->
  F_s s' = map (List.filter (mval_has_run (Z.to_nat n))) (F_s s) /\
  num_F (overview s') <= num_F (overview s) /\
  incl (F_s_flat s') (F_s_flat s).
Proof.
  intros Hmn Hs Hs'.
  assert (Hm : (1 <= m)%Z) by lia. assert (Hn1 : (1 <= n)%Z) by lia.
  pose proof (extract_intense_words_matches _ _ _ Hm Hs) as E.
  pose proof (extract_intense_words_matches _ _ _ Hn1 Hs') as E'.
  assert (Hf : F_s s' = map (List.filter (mval_has_run (Z.to_nat n))) (F_s s)).
  { rewrite E, E', map_map. apply map_ext. intros text.
    rewrite filter_map_MStr. f_equal. symmetry.
    apply filter_filter_weaker. intros x.
    apply has_run_mono; lia. }
  unfold extract_intense_words in Hs, Hs'.
  apply extract_Ok_inv in Hs as (_ & q & Es).
  apply extract_Ok_inv in Hs' as (_ & q' & Es').
  assert (Hflat : F_s_flat s = concat (F_s s)) by (rewrite Es; reflexivity).
  assert (Hflat' : F_s_flat s' = concat (F_s s'))
    by (rewrite Es'; reflexivity).
  assert (Hn : num_F (overview s) = length (F_s_flat s))
    by (rewrite Es; reflexivity).
  assert (Hn' : num_F (overview s') = length (F_s_flat s'))
    by (rewrite Es'; reflexivity).
  split; [exact Hf|].
  rewrite Hn, Hn', Hflat, Hflat', Hf. clear.
  generalize (F_s s) as ll. intros ll. split.
  - induction ll as [|l ll IH]; simpl; [lia|].
    rewrite !length_app.
    pose proof (filter_length_le (mval_has_run (Z.to_nat n)) l).
    lia.
  - induction ll as [|l ll IH]; simpl; [easy|].
    apply incl_app_app; [apply incl_filter | exact IH].
Qed.


End IntenseMore.

(** ** Words: what the pattern reports *)

Section WordMore.

Context (ucd : UCD).

Lemma ngroups_lit (x : str) : ngroups (lit x) = 0.
Proof. induction x as [|c x IH]; [reflexivity | exact IH]. Qed.

Lemma ngroups_alt_join (rs : list regex) :
  Forall (fun r => ngroups r = 0) rs -> ngroups (alt_join rs) = 0.
Proof.
  induction 1 as [|r rs Hr Hrs IH]; [reflexivity|].
  destruct rs as [|r' rs']; [exact Hr|].
  change (Nat.max (ngroups r) (ngroups (alt_join (r' :: rs'))) = 0).
  now rewrite Hr, IH.
Qed.

(** A literal passes a text that is the literal letter by letter. *)
Lemma rmatch_lit (ic : bool) (x : str) (k : kont) (st' : mstate) :
  forall st,
    rmatch ucd ic (lit x) st k = Some st' ->
    exists p rest1,
      Forall2 (fun a b => char_eq ucd ic a b = true) x p /\
      m_rest st = p ++ rest1 /\
      k (MState (rev p ++ m_before st) rest1 (m_groups st)) = Some st'.
Proof.
  induction x as [|c x IH]; intros [before rest g]; cbn [lit rmatch].
  - intros H. exists [], rest. split; [constructor | split; [reflexivity|]].
    exact H.
  - cbn [m_rest m_before m_groups]. destruct rest as [|a rest]; [discriminate|].
    destruct (char_eq ucd ic c a) eqn:Ec; [|discriminate].
    intros H. apply IH in H as (p & rest1 & Hp & Hr & Hk).
    cbn [m_rest m_before m_groups] in Hr, Hk. subst rest.
    exists (a :: p), rest1. split; [now constructor|].
    split; [reflexivity|]. simpl. now rewrite <- app_assoc.
Qed.

Lemma rmatch_alt_join (ic : bool) (rs : list regex) (st : mstate) (k : kont)
    (st' : mstate) :
  rmatch ucd ic (alt_join rs) st k = Some st' ->
  (rs = [] /\ k st = Some st') \/
  exists r, In r rs /\ rmatch ucd ic r st k = Some st'.
Proof.
  induction rs as [|r rs IH]; [now left|]. intros H. right.
  destruct rs as [|r' rs']; [exists r; split; [now left | exact H]|].
  change (rmatch ucd ic (Alt r (alt_join (r' :: rs'))) st k = Some st') in H.
  cbn [rmatch] in H.
  destruct (rmatch ucd ic r st k) as [res|] eqn:E.
  - exists r. split; [now left|]. now rewrite E.
  - destruct (IH H) as [[Hnil _]|(r0 & Hin & Hr0)]; [discriminate|].
    exists r0. split; [now right | exact Hr0].
Qed.

(** The pattern the words are joined into, by the mode. *)
Lemma extract_words_unfold (text_list : list str) (words : str_or_list)
    (whole : bool) :
  extract_words ucd text_list words whole =
  extract ucd (StrList (map (lower ucd) text_list))
    (re_compile ucd true
       (alt_join
          (map (fun x =>
                  if whole then Seq Bnd (Seq (lit x) Bnd)
                  else Seq (Rep CNonSpace 0 None)
                         (Seq (lit x) (Rep CNonSpace 0 None)))
             (map (lower ucd) (as_list words)))))
    "word" None.
Proof. destruct whole; reflexivity. Qed.

Lemma rmatch_word (whole : bool) (x : str) (st : mstate) (k : kont)
    (st' : mstate) :
  rmatch ucd true
    (if whole then Seq Bnd (Seq (lit x) Bnd)
     else Seq (Rep CNonSpace 0 None) (Seq (lit x) (Rep CNonSpace 0 None)))
    st k = Some st' ->
  exists w rest1,
    word_match ucd whole x w /\ m_rest st = w ++ rest1 /\
    k (MState (rev w ++ m_before st) rest1 (m_groups st)) = Some st'.
Proof.
  destruct st as [before rest g]. destruct whole; cbn [rmatch]; intros H.
  - destruct (at_boundary ucd _); [|discriminate].
    apply rmatch_lit in H as (p & rest1 & Hp & Hr & Hk).
    cbn [m_rest m_before m_groups] in *.
    destruct (at_boundary ucd _); [|discriminate].
    exists p, rest1. split; [|split; assumption].
    exists [], p, []. rewrite app_nil_r.
    repeat split; try constructor. exact Hp.
  - cbn [m_rest m_before m_groups] in H.
    apply rep_greedy_sound in H as (pre & suf & -> & Hpre & _ & _ & H).
    apply rmatch_lit in H as (p & rest1 & Hp & Hr & Hk).
    cbn [m_rest m_before m_groups rmatch] in *. subst suf.
    apply rep_greedy_sound in Hk as (post & rest2 & -> & Hpost & _ & _ & Hk).
    exists (pre ++ p ++ post), rest2.
    split; [|split].
    + exists pre, p, post. repeat split; try assumption; discriminate.
    + now rewrite <- !app_assoc.
    + rewrite !rev_app_distr, <- !app_assoc. exact Hk.
Qed.

Lemma attempt_words (whole : bool) (xs : list str) (before rest : str)
    (ma : bool) (n : nat) (v : mval) :
  attempt ucd true
    (alt_join
       (map (fun x =>
               if whole then Seq Bnd (Seq (lit x) Bnd)
               else Seq (Rep CNonSpace 0 None)
                      (Seq (lit x) (Rep CNonSpace 0 None))) xs))
    before rest ma = Some (n, v) ->
  exists w rest1,
    v = MStr w /\ rest = w ++ rest1 /\
    ((xs = [] /\ w = []) \/ exists x, In x xs /\ word_match ucd whole x w).
Proof.
  unfold attempt.
  set (r := alt_join _).
  assert (Hg : ngroups r = 0).
  { apply ngroups_alt_join, List.Forall_forall. intros r0 Hr0.
    apply in_map_iff in Hr0 as (x & <- & _).
    destruct whole; cbn [ngroups]; now rewrite ngroups_lit. }
  destruct (rmatch ucd true r _ _) as [st'|] eqn:E; [|discriminate].
  intros [= <- <-]. unfold item. rewrite Hg.
  apply rmatch_alt_join in E as [[Hnil Hk]|(r0 & Hin & Hr0)].
  - destruct (ma && _); [discriminate|]. injection Hk as <-.
    cbn [m_before]. rewrite Nat.sub_diag. exists [], rest.
    split; [reflexivity | split; [reflexivity|]]. left.
    split; [|reflexivity]. now destruct xs.
  - apply in_map_iff in Hin as (x & <- & Hx).
    apply rmatch_word in Hr0 as (w & rest1 & Hw & Hr & Hk).
    cbn [m_rest m_before m_groups] in *.
    destruct (ma && _); [discriminate|]. injection Hk as <-.
    cbn [m_before m_groups].
    exists w, rest1. split; [|split; [exact Hr|]].
    + now rewrite span_after, rev_involutive.
    + right. exists x. split; assumption.
Qed.

Lemma findall_words (whole : bool) (xs : list str) (s : str) (v : mval) :
  In v (re_findall ucd true
          (alt_join
             (map (fun x =>
                     if whole then Seq Bnd (Seq (lit x) Bnd)
                     else Seq (Rep CNonSpace 0 None)
                            (Seq (lit x) (Rep CNonSpace 0 None))) xs)) s) ->
  exists w,
    v = MStr w /\ is_piece w s /\
    ((xs = [] /\ w = []) \/ exists x, In x xs /\ word_match ucd whole x w).
Proof.
  unfold re_findall. intros Hin.
  apply findall_at_In in Hin as (before' & rest' & ma & n & Heq & Ha).
  apply attempt_words in Ha as (w & rest1 & -> & -> & Hw).
  exists w. split; [reflexivity|]. split; [|exact Hw].
  exists (rev before'), rest1. simpl in Heq. now rewrite <- Heq.
Qed.

Lemma Forall2_map_self {A B} (P : A -> B -> Prop) (f : A -> B) (l : list A) :
  (forall a, In a l -> P a (f a)) -> Forall2 P l (map f l).
Proof.
  induction l as [|a l IH]; intros H; simpl; constructor.
  - apply H. now left.
  - apply IH. intros a' Ha'. apply H. now right.
Qed.

Lemma extract_words_findall (text_list : list str) (words : str_or_list)
    (whole : bool) (s : Summary) :
  extract_words ucd text_list words whole = Ok s ->
  text_list <> [] /\
  F_s s = map (fun text =>
                 re_findall ucd true
                   (alt_join
                      (map (fun x =>
                              if whole then Seq Bnd (Seq (lit x) Bnd)
                              else Seq (Rep CNonSpace 0 None)
                                     (Seq (lit x) (Rep CNonSpace 0 None)))
                         (map (lower ucd) (as_list words))))
                   (lower ucd (lower ucd text)))
            text_list.
Proof.
  rewrite extract_words_unfold. intros H.
  apply extract_Ok_inv in H as (Hne & q & ->). summary_simpl.
  cbn [matches_used as_list re_compile findall] in *.
  split; [now destruct text_list|]. now rewrite map_map.
Qed.

(** X11: what [extract_words] reports.  For plain words, whose text is
    its own pattern source, in every summary it returns each value
    reported for a record is a string that stands as a contiguous piece
    in the record lower-cased twice; with no word to look for it is the
    empty string, and otherwise it is made of one of the lower-cased
    words, letter by letter with case ignored, between two runs of
    non-space characters, both empty when whole words are asked for. *)
Theorem extract_words_matches (text_list : list str) (words : str_or_list)
    (whole : bool) (s : Summary) :
  Forall (fun x => plain_word (lower ucd x)) (as_list words) ->
  extract_words ucd text_list words whole = Ok s ->
  Forall2
    (fun text ms =>
       Forall (fun v =>
                 exists w,
                   v = MStr w /\ is_piece w (lower ucd (lower ucd text)) /\
                   ((as_list words = [] /\ w = []) \/
                    exists x, In x (as_list words) /\
                              word_match ucd whole (lower ucd x) w))
         ms)
    text_list (F_s s).
Proof.
  intros _ H. apply extract_words_findall in H as [_ ->].
  apply Forall2_map_self. intros text _. apply List.Forall_forall.
  intros v Hv. apply findall_words in Hv as (w & -> & Hp & Hw).
  exists w. split; [reflexivity|]. split; [exact Hp|].
  destruct Hw as [[Hnil ->]|(x & Hx & Hw)].
  - left. split; [|reflexivity]. now destruct (as_list words).
  - right. apply in_map_iff in Hx as (x0 & <- & Hx0). now exists x0.
Qed.

End WordMore.

Section WordAscii.

Context (ucd : UCD).

Lemma ascii_lower_ascii (c : cp) :
  is_ascii c = true -> is_ascii (ascii_lower c) = true.
Proof.
  unfold is_ascii, ascii_lower. intros H. apply N.ltb_lt in H.
  destruct (65 <=? c)%N eqn:E1; destruct (c <=? 90)%N eqn:E2; simpl;
    apply N.ltb_lt; try lia.
  apply N.leb_le in E2. lia.
Qed.

Lemma ascii_lower_idempotent (c : cp) :
  ascii_lower (ascii_lower c) = ascii_lower c.
Proof.
  unfold ascii_lower.
  destruct (65 <=? c)%N eqn:E1; destruct (c <=? 90)%N eqn:E2; simpl;
    rewrite ?E1, ?E2; simpl; try reflexivity.
  apply N.leb_le in E1.
  replace (c + 32 <=? 90)%N with false
    by (symmetry; apply N.leb_gt; lia).
  now rewrite andb_false_r.
Qed.

Lemma lower_from_ascii (s : str) :
  ascii_text s -> forall before, lower_from ucd before s = map ascii_lower s.
Proof.
  induction 1 as [|c s Hc Hs IH]; intros before; simpl; [reflexivity|].
  now rewrite Hc, IH.
Qed.

Lemma lower_ascii (s : str) : ascii_text s -> lower ucd s = map ascii_lower s.
Proof. intros H. now apply lower_from_ascii. Qed.

Lemma lower_ascii_small (s : str) :
  ascii_text s ->
  Forall (fun c => is_ascii c = true /\ ascii_lower c = c) (lower ucd s).
Proof.
  intros H. rewrite (lower_ascii s H).
  induction H as [|c s Hc Hs IH]; simpl; constructor; [|exact IH].
  split; [now apply ascii_lower_ascii | apply ascii_lower_idempotent].
Qed.

Lemma lower_ascii_text (s : str) : ascii_text s -> ascii_text (lower ucd s).
Proof.
  intros H. eapply List.Forall_impl; [|apply lower_ascii_small, H].
  now intros c [Hc _].
Qed.

Lemma is_piece_Forall (P : cp -> Prop) (w s : str) :
  is_piece w s -> Forall P s -> Forall P w.
Proof.
  intros (l & r & ->) H.
  apply List.Forall_app in H as [_ H]. now apply List.Forall_app in H as [H _].
Qed.

Lemma same_letters_small (x p : str) :
  same_letters ucd x p ->
  Forall (fun c => is_ascii c = true /\ ascii_lower c = c) x ->
  Forall (fun c => is_ascii c = true /\ ascii_lower c = c) p ->
  x = p.
Proof.
  induction 1 as [|a b x p Hab _ IH]; intros Hx Hp; [reflexivity|].
  inversion Hx as [|? ? [Ha Hla] Hx']; subst.
  inversion Hp as [|? ? [Hb Hlb] Hp']; subst.
  unfold char_eq in Hab. rewrite Ha, Hb, Hla, Hlb in Hab. simpl in Hab.
  apply N.eqb_eq in Hab. subst b. f_equal. now apply IH.
Qed.

(** X12: whole words.  When the records are ASCII and the words are
    plain ASCII words, every value [extract_words] reports for whole
    words is one of the words, lower-cased (or the empty string when
    there is no word to look for). *)
Theorem extract_words_whole_ascii (text_list : list str)
    (words : str_or_list) (s : Summary) :
  Forall ascii_text text_list ->
  Forall ascii_text (as_list words) ->
  Forall plain_word (as_list words) ->
  extract_words ucd text_list words true = Ok s ->
  Forall (fun v =>
            (as_list words = [] /\ v = MStr []) \/
            exists x, In x (as_list words) /\ v = MStr (map ascii_lower x))
    (F_s_flat s).
Proof.
  intros Htexts Hwords _ H.
  pose proof (extract_words_findall ucd _ _ _ _ H) as [_ HF].
  rewrite extract_words_unfold in H.
  apply extract_Ok_inv in H as (_ & q & Es).
  assert (Hflat : F_s_flat s = concat (F_s s)) by (rewrite Es; reflexivity).
  rewrite Hflat, HF. clear Es Hflat HF q.
  apply List.Forall_forall. intros v Hv.
  apply in_concat in Hv as (ms & Hms & Hv).
  apply in_map_iff in Hms as (text & <- & Htext).
  apply (findall_words ucd true) in Hv as (w & -> & Hp & Hw).
  destruct Hw as [[Hnil ->]|(x & Hx & Hw)].
  - left. split; [|reflexivity]. now destruct (as_list words).
  - right. apply in_map_iff in Hx as (x0 & <- & Hx0). exists x0.
    split; [exact Hx0|].
    rewrite List.Forall_forall in Htexts, Hwords.
    pose proof (Hwords _ Hx0) as Hx0a. pose proof (Htexts _ Htext) as Hta.
    destruct Hw as (pre & p & post & -> & Hsame & _ & _ & Hends).
    destruct (Hends eq_refl) as [-> ->]. rewrite app_nil_r in *. simpl in *.
    f_equal. rewrite <- (lower_ascii x0 Hx0a). symmetry.
    apply same_letters_small; [exact Hsame | now apply lower_ascii_small|].
    eapply is_piece_Forall; [exact Hp|].
    apply lower_ascii_small, lower_ascii_text, Hta.
Qed.

End WordAscii.

Section WordEmpty.

Context (ucd : UCD).

Lemma findall_at_eps (ic : bool) (s : str) :
  forall before,
    findall_at ucd ic Eps before s 0 = repeat (MStr []) (S (length s)).
Proof.
  assert (A0 : forall before rest,
            attempt ucd ic Eps before rest false = Some (0, MStr [])).
  { intros before rest. unfold attempt. cbn [rmatch andb m_before m_groups].
    now rewrite Nat.sub_diag. }
  assert (A1 : forall before rest, attempt ucd ic Eps before rest true = None).
  { intros before rest. unfold attempt. cbn [rmatch andb m_before].
    now rewrite Nat.eqb_refl. }
  induction s as [|c s IH]; intros before; rewrite findall_at_eq; cbv zeta;
    rewrite A0, A1; [reflexivity|].
  rewrite IH. reflexivity.
Qed.

(** X13: no words to look for.  With an empty list of words the pattern
    is the empty pattern, and every summary [extract_words] returns
    reports, for each record, one empty string for each position of the
    lower-cased record, its end included. *)
Theorem extract_words_no_words (text_list : list str) (whole : bool)
    (s : Summary) :
  extract_words ucd text_list (StrList []) whole = Ok s ->
  F_s s = map (fun text =>
                 repeat (MStr [])
                   (S (length (lower ucd (lower ucd text)))))
            text_list /\
  F_counts s = map (fun text => S (length (lower ucd (lower ucd text))))
                 text_list.
Proof.
  intros H. pose proof (extract_words_findall ucd _ _ _ _ H) as [_ HF].
  rewrite extract_words_unfold in H.
  apply extract_Ok_inv in H as (_ & q & Es).
  assert (Hc : F_counts s = map (@length mval) (F_s s))
    by (rewrite Es; reflexivity).
  assert (HF' : F_s s = map (fun text =>
                 repeat (MStr [])
                   (S (length (lower ucd (lower ucd text)))))
            text_list).
  { rewrite HF. apply map_ext. intros text. apply findall_at_eps. }
  split; [exact HF'|]. rewrite Hc, HF', map_map. apply map_ext.
  intros text. apply repeat_length.
Qed.

End WordEmpty.

(** ** Currency symbols: names and windows *)

Section CurrencyMore.

Context (ucd : UCD).

Lemma mapM_all_or_raise {A B : Type} (f : A -> result B) (e : pyerr)
    (l : list A) :
  (forall x, In x l -> (exists y, f x = Ok y) \/ f x = Raise e) ->
  (exists x, In x l /\ f x = Raise e) ->
  mapM f l = Raise e.
Proof.
  induction l as [|a l IH]; intros Hall (x & Hx & Hfx); [destruct Hx|].
  simpl. destruct (Hall a (or_introl eq_refl)) as [(y & Ey)|Ea];
    [|now rewrite Ea].
  rewrite Ey. cbn [bind]. rewrite IH; [reflexivity | |].
  - intros x' Hx'. apply Hall. now right.
  - destruct Hx as [->|Hx]; [congruence|]. now exists x.
Qed.

Lemma mapM_Raise_inv {A B : Type} (f : A -> result B) (e : pyerr)
    (l : list A) :
  mapM f l = Raise e -> exists x, In x l /\ f x = Raise e.
Proof.
  induction l as [|a l IH]; simpl; [discriminate|].
  destruct (f a) as [b|e'] eqn:Ea; cbn [bind].
  - destruct (mapM f l) as [r|e'']; cbn [bind]; [discriminate|].
    intros [= ->]. destruct (IH eq_refl) as (x & Hx & Hfx).
    exists x. split; [now right | exact Hfx].
  - intros [= ->]. exists a. split; [now left | exact Ea].
Qed.

Lemma currency_symbols_of (text : str) :
  findall (CURRENCY ucd) text
  = map (fun c => MStr [c]) (currency_chars ucd text).
Proof.
  unfold CURRENCY, CURRENCY_RAW, re_compile, findall. now rewrite findall_cls.
Qed.

Lemma extract_currency_unfold (text_list : list str)
    (left_chars right_chars : nat) :
  extract_currency ucd text_list left_chars right_chars =
  bind (extract ucd (StrList text_list) (CURRENCY ucd) "currency_symbol" None)
    (fun summary =>
  bind (mapM (fun x => mapM (char_name ucd) x) (F_s summary))
    (fun names =>
  bind (compile_surrounding_text_regex ucd left_chars right_chars)
    (fun regex =>
  Ok {| currency_base := summary;
        currency_symbol_names := names;
        surrounding_text :=
          map (fun text => findall regex text) text_list |}))).
Proof. reflexivity. Qed.

Lemma repeat_too_large_false (n : nat) :
  repeat_too_large n = false <-> (N.of_nat n < MAXREPEAT)%N.
Proof. unfold repeat_too_large. apply N.leb_gt. Qed.

Lemma compile_surrounding_text_regex_Ok (left_chars right_chars : nat) :
  (N.of_nat left_chars < MAXREPEAT)%N ->
  (N.of_nat right_chars < MAXREPEAT)%N ->
  compile_surrounding_text_regex ucd left_chars right_chars
  = Ok (re_compile ucd false
          (surrounding_text_regex ucd left_chars right_chars)).
Proof.
  intros HL HR. apply repeat_too_large_false in HL, HR.
  unfold compile_surrounding_text_regex. now rewrite HL, HR.
Qed.

Lemma compile_surrounding_text_regex_overflow (left_chars right_chars : nat) :
  (MAXREPEAT <= N.of_nat left_chars)%N \/
  (MAXREPEAT <= N.of_nat right_chars)%N ->
  compile_surrounding_text_regex ucd left_chars right_chars
  = Raise OverflowError.
Proof.
  intros H. unfold compile_surrounding_text_regex, repeat_too_large.
  destruct H as [H|H]; apply N.leb_le in H; rewrite H;
    [reflexivity | now rewrite orb_true_r].
Qed.

Lemma names_parallel (ms : list (list mval)) (names : list (list str)) :
  mapM (fun x => mapM (char_name ucd) x) ms = Ok names ->
  Forall2
    (Forall2 (fun v nm =>
                exists c n, v = MStr [c] /\ ucd_name ucd c = Some n /\
                            nm = lower ucd n))
    ms names.
Proof.
  intros H. apply mapM_Ok_Forall2 in H.
  eapply Forall2_impl; [exact H|]. cbv beta.
  intros x ns Hx. apply mapM_Ok_Forall2 in Hx.
  eapply Forall2_impl; [exact Hx|]. cbv beta.
  intros v nm Hv. unfold char_name in Hv.
  destruct v as [[|c [|c' s]]|t]; try discriminate.
  destruct (ucd_name ucd c) as [n|] eqn:En; [|discriminate].
  injection Hv as <-. now exists c, n.
Qed.

(** X14: currency symbols and their names.  In every summary
    [extract_currency] returns, the symbols of a record are the currency
    characters of the lower-cased record, in order, each as a string of
    one character, and the names run parallel to them: each is the
    lower-cased Unicode name of the symbol at the same place. *)
Theorem extract_currency_symbols_named (text_list : list str)
    (left_chars right_chars : nat) (s : CurrencySummary) :
  extract_currency ucd text_list left_chars right_chars = Ok s ->
  F_s (currency_base s)
  = map (fun text =>
           map (fun c => MStr [c]) (currency_chars ucd (lower ucd text)))
      text_list /\
  Forall2
    (Forall2 (fun v nm =>
                exists c n, v = MStr [c] /\ ucd_name ucd c = Some n /\
                            nm = lower ucd n))
    (F_s (currency_base s)) (currency_symbol_names s).
Proof.
  rewrite extract_currency_unfold.
  destruct (extract _ _ _ _ _) as [b|] eqn:Eb; cbn [bind]; [|discriminate].
  destruct (mapM _ _) as [names|] eqn:En; cbn [bind]; [|discriminate].
  destruct (compile_surrounding_text_regex _ _ _) as [regex|];
    cbn [bind]; [|discriminate].
  intros [= <-]. cbn [currency_base currency_symbol_names].
  split; [|now apply names_parallel].
  apply extract_Ok_inv in Eb as (_ & q & ->). summary_simpl.
  cbn [matches_used as_list]. apply map_ext. intros text.
  apply currency_symbols_of.
Qed.

(** X15: the outcome of [extract_currency] on a non-empty list of
    records.  When some currency symbol of a lower-cased record has no
    Unicode name the value error of [name] is raised, whatever the
    bounds.  Otherwise the overflow error of [re.compile] is raised when
    one of the bounds is 4294967295 or more, and a summary is returned
    when both are below. *)
Theorem extract_currency_outcome (text_list : list str)
    (left_chars right_chars : nat) :
  text_list <> [] ->
  (unnamed_symbol ucd text_list ->
   extract_currency ucd text_list left_chars right_chars = Raise ValueError) /\
  (~ unnamed_symbol ucd text_list ->
   ((4294967295 <= N.of_nat left_chars)%N \/
    (4294967295 <= N.of_nat right_chars)%N ->
    extract_currency ucd text_list left_chars right_chars
    = Raise OverflowError) /\
   ((N.of_nat left_chars < 4294967295)%N ->
    (N.of_nat right_chars < 4294967295)%N ->
    exists s,
      extract_currency ucd text_list left_chars right_chars = Ok s)).
Proof.
  intros Hne. rewrite extract_currency_unfold.
  rewrite extract_nonempty by exact Hne. cbn [bind].
  unfold summary_of at 1 3 5. cbv zeta. cbn [F_s matches_used as_list].
  assert (Hone : forall text v,
            In v (findall (CURRENCY ucd) (lower ucd text)) ->
            exists c, v = MStr [c] /\
                      In c (currency_chars ucd (lower ucd text)) /\
                      char_name ucd v
                      = match ucd_name ucd c with
                        | Some n => Ok (lower ucd n)
                        | None => Raise ValueError
                        end).
  { intros text v Hv. rewrite currency_symbols_of in Hv.
    apply in_map_iff in Hv as (c & <- & Hc). now exists c. }
  split.
  - intros (text & c & Htext & Hc & Hname).
    rewrite (mapM_all_or_raise _ ValueError); [reflexivity | |].
    + intros x Hx. apply in_map_iff in Hx as (text' & <- & _).
      destruct (mapM (char_name ucd) _) as [ns|e] eqn:E; [left; now eexists|].
      right. f_equal. apply mapM_Raise_inv in E as (v & Hin & Hv).
      destruct (Hone text' v Hin) as (c' & -> & _ & Hn).
      rewrite Hn in Hv. destruct (ucd_name ucd c'); congruence.
    + exists (findall (CURRENCY ucd) (lower ucd text)).
      split; [apply in_map_iff; now exists text|].
      apply mapM_all_or_raise.
      * intros v Hv. destruct (Hone text v Hv) as (c' & -> & _ & Hn).
        rewrite Hn. destruct (ucd_name ucd c'); [left; now eexists | now right].
      * exists (MStr [c]). split.
        -- rewrite currency_symbols_of. apply in_map_iff. now exists c.
        -- unfold char_name. now rewrite Hname.
  - intros Hnot.
    destruct (mapM_Ok_all (fun x => mapM (char_name ucd) x)
                (map (fun text => findall (CURRENCY ucd) (lower ucd text))
                   text_list)) as (names & ->).
    2:{ cbn [bind]. split.
        - intros Hbig.
          rewrite compile_surrounding_text_regex_overflow by exact Hbig.
          reflexivity.
        - intros HL HR.
          rewrite compile_surrounding_text_regex_Ok by assumption.
          cbn [bind]. eexists. reflexivity. }
    intros x Hx. apply in_map_iff in Hx as (text & <- & Htext).
    apply mapM_Ok_all. intros v Hv.
    destruct (Hone text v Hv) as (c & -> & Hc & Hn). rewrite Hn.
    destruct (ucd_name ucd c) eqn:E; [now eexists|].
    exfalso. apply Hnot. now exists text, c.
Qed.

Lemma attempt_window_at_symbol (left_chars right_chars : nat)
    (before : str) (c : cp) (rest : str) :
  is_currency ucd c = true ->
  attempt ucd false (surrounding_text_regex ucd left_chars right_chars)
    before (c :: rest) false <> None.
Proof.
  intros Hc. unfold attempt, surrounding_text_regex, CURRENCY_RAW.
  cbn [rmatch m_before m_rest m_groups].
  match goal with
  | |- match ?X with _ => _ end <> _ =>
      assert (Hx : exists st', X = Some st'); [|destruct Hx as (st' & ->);
                                                 discriminate]
  end.
  destruct (rep_greedy_zero (class_test ucd CAny) (Some right_chars)
              (c :: before) rest []
              (fun st => if false && (length (m_before st) =? length before)
                         then None else Some st)
              (MState (c :: before) rest []) eq_refl) as (st1 & H1).
  eapply rep_greedy_zero. cbn [m_before m_rest m_groups class_test].
  rewrite Hc. exact H1.
Qed.

Lemma findall_at_window_nonempty (left_chars right_chars : nat) (s : str) :
  forall before skip,
    Exists (fun c => is_currency ucd c = true) (skipn skip s) ->
    findall_at ucd false (surrounding_text_regex ucd left_chars right_chars)
      before s skip <> [].
Proof.
  induction s as [|x s IH]; intros before skip Hex.
  - rewrite skipn_nil in Hex. inversion Hex.
  - rewrite findall_at_eq. cbv zeta. destruct skip as [|n].
    + simpl in Hex.
      destruct (attempt ucd false _ before (x :: s) false)
        as [[[|n] v]|] eqn:E; try discriminate.
      inversion Hex as [? ? Hx|? ? Hs]; subst.
      * exfalso.
        exact (attempt_window_at_symbol left_chars right_chars before x s
                 Hx E).
      * apply IH. exact Hs.
    + apply IH. exact Hex.
Qed.

(** X16: in every summary [extract_currency] returns, whatever the
    bounds, a record has no context window exactly when it has no
    currency symbol, the record taken as it is written. *)
Theorem extract_currency_windows_empty (text_list : list str)
    (left_chars right_chars : nat) (s : CurrencySummary) :
  extract_currency ucd text_list left_chars right_chars = Ok s ->
  Forall2 (fun text ws => ws = [] <-> currency_chars ucd text = [])
    text_list (surrounding_text s).
Proof.
  intros H. apply extract_currency_Ok_inv in H as [_ ->].
  apply Forall2_map_self. intros text _. split.
  - intros Hnil. unfold currency_chars.
    destruct (List.filter _ text) as [|c cs] eqn:Ef; [reflexivity|].
    exfalso.
    apply (findall_at_window_nonempty left_chars right_chars text [] 0);
      [|exact Hnil].
    apply List.Exists_exists. exists c.
    assert (Hin : In c (List.filter (is_currency ucd) text))
      by (rewrite Ef; now left).
    apply filter_In in Hin. exact Hin.
  - intros Hnone.
    destruct (re_findall _ _ _ text) as [|w ws] eqn:Ew; [reflexivity|].
    exfalso.
    assert (Hw : In w (re_findall ucd false
                         (surrounding_text_regex ucd left_chars right_chars)
                         text)) by (rewrite Ew; now left).
    apply findall_window in Hw as (pre & l & c & r & post & -> & _ & _ & _
                                   & Hc & _).
    assert (Hin : In c (currency_chars ucd (pre ++ l ++ c :: r ++ post))).
    { apply filter_In. split; [|exact Hc].
      apply in_or_app. right. apply in_or_app. right. now left. }
    rewrite Hnone in Hin. destruct Hin.
Qed.

Lemma attempt_window_0 (ma : bool) (before : str) (c : cp) (rest : str) :
  attempt ucd false (surrounding_text_regex ucd 0 0) before (c :: rest) ma =
  if is_currency ucd c then Some (1, MStr [c]) else None.
Proof.
  transitivity (attempt ucd false (Cls (CIn (is_currency ucd))) before
                  (c :: rest) ma); [|apply attempt_cls].
  destruct rest; reflexivity.
Qed.

Lemma findall_at_window_0 (s : str) :
  forall before,
    findall_at ucd false (surrounding_text_regex ucd 0 0) before s 0
    = map (fun c => MStr [c]) (currency_chars ucd s).
Proof.
  induction s as [|c s IH]; intros before; rewrite findall_at_eq; cbv zeta.
  - reflexivity.
  - rewrite attempt_window_0. unfold currency_chars. simpl.
    destruct (is_currency ucd c); simpl; now rewrite IH.
Qed.

(** X17: with both bounds zero, the context windows of a record are its
    currency symbols, in order, the record taken as it is written. *)
Theorem extract_currency_windows_0 (text_list : list str)
    (s : CurrencySummary) :
  extract_currency ucd text_list 0 0 = Ok s ->
  surrounding_text s
  = map (fun text => map (fun c => MStr [c]) (currency_chars ucd text))
      text_list.
Proof.
  intros H. apply extract_currency_Ok_inv in H as [_ ->].
  apply map_ext. intros text. apply findall_at_window_0.
Qed.

End CurrencyMore.

(** ** Hashtags, mentions and marks *)

Section MarksAndTags.

Context (ucd : UCD).

(** Without matches of its own [extract] sees the records through
    [lower] alone. *)
Lemma extract_lowered (a b : str_or_list) (regex : Pattern) (key : string) :
  map (lower ucd) (as_list a) = map (lower ucd) (as_list b) ->
  extract ucd a regex key None = extract ucd b regex key None.
Proof.
  intros H. rewrite !extract_unfold. unfold summary_of, matches_used.
  cbv zeta.
  assert (Hm : forall l,
            map (fun text => findall regex (lower ucd text)) l
            = map (findall regex) (map (lower ucd) l))
    by (intros l; now rewrite map_map).
  assert (Hl : length (as_list a) = length (as_list b)).
  { rewrite <- (length_map (lower ucd) (as_list a)), H. apply length_map. }
  now rewrite !Hm, H, Hl.
Qed.

(** X18: hashtags and mentions do not see the case of the records.  Two
    record collections (one string counting as a collection of one) that
    are the same once lower-cased give the same result, summary or error,
    from [extract_hashtags], and the same from [extract_mentions]. *)
Theorem extract_hashtags_mentions_lowered (HASHTAG MENTION : Pattern)
    (a b : str_or_list) :
  map (lower ucd) (as_list a) = map (lower ucd) (as_list b) ->
  extract_hashtags ucd HASHTAG a = extract_hashtags ucd HASHTAG b /\
  extract_mentions ucd MENTION a = extract_mentions ucd MENTION b.
Proof.
  intros H. split; [unfold extract_hashtags | unfold extract_mentions];
    now apply extract_lowered.
Qed.


(** X20: exclamation and question marks and their names.  In every
    summary [extract_exclamations] returns, the marks of a record are the
    matches of the mark pattern on the lower-cased record, each a string
    of one character, the names run parallel to them, each the
    lower-cased Unicode name of the mark at the same place, and the texts
    are the matches of the clause pattern on the records as they are
    written; the same holds of [extract_questions]. *)
Theorem extract_marks_named (MARK CLAUSE : Pattern) (text_list : list str) :
  (forall s,
     extract_exclamations ucd MARK CLAUSE text_list = Ok s ->
     F_s (exclamation_base s)
     = map (fun text => findall MARK (lower ucd text)) text_list /\
     Forall2
       (Forall2 (fun v nm =>
                   exists c n, v = MStr [c] /\ ucd_name ucd c = Some n /\
                               nm = lower ucd n))
       (F_s (exclamation_base s)) (exclamation_mark_names s) /\
     exclamation_text s = map (findall CLAUSE) text_list) /\
  (forall s,
     extract_questions ucd MARK CLAUSE text_list = Ok s ->
     F_s (question_base s)
     = map (fun text => findall MARK (lower ucd text)) text_list /\
     Forall2
       (Forall2 (fun v nm =>
                   exists c n, v = MStr [c] /\ ucd_name ucd c = Some n /\
                               nm = lower ucd n))
       (F_s (question_base s)) (question_mark_names s) /\
     question_text s = map (findall CLAUSE) text_list).
Proof.
  split; intros s; [unfold extract_exclamations | unfold extract_questions];
    (destruct (extract _ _ _ _ _) as [b|] eqn:Eb; cbn [bind]; [|discriminate]);
    (destruct (mapM _ _) as [names|] eqn:En; cbn [bind]; [|discriminate]);
    intros [= <-];
    cbn [exclamation_base exclamation_mark_names exclamation_text
         question_base question_mark_names question_text];
    (split; [|split; [now apply names_parallel | reflexivity]]);
    apply extract_Ok_inv in Eb as (_ & q & ->); reflexivity.
Qed.

(** X21: when the mark pattern reports, on some lower-cased record, a
    value that is not a string of one character with a Unicode name,
    neither [extract_exclamations] nor [extract_questions] returns a
    summary. *)
Theorem extract_marks_failure (MARK CLAUSE : Pattern) (text_list : list str)
    (text : str) (v : mval) :
  In text text_list -> In v (findall MARK (lower ucd text)) ->
  (forall c, v = MStr [c] -> ucd_name ucd c = None) ->
  (forall s, extract_exclamations ucd MARK CLAUSE text_list <> Ok s) /\
  (forall s, extract_questions ucd MARK CLAUSE text_list <> Ok s).
Proof.
  intros Htext Hv Hbad.
  assert (Hno : forall names,
            mapM (fun x => mapM (char_name ucd) x)
              (map (fun text => findall MARK (lower ucd text)) text_list)
            <> Ok names).
  { intros names Hn. apply names_parallel in Hn.
    apply Forall2_flip in Hn.
    assert (Hin : In (findall MARK (lower ucd text))
                    (map (fun text => findall MARK (lower ucd text))
                       text_list))
      by (apply in_map_iff; now exists text).
    clear Htext. revert Hin. induction Hn as [|nm ms names mss H1 _ IH];
      intros Hin; [destruct Hin|].
    destruct Hin as [->|Hin]; [|now apply IH].
    apply Forall2_flip in H1. clear -H1 Hv Hbad.
    induction H1 as [|v' n vs ns (c & n' & -> & Hc & _) _ IH];
      [destruct Hv|].
    destruct Hv as [<-|Hv]; [|now apply IH].
    rewrite (Hbad c eq_refl) in Hc. discriminate. }
  split; intros s; [unfold extract_exclamations | unfold extract_questions];
    (destruct (extract _ _ _ _ _) as [b|] eqn:Eb; cbn [bind]; [|discriminate]);
    apply extract_Ok_inv in Eb as (_ & q & ->);
    (destruct (mapM _ _) as [names|] eqn:En; cbn [bind]; [|discriminate]);
    exfalso; exact (Hno names eq_refl).
Qed.

End MarksAndTags.

(** ** Closed examples *)

Lemma extract_shape_witness :
  (forall e, Some sample_matches = Some e ->
             length e = length (as_list (StrList sample_posts))) /\
  as_list (StrList sample_posts) <> [] /\
  exists s,
    extract sample_ucd (StrList sample_posts) sample_tag "hashtag"
      (Some sample_matches) = Ok s /\
    length (F_s s) = 3 /\
    list_sum (F_counts s) = length (F_s_flat s).
Proof.
  assert (Hpre : forall e, Some sample_matches = Some e ->
                   length e = length (as_list (StrList sample_posts)))
    by (intros e [= <-]; reflexivity).
  assert (Hne : as_list (StrList sample_posts) <> []) by discriminate.
  split; [exact Hpre|]. split; [exact Hne|].
  destruct (extract_shape sample_ucd (StrList sample_posts) sample_tag
              "hashtag" (Some sample_matches) Hpre) as [Hex Hall].
  destruct (Hex Hne) as [s Hs]. exists s. split; [exact Hs|].
  destruct (Hall s Hs) as (H1 & _ & _ & _ & _ & H6).
  split; [exact H1 | exact H6].
Defined.

Lemma extract_top_ranking_witness :
  as_list (StrList sample_posts) <> [] /\
  exists s,
    extract sample_ucd (StrList sample_posts) sample_tag "hashtag" None
    = Ok s /\
    StronglySorted (fun a b => snd b <= snd a) (top_F_s s) /\
    list_sum (map snd (top_F_s s)) = length (F_s_flat s).
Proof.
  assert (Hne : as_list (StrList sample_posts) <> []) by discriminate.
  split; [exact Hne|].
  destruct (extract_top_ranking sample_ucd (StrList sample_posts) sample_tag
              "hashtag" None Hne) as (s & Hs & H1 & H2 & _).
  exists s. split; [exact Hs|]. split; [exact H1 | exact H2].
Defined.



Lemma extract_extracted_truthiness_witness :
  as_list (StrList sample_posts) <> [] /\
  exists s,
    extract sample_ucd (StrList sample_posts) sample_tag "hashtag" None
    = Ok s /\
    F_s s = map (fun text => findall sample_tag (lower sample_ucd text))
              (as_list (StrList sample_posts)).
Proof.
  assert (Hne : as_list (StrList sample_posts) <> []) by discriminate.
  split; [exact Hne|].
  destruct (extract_extracted_truthiness sample_ucd (StrList sample_posts)
              sample_tag "hashtag") as (_ & H & _).
  exact (H Hne).
Defined.

Lemma extract_emoji_missing_entry_witness :
  In [128513%N]
    (concat (map (fun text => sample_EMOJI_findall (lower sample_ucd text))
               [[104%N; 128512%N]; [128513%N]])) /\
  sample_EMOJI_ENTRIES !! [128513%N] = None /\
  exists k,
    extract_emoji sample_ucd sample_EMOJI_findall sample_EMOJI_ENTRIES
      [[104%N; 128512%N]; [128513%N]] = Raise (KeyError k).
Proof.
  assert (Hin : In [128513%N]
            (concat (map (fun text =>
                            sample_EMOJI_findall (lower sample_ucd text))
                       [[104%N; 128512%N]; [128513%N]])))
    by (right; left; reflexivity).
  assert (Hmiss : sample_EMOJI_ENTRIES !! [128513%N] = None)
    by (vm_compute; reflexivity).
  split; [exact Hin|]. split; [exact Hmiss|].
  destruct (extract_emoji_missing_entry sample_ucd sample_EMOJI_findall
              sample_EMOJI_ENTRIES _ _ Hin Hmiss) as (k & Hk & _).
  exists k. exact Hk.
Defined.

Lemma extract_urls_normalized_witness :
  sample_URL_findall (s2l "two: http://a.com www.b.com")
  = [s2l "http://a.com"; s2l "www.b.com"] /\
  exists s,
    extract_urls sample_ucd sample_URL_findall
      [s2l "two: http://a.com www.b.com"] = Ok s /\
    F_s (url_base s)
    = [[MStr (s2l "http://a.com"); MStr (s2l "http://www.b.com")]].
Proof.
  assert (HURL : sample_URL_findall (s2l "two: http://a.com www.b.com")
                 = [s2l "http://a.com"; s2l "www.b.com"])
    by (vm_compute; reflexivity).
  split; [exact HURL|].
  destruct (extract_urls_normalized sample_ucd sample_URL_findall)
    as (_ & _ & Hex).
  destruct (Hex HURL) as (s & Hs & HF & _).
  exists s. split; [exact Hs | exact HF].
Defined.


Lemma extract_currency_surrounding_text_witness :
  (forall c, is_currency sample_ucd c = true ->
             ucd_name sample_ucd c <> None) /\
  ucd_is_Sc sample_ucd 8383%N = true /\
  exists s,
    extract_currency sample_ucd
      [s2l "today " ++ [8383%N] ++ s2l "1 is around $4k"] 5 3 = Ok s /\
    surrounding_text s
    = [[MStr (s2l "oday " ++ [8383%N] ++ s2l "1 i"); MStr (s2l "ound $4k")]]
    /\
    exists windows,
      surrounding_text s = map (map MStr) windows /\
      Forall2 (windows_of sample_ucd 5 3) windows
        [s2l "today " ++ [8383%N] ++ s2l "1 is around $4k"].
Proof.
  assert (Hnamed : forall c, is_currency sample_ucd c = true ->
                             ucd_name sample_ucd c <> None)
    by (intros c _; discriminate).
  assert (Hbtc : ucd_is_Sc sample_ucd 8383%N = true) by reflexivity.
  split; [exact Hnamed|]. split; [exact Hbtc|].
  destruct (extract_currency_surrounding_text sample_ucd) as (Hwin & H).
  destruct (H Hnamed) as (_ & Hex).
  destruct (Hex Hbtc) as (_ & s & Hs & Hsur).
  exists s. split; [exact Hs|]. split; [exact Hsur|].
  exact (Hwin _ _ _ _ Hs).
Defined.

Lemma extract_freq_table_witness :
  (forall e, @None (list (list mval)) = Some e ->
             length e = length (as_list (StrList sample_posts))) /\
  exists s,
    extract sample_ucd (StrList sample_posts) sample_tag "hashtag" None
    = Ok s /\
    StronglySorted (fun a b => fst a < fst b) (F_freq s) /\
    list_sum (map snd (F_freq s)) = 3 /\
    list_sum (map (fun p => fst p * snd p) (F_freq s)) = num_F (overview s).
Proof.
  assert (Hpre : forall e, @None (list (list mval)) = Some e ->
                   length e = length (as_list (StrList sample_posts)))
    by (intros e [=]).
  assert (Hne : as_list (StrList sample_posts) <> []) by discriminate.
  split; [exact Hpre|].
  pose proof (extract_nonempty sample_ucd (StrList sample_posts) sample_tag
                "hashtag" None Hne) as Hs.
  eexists. split; [exact Hs|].
  destruct (extract_freq_table sample_ucd _ _ _ _ _ Hpre Hs)
    as (H1 & _ & H3 & H4).
  split; [exact H1|]. split; [exact H3 | exact H4].
Defined.

Lemma extract_unique_is_ranking_length_witness :
  exists s,
    extract sample_ucd (StrList sample_posts) sample_tag "hashtag" None
    = Ok s /\
    unique_F (overview s) = length (top_F_s s) /\
    unique_F (overview s) <= num_F (overview s).
Proof.
  assert (Hne : as_list (StrList sample_posts) <> []) by discriminate.
  pose proof (extract_nonempty sample_ucd (StrList sample_posts) sample_tag
                "hashtag" None Hne) as Hs.
  eexists. split; [exact Hs|].
  destruct (extract_unique_is_ranking_length sample_ucd _ _ _ _ _ Hs)
    as (H1 & H2 & _).
  split; [exact H1 | exact H2].
Defined.

Lemma extract_emoji_outcome_witness :
  emoji_matched sample_ucd sample_EMOJI_findall
    [[104%N; 128512%N]; [128513%N]]
  = [[128512%N]] ++ [128513%N] :: [] /\
  all_known sample_EMOJI_ENTRIES [[128512%N]] /\
  sample_EMOJI_ENTRIES !! [128513%N] = None /\
  extract_emoji sample_ucd sample_EMOJI_findall sample_EMOJI_ENTRIES
    [[104%N; 128512%N]; [128513%N]] = Raise (KeyError [128513%N]).
Proof.
  assert (Hflat : emoji_matched sample_ucd sample_EMOJI_findall
                    [[104%N; 128512%N]; [128513%N]]
                  = [[128512%N]] ++ [128513%N] :: []) by reflexivity.
  assert (Hpre : all_known sample_EMOJI_ENTRIES [[128512%N]]).
  { constructor; [|constructor]. vm_compute. discriminate. }
  assert (Hk : sample_EMOJI_ENTRIES !! [128513%N] = None)
    by (vm_compute; reflexivity).
  split; [exact Hflat|]. split; [exact Hpre|]. split; [exact Hk|].
  destruct (extract_emoji_outcome sample_ucd sample_EMOJI_findall
              sample_EMOJI_ENTRIES [[104%N; 128512%N]; [128513%N]])
    as [H _].
  exact (H _ _ _ Hflat Hpre Hk).
Defined.

Lemma extract_emoji_text_parallel_witness :
  exists s,
    extract_emoji sample_ucd sample_EMOJI_findall sample_EMOJI_ENTRIES
      emoji_posts = Ok s /\
    length (emoji s) = 3 /\
    emoji_flat_text s = concat (emoji_text s).
Proof.
  destruct (extract_emoji sample_ucd sample_EMOJI_findall
              sample_EMOJI_ENTRIES emoji_posts) as [s|e] eqn:Hs;
    [|exfalso; revert Hs; vm_compute; discriminate].
  exists s. split; [reflexivity|].
  destruct (extract_emoji_text_parallel _ _ _ _ _ Hs) as (H1 & _ & H3 & _).
  split; [exact H1 | exact H3].
Defined.

Lemma extract_emoji_derived_rankings_witness :
  exists s,
    extract_emoji sample_ucd sample_EMOJI_findall sample_EMOJI_ENTRIES
      emoji_posts = Ok s /\
    exists groups,
      Forall2 (fun em y =>
                 exists e, sample_EMOJI_ENTRIES !! em = Some e /\
                           y = entry_group e)
        (emoji_flat s) groups /\
      ranking_of groups (top_emoji_groups s) /\
      list_sum (map snd (top_emoji_groups s)) = num_F (emoji_overview s) /\
      length (top_emoji_sub_groups s) <= length (top_emoji s).
Proof.
  destruct (extract_emoji sample_ucd sample_EMOJI_findall
              sample_EMOJI_ENTRIES emoji_posts) as [s|e] eqn:Hs;
    [|exfalso; revert Hs; vm_compute; discriminate].
  exists s. split; [reflexivity|].
  destruct (extract_emoji_derived_rankings _ _ _ _ _ Hs)
    as (gs & sgs & _ & G0 & _ & _ & G1 & _ & _ & G2 & _ & _ & _ & S3).
  exists gs. split; [exact G0|]. split; [exact G1|].
  split; [exact G2 | exact S3].
Defined.

Lemma extract_emoji_agrees_with_extract_witness :
  exists s,
    extract_emoji sample_ucd sample_EMOJI_findall sample_EMOJI_ENTRIES
      emoji_posts = Ok s /\
    exists b,
      extract sample_ucd (StrList emoji_posts)
        (EMOJI_pattern sample_EMOJI_findall) "emoji" None = Ok b /\
      overview b = emoji_overview s /\
      F_freq b = emoji_freq s.
Proof.
  destruct (extract_emoji sample_ucd sample_EMOJI_findall
              sample_EMOJI_ENTRIES emoji_posts) as [s|e] eqn:Hs;
    [|exfalso; revert Hs; vm_compute; discriminate].
  exists s. split; [reflexivity|].
  destruct (extract_emoji_agrees_with_extract _ _ _ _ _ Hs)
    as (b & Hb & _ & _ & _ & H4 & _ & H6).
  exists b. split; [exact Hb|]. split; [exact H6 | exact H4].
Defined.

Lemma extract_urls_rankings_witness :
  exists s,
    extract_urls sample_ucd sample_URL_findall url_posts = Ok s /\
    exists hosts,
      ranking_of hosts (top_domains s) /\
      ranking_of (map tld hosts) (top_tlds s) /\
      list_sum (map snd (top_domains s)) = num_F (overview (url_base s)) /\
      length (top_tlds s) <= length (top_domains s) /\
      Forall (fun p => ~ In 46%N (fst p)) (top_tlds s).
Proof.
  destruct (extract_urls sample_ucd sample_URL_findall url_posts)
    as [s|e] eqn:Hs; [|exfalso; revert Hs; vm_compute; discriminate].
  exists s. split; [reflexivity|].
  destruct (extract_urls_rankings _ _ _ _ Hs)
    as (hosts & _ & H2 & H3 & H4 & _ & H6 & _ & H8).
  exists hosts. split; [exact H2|]. split; [exact H3|].
  split; [exact H4|]. split; [exact H6 | exact H8].
Defined.

Lemma extract_intense_words_monotone_witness :
  (1 <= 2 <= 3)%Z /\
  exists s s',
    extract_intense_words sample_ucd [s2l "soooo soo"; s2l "so good"] 2
    = Ok s /\
    extract_intense_words sample_ucd [s2l "soooo soo"; s2l "so good"] 3
    = Ok s' /\
    F_s s' = map (List.filter (mval_has_run 3)) (F_s s) /\
    num_F (overview s') <= num_F (overview s).
Proof.
  assert (Hmn : (1 <= 2 <= 3)%Z) by lia.
  split; [exact Hmn|].
  destruct (extract_intense_words sample_ucd
              [s2l "soooo soo"; s2l "so good"] 2) as [s|e] eqn:Hs;
    [|exfalso; revert Hs; vm_compute; discriminate].
  destruct (extract_intense_words sample_ucd
              [s2l "soooo soo"; s2l "so good"] 3) as [s'|e] eqn:Hs';
    [|exfalso; revert Hs'; vm_compute; discriminate].
  exists s, s'. split; [reflexivity|]. split; [reflexivity|].
  destruct (extract_intense_words_monotone _ _ _ _ _ _ Hmn Hs Hs')
    as (H1 & H2 & _).
  split; [exact H1 | exact H2].
Defined.


Lemma extract_words_matches_witness :
  Forall (fun x => plain_word (lower sample_ucd x))
    (as_list (StrList [s2l "rain"])) /\
  exists s,
    extract_words sample_ucd word_posts (StrList [s2l "rain"]) false = Ok s /\
    Forall2
      (fun text ms =>
         Forall (fun v =>
                   exists w,
                     v = MStr w /\
                     is_piece w (lower sample_ucd (lower sample_ucd text)) /\
                     ((as_list (StrList [s2l "rain"]) = [] /\ w = []) \/
                      exists x, In x (as_list (StrList [s2l "rain"])) /\
                                word_match sample_ucd false
                                  (lower sample_ucd x) w))
           ms)
      word_posts (F_s s).
Proof.
  assert (Hplain : Forall (fun x => plain_word (lower sample_ucd x))
                     (as_list (StrList [s2l "rain"])))
    by (repeat constructor).
  split; [exact Hplain|].
  destruct (extract_words sample_ucd word_posts (StrList [s2l "rain"]) false)
    as [s|e] eqn:Hs; [|exfalso; revert Hs; vm_compute; discriminate].
  exists s. split; [reflexivity|].
  exact (extract_words_matches _ _ _ _ _ Hplain Hs).
Defined.

Lemma extract_words_whole_ascii_witness :
  Forall ascii_text [s2l "it is Raining, rain"] /\
  Forall ascii_text (as_list (OneStr (s2l "Rain"))) /\
  Forall plain_word (as_list (OneStr (s2l "Rain"))) /\
  exists s,
    extract_words sample_ucd [s2l "it is Raining, rain"]
      (OneStr (s2l "Rain")) true = Ok s /\
    Forall (fun v =>
              (as_list (OneStr (s2l "Rain")) = [] /\ v = MStr []) \/
              exists x, In x (as_list (OneStr (s2l "Rain"))) /\
                        v = MStr (map ascii_lower x))
      (F_s_flat s).
Proof.
  assert (Ht : Forall ascii_text [s2l "it is Raining, rain"])
    by (repeat constructor).
  assert (Hw : Forall ascii_text (as_list (OneStr (s2l "Rain"))))
    by (repeat constructor).
  assert (Hp : Forall plain_word (as_list (OneStr (s2l "Rain"))))
    by (repeat constructor).
  split; [exact Ht|]. split; [exact Hw|]. split; [exact Hp|].
  destruct (extract_words sample_ucd [s2l "it is Raining, rain"]
              (OneStr (s2l "Rain")) true) as [s|e] eqn:Hs;
    [|exfalso; revert Hs; vm_compute; discriminate].
  exists s. split; [reflexivity|].
  exact (extract_words_whole_ascii _ _ _ _ Ht Hw Hp Hs).
Defined.

Lemma extract_words_no_words_witness :
  exists s,
    extract_words sample_ucd [s2l "ab"; s2l ""] (StrList []) true = Ok s /\
    F_s s = [[MStr []; MStr []; MStr []]; [MStr []]].
Proof.
  destruct (extract_words sample_ucd [s2l "ab"; s2l ""] (StrList []) true)
    as [s|e] eqn:Hs; [|exfalso; revert Hs; vm_compute; discriminate].
  exists s. split; [reflexivity|].
  destruct (extract_words_no_words _ _ _ _ Hs) as [HF _].
  rewrite HF. reflexivity.
Defined.

Lemma extract_currency_symbols_named_witness :
  exists s,
    extract_currency sample_ucd currency_posts 20 20 = Ok s /\
    Forall2
      (Forall2 (fun v nm =>
                  exists c n, v = MStr [c] /\
                              ucd_name sample_ucd c = Some n /\
                              nm = lower sample_ucd n))
      (F_s (currency_base s)) (currency_symbol_names s).
Proof.
  destruct (extract_currency sample_ucd currency_posts 20 20)
    as [s|e] eqn:Hs; [|exfalso; revert Hs; vm_compute; discriminate].
  exists s. split; [reflexivity|].
  destruct (extract_currency_symbols_named _ _ _ _ _ Hs) as [_ H].
  exact H.
Defined.

Lemma extract_currency_outcome_witness :
  currency_posts <> [] /\
  ~ unnamed_symbol sample_ucd currency_posts /\
  (N.of_nat 20 < 4294967295)%N /\
  exists s, extract_currency sample_ucd currency_posts 20 20 = Ok s.
Proof.
  assert (Hne : currency_posts <> []) by discriminate.
  assert (Hnamed : ~ unnamed_symbol sample_ucd currency_posts)
    by (intros (text & c & _ & _ & Hn); discriminate).
  assert (Hb : (N.of_nat 20 < 4294967295)%N) by reflexivity.
  split; [exact Hne|]. split; [exact Hnamed|]. split; [exact Hb|].
  destruct (extract_currency_outcome sample_ucd currency_posts 20 20 Hne)
    as [_ H].
  destruct (H Hnamed) as [_ Hok].
  exact (Hok Hb Hb).
Defined.

Lemma extract_currency_windows_empty_witness :
  exists s,
    extract_currency sample_ucd currency_posts 5 5 = Ok s /\
    Forall2 (fun text ws => ws = [] <-> currency_chars sample_ucd text = [])
      currency_posts (surrounding_text s).
Proof.
  destruct (extract_currency sample_ucd currency_posts 5 5)
    as [s|e] eqn:Hs; [|exfalso; revert Hs; vm_compute; discriminate].
  exists s. split; [reflexivity|].
  exact (extract_currency_windows_empty _ _ _ _ _ Hs).
Defined.

Lemma extract_currency_windows_0_witness :
  exists s,
    extract_currency sample_ucd [s2l "A $4k b"; s2l "none"] 0 0 = Ok s /\
    surrounding_text s = [[MStr (s2l "$")]; []].
Proof.
  destruct (extract_currency sample_ucd [s2l "A $4k b"; s2l "none"] 0 0)
    as [s|e] eqn:Hs; [|exfalso; revert Hs; vm_compute; discriminate].
  exists s. split; [reflexivity|].
  rewrite (extract_currency_windows_0 _ _ _ Hs). reflexivity.
Defined.

Lemma extract_hashtags_mentions_lowered_witness :
  map (lower sample_ucd) (as_list (StrList [s2l "I like #Blue"]))
  = map (lower sample_ucd) (as_list (OneStr (s2l "i like #blue"))) /\
  extract_hashtags sample_ucd sample_tag (StrList [s2l "I like #Blue"])
  = extract_hashtags sample_ucd sample_tag (OneStr (s2l "i like #blue")).
Proof.
  assert (H : map (lower sample_ucd) (as_list (StrList [s2l "I like #Blue"]))
              = map (lower sample_ucd)
                  (as_list (OneStr (s2l "i like #blue"))))
    by (vm_compute; reflexivity).
  split; [exact H|].
  destruct (extract_hashtags_mentions_lowered sample_ucd sample_tag sample_tag
              _ _ H) as [Hh _].
  exact Hh.
Defined.


Lemma extract_marks_named_witness :
  exists s,
    extract_exclamations sample_ucd sample_mark sample_clause mark_posts
    = Ok s /\
    Forall2
      (Forall2 (fun v nm =>
                  exists c n, v = MStr [c] /\
                              ucd_name sample_ucd c = Some n /\
                              nm = lower sample_ucd n))
      (F_s (exclamation_base s)) (exclamation_mark_names s) /\
    exclamation_text s = [[MStr (s2l "Wow!")]; []].
Proof.
  destruct (extract_exclamations sample_ucd sample_mark sample_clause
              mark_posts) as [s|e] eqn:Hs;
    [|exfalso; revert Hs; vm_compute; discriminate].
  exists s. split; [reflexivity|].
  destruct (extract_marks_named sample_ucd sample_mark sample_clause
              mark_posts) as [H _].
  destruct (H s Hs) as (_ & H2 & H3).
  split; [exact H2|]. rewrite H3. vm_compute. reflexivity.
Defined.

Lemma extract_marks_failure_witness :
  In (s2l "i like #blue") sample_posts /\
  In (MStr (s2l "#blue"))
    (findall sample_tag (lower sample_ucd (s2l "i like #blue"))) /\
  (forall c, MStr (s2l "#blue") = MStr [c] ->
             ucd_name sample_ucd c = None) /\
  forall s,
    extract_questions sample_ucd sample_tag sample_clause sample_posts
    <> Ok s.
Proof.
  assert (Htext : In (s2l "i like #blue") sample_posts)
    by (left; reflexivity).
  assert (Hv : In (MStr (s2l "#blue"))
                 (findall sample_tag
                    (lower sample_ucd (s2l "i like #blue"))))
    by (vm_compute; left; reflexivity).
  assert (Hbad : forall c, MStr (s2l "#blue") = MStr [c] ->
                           ucd_name sample_ucd c = None)
    by (intros c [=]).
  split; [exact Htext|]. split; [exact Hv|]. split; [exact Hbad|].
  destruct (extract_marks_failure sample_ucd sample_tag sample_clause
              sample_posts _ _ Htext Hv Hbad) as [_ H].
  exact H.
Defined.
